(** * Retro UFO game: simulation core and particle engine

    A shallow embedding of the per-frame simulation of [src/js/main.js],
    of the game-state manager ([GameStateManager], src/unnamed/part_001)
    and of the particle engine ([ParticleSystem], src/unnamed/part_000),
    followed by the properties of the specification that concern them.

    Numbers.  JavaScript numbers are IEEE doubles; here coordinates, speeds
    and timers are exact rationals ([Q], compared with [==]), integer
    counters are [Z] or [nat].  A Euclidean length is only ever compared
    with a bound in the entity code, so it is carried as its square
    ([lengthSq]) and compared through [len_lt] / [len_gt].  The one place
    where a length is used as a value, the speed clamp of [updateUFO], is
    modelled over the reals in [Module UfoPhysics].

    Collaborators.  Calls into the scene graph, the audio layer, the
    visual effects and (from main.js) the particle engine are recorded
    in a chronological [trace] of [Event]s.  What main.js obtains from
    [Math.random], [Math.sin], [Math.cos] and [Vector3.normalize] is
    taken from section variables. *)

From Stdlib Require Import QArith Qminmax ZArith List Lia Bool Arith.
From Stdlib Require Import Permutation Sorted Lqa Reals Lra Qreals.
Import ListNotations.

Local Open Scope Q_scope.

(** ** Scalars and vectors *)

Definition Qltb (a b : Q) : bool := negb (Qle_bool b a).

Record Vec3 : Type := mkVec3 { vx : Q; vy : Q; vz : Q }.

Definition vzero : Vec3 := mkVec3 0 0 0.

Definition vadd (a b : Vec3) : Vec3 :=
  mkVec3 (vx a + vx b) (vy a + vy b) (vz a + vz b).

Definition vsub (a b : Vec3) : Vec3 :=
  mkVec3 (vx a - vx b) (vy a - vy b) (vz a - vz b).

Definition vscale (a : Vec3) (s : Q) : Vec3 :=
  mkVec3 (vx a * s) (vy a * s) (vz a * s).

Definition lengthSq (a : Vec3) : Q := vx a * vx a + vy a * vy a + vz a * vz a.

Definition distanceToSq (a b : Vec3) : Q := lengthSq (vsub a b).

(** [sqrt sq < r], for [0 <= sq]. *)
Definition len_lt (sq r : Q) : bool := Qltb 0 r && Qltb sq (r * r).

(** [sqrt sq > r], for [0 <= sq]. *)
Definition len_gt (sq r : Q) : bool := Qltb r 0 || Qltb (r * r) sq.

(** [THREE.MathUtils.lerp]. *)
Definition lerp (x y t : Q) : Q := (1 - t) * x + t * y.

(** ** JavaScript arrays *)

(** [a.splice(index, 1)]. *)
Fixpoint splice1 {A : Type} (index : nat) (a : list A) : list A :=
  match a, index with
  | [], _ => []
  | _ :: t, O => t
  | x :: t, S i => x :: splice1 i t
  end.

(** [a[index] = x] for an index inside the array. *)
Fixpoint store {A : Type} (index : nat) (x : A) (a : list A) : list A :=
  match a, index with
  | [], _ => []
  | _ :: t, O => x :: t
  | y :: t, S i => y :: store i x t
  end.

(** [Array.prototype.forEach] over an array that lives in the state [W]:
    the length is read once, the indices [0 .. length-1] are walked in
    order, an index is visited only if the array still has it, and the
    callback sees the array as the earlier calls left it. *)
Section ForEach.
Context {W A : Type}.
Variable arr : W -> list A.
Variable callback : A -> nat -> W -> W.

Definition visit (k : nat) (w : W) : W :=
  match nth_error (arr w) k with
  | Some a => callback a k w
  | None => w
  end.

Fixpoint forEach_from (steps k : nat) (w : W) : W :=
  match steps with
  | O => w
  | S steps' => forEach_from steps' (S k) (visit k w)
  end.

Definition forEach (w : W) : W := forEach_from (length (arr w)) 0 w.
End ForEach.

(** ** Game-state manager (src/unnamed/part_001) *)

Module GameStateManager.

Inductive State : Type := START | PLAYING | PAUSED | GAME_OVER | HELP.

Definition State_eqb (a b : State) : bool :=
  match a, b with
  | START, START | PLAYING, PLAYING | PAUSED, PAUSED
  | GAME_OVER, GAME_OVER | HELP, HELP => true
  | _, _ => false
  end.

(** Calls received that the rest of the game observes. *)
Inductive Call : Type :=
  | CallEndGame (finalScore : Z).

(** [highScores] keeps the scores of the stored entries (their dates are
    not read by any decision); [calls] is the chronological record of
    [endGame] invocations. *)
Record t : Type := mk {
  currentState : State;
  score : Z;
  health : Z;
  highScores : list Z;
  calls : list Call
}.

Definition init : t := mk START 0 3 [] [].

(** The screens toggled by [changeState] are presentation; the state
    variable is what the simulation reads. *)
Definition changeState (newState : State) (g : t) : t :=
  mk newState (score g) (health g) (highScores g) (calls g).

(** [sort((a, b) => b.score - a.score)]: insertion from the right end,
    each entry placed in front of the entries that do not beat it, which
    sorts from the highest score down and keeps ties in their order. *)
Fixpoint insertDesc (s : Z) (l : list Z) : list Z :=
  match l with
  | [] => [s]
  | x :: t => if (x <=? s)%Z then s :: x :: t else x :: insertDesc s t
  end.

Definition sortDesc (l : list Z) : list Z := fold_right insertDesc [] l.

Definition saveHighScore (s : Z) (g : t) : t :=
  mk (currentState g) (score g) (health g)
     (firstn 5 (sortDesc (highScores g ++ [s]))) (calls g).

Definition endGame (g : t) : t :=
  let g0 := mk (currentState g) (score g) (health g) (highScores g)
               (calls g ++ [CallEndGame (score g)]) in
  changeState GAME_OVER (saveHighScore (score g0) g0).

Definition updateScore (newScore : Z) (g : t) : t :=
  mk (currentState g) newScore (health g) (highScores g) (calls g).

Definition updateHealth (newHealth : Z) (g : t) : t :=
  let g1 := mk (currentState g) (score g) newHealth (highScores g) (calls g) in
  if (health g1 <=? 0)%Z then endGame g1 else g1.

(** [startGame()] and [restartGame()] up to their callbacks
    [onStartGame] and [onRestartGame], which main.js supplies (see
    [pressStart] and [pressRestart]). *)
Definition startGame (g : t) : t :=
  let g1 := mk (currentState g) 0 3 (highScores g) (calls g) in
  changeState PLAYING (updateHealth 3 (updateScore 0 g1)).

Definition restartGame (g : t) : t :=
  let g1 := mk (currentState g) 0 3 (highScores g) (calls g) in
  changeState PLAYING (updateHealth 3 (updateScore 0 g1)).

Definition pauseGame (g : t) : t := changeState PAUSED g.
Definition resumeGame (g : t) : t := changeState PLAYING g.

Definition isGameActive (g : t) : bool := State_eqb (currentState g) PLAYING.

Definition endGameCalls (g : t) : nat := length (calls g).

(** The [keydown] listener of [setupEventListeners], for the key P. *)
Definition keyP (g : t) : t :=
  match currentState g with
  | PLAYING => pauseGame g
  | PAUSED => resumeGame g
  | _ => g
  end.

End GameStateManager.

(** ** Entities and global state of main.js *)

Inductive Sound : Type :=
| UfoEngineLoop | UfoTractorBeam | UfoExplosion
| CowMoo | CowAbductionComplete
| JetMissile | UiGameStart | MusicBackground.

Inductive ParticleType : Type := Exhaust | Explosion | Sparkle | Smoke.

(** Calls issued by main.js to its collaborators.  Objects (meshes,
    emitters, positional sounds) are named by the number they received
    at creation. *)
Inductive Event : Type :=
| SoundPlay (s : Sound)
| SoundStop (s : Sound)
| AudioPlay (audio : nat)
| AudioStop (audio : nat)
| ShakeScreen (intensity : Q)
| CreateEmitter (type : ParticleType) (emitter : nat)
| CreateExplosion (position : Vec3) (size count : Q)
| UpdateEmitterPosition (emitter : nat)
| RemoveEmitter (emitter : nat)
| SceneAdd (object : nat)
| SceneRemove (object : nat)
| VisualEffectsInit.

Record Keys : Type := mkKeys {
  ArrowUp : bool; ArrowDown : bool; ArrowLeft : bool; ArrowRight : bool;
  Space : bool; Shift : bool; KeyE : bool; KeyM : bool
}.

Definition noKeys : Keys := mkKeys false false false false false false false false.

Record Cow : Type := mkCow {
  cow_id : nat;
  cow_position : Vec3;
  cow_rotationY : Q;
  cow_radius : Q;
  isBeingAbducted : bool;
  abductionProgress : Q;
  idle_timer : Q;
  idle_speed : Q
}.

(** A positional sound attached to a jet. *)
Record Audio : Type := mkAudio { audio_id : nat; isPlaying : bool }.

Record Jet : Type := mkJet {
  jet_id : nat;
  jet_position : Vec3;
  jet_rotationX : Q;
  jet_rotationY : Q;
  jet_radius : Q;
  jet_speed : Q;
  lastFired : Z;
  fireRate : Q;
  target : Vec3;
  engineSound : option Audio;
  jet_exhaustEmitter : option nat
}.

Record Missile : Type := mkMissile {
  missile_id : nat;
  missile_position : Vec3;
  missile_radius : Q;
  direction : Vec3;
  missile_speed : Q;
  lifeTime : Z;
  missile_exhaustEmitter : option nat
}.

Record World : Type := mkWorld {
  gameActive : bool;
  ufo_position : Vec3;
  ufo_radius : Q;
  velocity : Vec3;
  keys : Keys;
  tractorBeam_visible : bool;
  cows : list Cow;
  jets : list Jet;
  missiles : list Missile;
  lastJetSpawn : Z;
  currentSpawnInterval : Q;
  gameStateManager : GameStateManager.t;
  miniMap : bool;
  draws : nat;   (* calls to Math.random() made so far *)
  nextId : nat;  (* objects created so far *)
  trace : list Event
}.

Definition set_gameActive (b : bool) (w : World) : World :=
  mkWorld b (ufo_position w) (ufo_radius w) (velocity w) (keys w)
    (tractorBeam_visible w) (cows w) (jets w) (missiles w) (lastJetSpawn w)
    (currentSpawnInterval w) (gameStateManager w) (miniMap w) (draws w)
    (nextId w) (trace w).

Definition set_ufo_position (p : Vec3) (w : World) : World :=
  mkWorld (gameActive w) p (ufo_radius w) (velocity w) (keys w)
    (tractorBeam_visible w) (cows w) (jets w) (missiles w) (lastJetSpawn w)
    (currentSpawnInterval w) (gameStateManager w) (miniMap w) (draws w)
    (nextId w) (trace w).

Definition set_velocity (v : Vec3) (w : World) : World :=
  mkWorld (gameActive w) (ufo_position w) (ufo_radius w) v (keys w)
    (tractorBeam_visible w) (cows w) (jets w) (missiles w) (lastJetSpawn w)
    (currentSpawnInterval w) (gameStateManager w) (miniMap w) (draws w)
    (nextId w) (trace w).

Definition set_keys (k : Keys) (w : World) : World :=
  mkWorld (gameActive w) (ufo_position w) (ufo_radius w) (velocity w) k
    (tractorBeam_visible w) (cows w) (jets w) (missiles w) (lastJetSpawn w)
    (currentSpawnInterval w) (gameStateManager w) (miniMap w) (draws w)
    (nextId w) (trace w).

Definition set_tractorBeam_visible (b : bool) (w : World) : World :=
  mkWorld (gameActive w) (ufo_position w) (ufo_radius w) (velocity w) (keys w)
    b (cows w) (jets w) (missiles w) (lastJetSpawn w)
    (currentSpawnInterval w) (gameStateManager w) (miniMap w) (draws w)
    (nextId w) (trace w).

Definition set_cows (l : list Cow) (w : World) : World :=
  mkWorld (gameActive w) (ufo_position w) (ufo_radius w) (velocity w) (keys w)
    (tractorBeam_visible w) l (jets w) (missiles w) (lastJetSpawn w)
    (currentSpawnInterval w) (gameStateManager w) (miniMap w) (draws w)
    (nextId w) (trace w).

Definition set_jets (l : list Jet) (w : World) : World :=
  mkWorld (gameActive w) (ufo_position w) (ufo_radius w) (velocity w) (keys w)
    (tractorBeam_visible w) (cows w) l (missiles w) (lastJetSpawn w)
    (currentSpawnInterval w) (gameStateManager w) (miniMap w) (draws w)
    (nextId w) (trace w).

Definition set_missiles (l : list Missile) (w : World) : World :=
  mkWorld (gameActive w) (ufo_position w) (ufo_radius w) (velocity w) (keys w)
    (tractorBeam_visible w) (cows w) (jets w) l (lastJetSpawn w)
    (currentSpawnInterval w) (gameStateManager w) (miniMap w) (draws w)
    (nextId w) (trace w).

Definition set_lastJetSpawn (t : Z) (w : World) : World :=
  mkWorld (gameActive w) (ufo_position w) (ufo_radius w) (velocity w) (keys w)
    (tractorBeam_visible w) (cows w) (jets w) (missiles w) t
    (currentSpawnInterval w) (gameStateManager w) (miniMap w) (draws w)
    (nextId w) (trace w).

Definition set_currentSpawnInterval (i : Q) (w : World) : World :=
  mkWorld (gameActive w) (ufo_position w) (ufo_radius w) (velocity w) (keys w)
    (tractorBeam_visible w) (cows w) (jets w) (missiles w) (lastJetSpawn w)
    i (gameStateManager w) (miniMap w) (draws w) (nextId w) (trace w).

Definition set_gameStateManager (g : GameStateManager.t) (w : World) : World :=
  mkWorld (gameActive w) (ufo_position w) (ufo_radius w) (velocity w) (keys w)
    (tractorBeam_visible w) (cows w) (jets w) (missiles w) (lastJetSpawn w)
    (currentSpawnInterval w) g (miniMap w) (draws w) (nextId w) (trace w).

Definition set_miniMap (b : bool) (w : World) : World :=
  mkWorld (gameActive w) (ufo_position w) (ufo_radius w) (velocity w) (keys w)
    (tractorBeam_visible w) (cows w) (jets w) (missiles w) (lastJetSpawn w)
    (currentSpawnInterval w) (gameStateManager w) b (draws w) (nextId w)
    (trace w).

Definition set_draws (n : nat) (w : World) : World :=
  mkWorld (gameActive w) (ufo_position w) (ufo_radius w) (velocity w) (keys w)
    (tractorBeam_visible w) (cows w) (jets w) (missiles w) (lastJetSpawn w)
    (currentSpawnInterval w) (gameStateManager w) (miniMap w) n (nextId w)
    (trace w).

Definition set_nextId (n : nat) (w : World) : World :=
  mkWorld (gameActive w) (ufo_position w) (ufo_radius w) (velocity w) (keys w)
    (tractorBeam_visible w) (cows w) (jets w) (missiles w) (lastJetSpawn w)
    (currentSpawnInterval w) (gameStateManager w) (miniMap w) (draws w) n
    (trace w).

(** Appends one collaborator call to the trace. *)
Definition emit (e : Event) (w : World) : World :=
  mkWorld (gameActive w) (ufo_position w) (ufo_radius w) (velocity w) (keys w)
    (tractorBeam_visible w) (cows w) (jets w) (missiles w) (lastJetSpawn w)
    (currentSpawnInterval w) (gameStateManager w) (miniMap w) (draws w)
    (nextId w) (trace w ++ [e]).

(** ** Constants of main.js *)

Definition GAME_BOUNDS : Q := 200.
Definition COW_COUNT : nat := 15.
Definition BEAM_RANGE : Q := 10.
Definition BEAM_STRENGTH : Q := 5 # 100.
Definition JET_SPEED : Q := 3 # 10.
Definition MISSILE_SPEED : Q := 5 # 10.
Definition SPAWN_INTERVAL_BASE : Q := 5000.
Definition SPAWN_INTERVAL_MIN : Q := 1000.
Definition SPAWN_RATE_INCREASE : Q := 1 # 10.

(** ** The simulation functions of main.js *)

Section Simulation.

(** [random n] is the value returned by the [n]-th call to
    [Math.random()] of the code below. *)
Variable random : nat -> Q.
(** [Vector3.normalize], [Math.sin], [Math.cos], [Math.atan2], [Math.PI]. *)
Variable normalize : Vec3 -> Vec3.
Variable Math_sin : Q -> Q.
Variable Math_cos : Q -> Q.
Variable Math_atan2 : Q -> Q -> Q.
Variable Math_PI : Q.

Definition draw (w : World) : Q * World :=
  (random (draws w), set_draws (S (draws w)) w).

Definition fresh (w : World) : nat * World :=
  (nextId w, set_nextId (S (nextId w)) w).

(** [createExplosion(position, size)]; the light flash it adds to the
    scene for 200 ms is presentation. *)
Definition createExplosion (position : Vec3) (size : Q) (w : World) : World :=
  let w1 := emit (CreateExplosion position size (size * 50)) w in
  let w2 := emit (SoundPlay UfoExplosion) w1 in
  emit (ShakeScreen (size * (2 # 10))) w2.

(** [damagePlayer()]; the blinking of the craft is presentation. *)
Definition damagePlayer (w : World) : World :=
  let g := gameStateManager w in
  let w1 := set_gameStateManager
              (GameStateManager.updateHealth
                 (GameStateManager.health g - 1)%Z g) w in
  let w2 := emit (ShakeScreen (5 # 10)) w1 in
  let w3 := emit (SoundPlay UfoExplosion) w2 in
  if (GameStateManager.health (gameStateManager w3) <=? 0)%Z then
    let w4 := createExplosion (ufo_position w3) 5 w3 in
    set_gameStateManager (GameStateManager.endGame (gameStateManager w4)) w4
  else w3.

(** [if (jet.userData.engineSound && jet.userData.engineSound.isPlaying)
    jet.userData.engineSound.stop()]. *)
Definition stopEngineSound (jet : Jet) (w : World) : World :=
  match engineSound jet with
  | Some a => if isPlaying a then emit (AudioStop (audio_id a)) w else w
  | None => w
  end.

(** [if (x.userData.exhaustEmitter)
    particleSystem.removeEmitter(x.userData.exhaustEmitter)]. *)
Definition removeExhaust (e : option nat) (w : World) : World :=
  match e with
  | Some e => emit (RemoveEmitter e) w
  | None => w
  end.

(** The release block that precedes every removal of a jet: sound,
    emitter, [scene.remove(jet)]. *)
Definition releaseJet (jet : Jet) (w : World) : World :=
  emit (SceneRemove (jet_id jet))
    (removeExhaust (jet_exhaustEmitter jet) (stopEngineSound jet w)).

(** The release block that precedes every removal of a missile. *)
Definition releaseMissile (missile : Missile) (w : World) : World :=
  emit (SceneRemove (missile_id missile))
    (removeExhaust (missile_exhaustEmitter missile) w).

(** *** checkCollisions *)

Definition collideJet (jet : Jet) (jetIndex : nat) (w : World) : World :=
  if len_lt (distanceToSq (jet_position jet) (ufo_position w))
            (ufo_radius w + jet_radius jet)
  then
    let w1 := createExplosion (jet_position jet) 3 w in
    let w2 := releaseJet jet w1 in
    let w3 := set_jets (splice1 jetIndex (jets w2)) w2 in
    damagePlayer w3
  else w.

Definition collideMissile (missile : Missile) (missileIndex : nat)
    (w : World) : World :=
  if len_lt (distanceToSq (missile_position missile) (ufo_position w))
            (ufo_radius w + missile_radius missile)
  then
    let w1 := createExplosion (missile_position missile) 2 w in
    let w2 := releaseMissile missile w1 in
    let w3 := set_missiles (splice1 missileIndex (missiles w2)) w2 in
    damagePlayer w3
  else w.

Definition checkCollisions (w : World) : World :=
  forEach missiles collideMissile (forEach jets collideJet w).

(** *** updateMissiles *)

Definition moveMissile (missile : Missile) : Missile :=
  mkMissile (missile_id missile)
    (vadd (missile_position missile)
          (vscale (direction missile) (missile_speed missile)))
    (missile_radius missile) (direction missile) (missile_speed missile)
    (lifeTime missile + 1)%Z (missile_exhaustEmitter missile).

Definition missileOutOfBounds (ufo : Vec3) (missile : Missile) : bool :=
  len_gt (distanceToSq (missile_position missile) ufo)
         (GAME_BOUNDS * (15 # 10)).

Definition missileExpired (ufo : Vec3) (missile : Missile) : bool :=
  missileOutOfBounds ufo missile || (500 <? lifeTime missile)%Z.

Definition stepMissile (missile : Missile) (index : nat) (w : World) : World :=
  let m1 := moveMissile missile in
  let w1 := set_missiles (store index m1 (missiles w)) w in
  if missileExpired (ufo_position w1) m1 then
    let w2 := releaseMissile m1 w1 in
    set_missiles (splice1 index (missiles w2)) w2
  else w1.

Definition updateMissiles (w : World) : World :=
  forEach missiles stepMissile w.

(** *** Jets: creation, firing, update *)

(** [createMissileModel(position, direction)]: the missile and its
    exhaust emitter are the next two objects created. *)
Definition createMissileModel (position dir : Vec3) (w : World) : World :=
  let (id, w1) := fresh w in
  let (e, w2) := fresh w1 in
  let w3 := emit (CreateEmitter Exhaust e) w2 in
  let missile := mkMissile id position (5 # 10) (normalize dir)
                   MISSILE_SPEED 0 (Some e) in
  let w4 := emit (SoundPlay JetMissile) w3 in
  let w5 := emit (SceneAdd id) w4 in
  set_missiles (missiles w5 ++ [missile]) w5.

(** [createJetModel()]: the jet, its exhaust emitter and its engine
    sound are the next three objects; the sound is started at once. *)
Definition createJetModel (w : World) : Jet * World :=
  let (id, w1) := fresh w in
  let (r1, w2) := draw w1 in
  let (r2, w3) := draw w2 in
  let (e, w4) := fresh w3 in
  let w5 := emit (CreateEmitter Exhaust e) w4 in
  let (a, w6) := fresh w5 in
  let w7 := emit (AudioPlay a) w6 in
  (mkJet id vzero 0 0 (25 # 10) (JET_SPEED * ((8 # 10) + r1 * (4 # 10)))
         0 (3000 + r2 * 2000) vzero (Some (mkAudio a true)) (Some e),
   w7).

Definition spawnJet (w : World) : World :=
  let (jet, w1) := createJetModel w in
  let (r1, w2) := draw w1 in
  let angle := r1 * Math_PI * 2 in
  let distance := GAME_BOUNDS * (12 # 10) in
  let x := Math_cos angle * distance in
  let z := Math_sin angle * distance in
  let (r2, w3) := draw w2 in
  let y := vy (ufo_position w3) + (r2 * 10 - 5) in
  let jet' := mkJet (jet_id jet) (mkVec3 x y z) (jet_rotationX jet)
                (jet_rotationY jet) (jet_radius jet) (jet_speed jet)
                (lastFired jet) (fireRate jet) (target jet)
                (engineSound jet) (jet_exhaustEmitter jet) in
  let w4 := emit (SceneAdd (jet_id jet')) w3 in
  set_jets (jets w4 ++ [jet']) w4.

Definition jetShouldFire (currentTime : Z) (jet : Jet) : bool :=
  Qltb (fireRate jet) (inject_Z (currentTime - lastFired jet)).

(** The jet after the movement and firing part of the callback.  The
    vector [direction] is scaled in place by [multiplyScalar], so the
    rotation is computed from the scaled vector. *)
Definition moveJet (currentTime : Z) (ufo : Vec3) (jet : Jet) : Jet :=
  let dir := vscale (normalize (vsub ufo (jet_position jet))) (jet_speed jet) in
  mkJet (jet_id jet) (vadd (jet_position jet) dir)
    (vy dir * (5 # 10)) (Math_atan2 (vx dir) (vz dir))
    (jet_radius jet) (jet_speed jet)
    (if jetShouldFire currentTime jet then currentTime else lastFired jet)
    (fireRate jet) ufo (engineSound jet) (jet_exhaustEmitter jet).

Definition jetOutOfBounds (ufo : Vec3) (jet : Jet) : bool :=
  len_gt (distanceToSq (jet_position jet) ufo) (GAME_BOUNDS * (15 # 10)).

Definition stepJet (currentTime : Z) (jet : Jet) (index : nat) (w : World)
    : World :=
  let jet1 := moveJet currentTime (ufo_position w) jet in
  let w1 := match jet_exhaustEmitter jet with
            | Some e => emit (UpdateEmitterPosition e) w
            | None => w
            end in
  let w2 := if jetShouldFire currentTime jet
            then createMissileModel (jet_position jet1)
                   (vsub (ufo_position w1) (jet_position jet1)) w1
            else w1 in
  let w3 := set_jets (store index jet1 (jets w2)) w2 in
  if jetOutOfBounds (ufo_position w3) jet1 then
    let w4 := releaseJet jet1 w3 in
    set_jets (splice1 index (jets w4)) w4
  else w3.

Definition spawnDue (currentTime : Z) (w : World) : bool :=
  Qltb (currentSpawnInterval w) (inject_Z (currentTime - lastJetSpawn w)).

(** The spawn test at the head of [updateJets]. *)
Definition spawnIfDue (currentTime : Z) (w : World) : World :=
  if spawnDue currentTime w
  then set_lastJetSpawn currentTime (spawnJet w)
  else w.

(** [updateJets()], with [currentTime] the value of [Date.now()]. *)
Definition updateJets (currentTime : Z) (w : World) : World :=
  forEach jets (stepJet currentTime) (spawnIfDue currentTime w).

(** *** updateTractorBeam *)

(** The sparkle burst inside the beam: one draw decides, three more
    place it. *)
Definition beamSparkle (w : World) : World :=
  let (r, w1) := draw w in
  if Qltb r (2 # 10) then
    let (_, w2) := draw w1 in
    let (_, w3) := draw w2 in
    let (_, w4) := draw w3 in
    let (e, w5) := fresh w4 in
    emit (CreateEmitter Sparkle e) w5
  else w1.

Definition inBeam (ufo : Vec3) (cow : Cow) : bool :=
  let dx := vx (cow_position cow) - vx ufo in
  let dz := vz (cow_position cow) - vz ufo in
  len_lt (dx * dx + dz * dz) (BEAM_RANGE / 2)
  && Qltb (vy (cow_position cow)) (vy ufo).

Definition startAbduction (cow : Cow) : Cow :=
  mkCow (cow_id cow) (cow_position cow) (cow_rotationY cow) (cow_radius cow)
    true 0 (idle_timer cow) (idle_speed cow).

Definition pullCow (ufo : Vec3) (cow : Cow) : Cow :=
  let progress := abductionProgress cow + BEAM_STRENGTH in
  let targetY := vy ufo - 1 in
  let lerpFactor := progress in
  let p := cow_position cow in
  mkCow (cow_id cow)
    (mkVec3 (lerp (vx p) (vx ufo) (lerpFactor * (5 # 100)))
            (lerp (vy p) targetY (lerpFactor * (5 # 100)))
            (lerp (vz p) (vz ufo) (lerpFactor * (5 # 100))))
    (cow_rotationY cow + (5 # 100)) (cow_radius cow)
    true progress (idle_timer cow) (idle_speed cow).

Definition abductionComplete (ufo : Vec3) (cow : Cow) : bool :=
  len_lt (distanceToSq (cow_position cow) ufo) 3.

Definition tighten (interval : Q) : Q :=
  Qmax SPAWN_INTERVAL_MIN (interval * (1 - SPAWN_RATE_INCREASE)).

Definition abductCow (cow : Cow) (index : nat) (w : World) : World :=
  if negb (isBeingAbducted cow) then
    if inBeam (ufo_position w) cow then
      emit (SoundPlay CowMoo)
        (set_cows (store index (startAbduction cow) (cows w)) w)
    else w
  else
    let cow1 := pullCow (ufo_position w) cow in
    let w1 := set_cows (store index cow1 (cows w)) w in
    if abductionComplete (ufo_position w1) cow1 then
      let w2 := emit (SoundPlay CowAbductionComplete) w1 in
      let (e, w3) := fresh w2 in
      let w4 := emit (CreateEmitter Sparkle e) w3 in
      let w5 := emit (SceneRemove (cow_id cow1)) w4 in
      let w6 := set_cows (splice1 index (cows w5)) w5 in
      let g := gameStateManager w6 in
      let w7 := set_gameStateManager
                  (GameStateManager.updateScore
                     (GameStateManager.score g + 100)%Z g) w6 in
      set_currentSpawnInterval (tighten (currentSpawnInterval w7)) w7
    else w1.

Definition updateTractorBeam (w : World) : World :=
  let wasActive := tractorBeam_visible w in
  let w1 := set_tractorBeam_visible (KeyE (keys w)) w in
  let w2 := if negb wasActive && tractorBeam_visible w1
            then emit (SoundPlay UfoTractorBeam) w1
            else if wasActive && negb (tractorBeam_visible w1)
                 then emit (SoundStop UfoTractorBeam) w1
                 else w1 in
  if tractorBeam_visible w2 then forEach cows abductCow (beamSparkle w2)
  else w2.

(** *** updateCows *)

Definition idleCow (cow : Cow) (index : nat) (w : World) : World :=
  if negb (isBeingAbducted cow) then
    let timer := idle_timer cow + idle_speed cow in
    let headBob := Math_sin timer * (5 # 100) in
    let p := cow_position cow in
    let (r, w1) := draw w in
    let (rotationY, w2) :=
      if Qltb r (5 # 1000) then
        let (r2, w2) := draw w1 in
        (cow_rotationY cow + (r2 - (1 # 2)) * (5 # 10), w2)
      else (cow_rotationY cow, w1) in
    let cow' := mkCow (cow_id cow) (mkVec3 (vx p) (vy p + headBob) (vz p))
                  rotationY (cow_radius cow) (isBeingAbducted cow)
                  (abductionProgress cow) timer (idle_speed cow) in
    set_cows (store index cow' (cows w2)) w2
  else w.

Definition updateCows (w : World) : World := forEach cows idleCow w.

(** *** Start and restart *)

Definition createCow (w : World) : World :=
  let (id, w1) := fresh w in
  let (r1, w2) := draw w1 in
  let x := r1 * GAME_BOUNDS * 2 - GAME_BOUNDS in
  let (r2, w3) := draw w2 in
  let z := r2 * GAME_BOUNDS * 2 - GAME_BOUNDS in
  let y := Math_sin (x * (1 # 100)) * Math_cos (z * (1 # 100)) * 10 in
  let (r3, w4) := draw w3 in
  let w5 := emit (SceneAdd id) w4 in
  let (r4, w6) := draw w5 in
  let (r5, w7) := draw w6 in
  let cow := mkCow id (mkVec3 x (y + 1) z) (r3 * Math_PI * 2) (15 # 10)
               false 0 (r4 * Math_PI * 2) ((1 # 100) + r5 * (1 # 100)) in
  set_cows (cows w7 ++ [cow]) w7.

Definition createCows (w : World) : World := Nat.iter COW_COUNT createCow w.

(** [startGame()], with [now] the value of [Date.now()].  The two
    clearing loops do not splice; the arrays are replaced afterwards. *)
Definition startGame (now : Z) (w : World) : World :=
  let w1 := set_gameActive true w in
  let w2 := set_velocity vzero (set_ufo_position (mkVec3 0 20 0) w1) in
  let w3 := fold_left (fun w jet => releaseJet jet w) (jets w2) w2 in
  let w4 := set_jets [] w3 in
  let w5 := fold_left (fun w m => releaseMissile m w) (missiles w4) w4 in
  let w6 := set_missiles [] w5 in
  let w7 := set_currentSpawnInterval SPAWN_INTERVAL_BASE
              (set_lastJetSpawn now w6) in
  let w8 := match cows w7 with [] => createCows w7 | _ => w7 end in
  let w9 := emit VisualEffectsInit w8 in
  let w10 := set_miniMap true w9 in
  emit (SoundPlay MusicBackground) (emit (SoundPlay UiGameStart) w10).

Definition restartGame (now : Z) (w : World) : World :=
  let w1 := fold_left (fun w cow => emit (SceneRemove (cow_id cow)) w)
              (cows w) w in
  startGame now (createCows (set_cows [] w1)).

(** The start and restart buttons: [GameStateManager.startGame] and
    [GameStateManager.restartGame] with their callbacks. *)
Definition pressStart (now : Z) (w : World) : World :=
  startGame now
    (set_gameStateManager
       (GameStateManager.startGame (gameStateManager w)) w).

Definition pressRestart (now : Z) (w : World) : World :=
  restartGame now
    (set_gameStateManager
       (GameStateManager.restartGame (gameStateManager w)) w).

End Simulation.

(** The globals as the script declares them, with the craft of
    [createUFO] (collision radius 2) and no entity yet. *)
Definition world0 : World :=
  mkWorld false vzero 2 vzero noKeys false [] [] [] 0 SPAWN_INTERVAL_BASE
    GameStateManager.init false 0 0 [].

(** ** Particle engine (src/unnamed/part_000) *)

Module ParticleSystem.

Record Settings : Type := mkSettings {
  color : Z;
  size : Q;
  count : nat;
  lifetime : Z;
  speed : Q;
  spread : Q;
  gravity : Q;
  opacity : Q;
  fadeRate : Q
}.

Definition particleTypes (type : ParticleType) : Settings :=
  match type with
  | Exhaust =>
      mkSettings 0x33aaff (2 # 10) 50 30 (5 # 100) (1 # 10) (1 # 1000)
                 (7 # 10) (3 # 100)
  | Explosion =>
      mkSettings 0xff5500 (3 # 10) 100 60 (2 # 10) (8 # 10) (1 # 1000)
                 1 (2 # 100)
  | Sparkle =>
      mkSettings 0xffff00 (15 # 100) 20 20 (3 # 100) (3 # 10) (- (1 # 1000))
                 (9 # 10) (5 # 100)
  | Smoke =>
      mkSettings 0x555555 (4 # 10) 30 90 (2 # 100) (2 # 10) (- (5 # 10000))
                 (5 # 10) (1 # 100)
  end.

(** The option keys that the callers of [createEmitter] pass. *)
Record Options : Type := mkOptions {
  o_size : option Q;
  o_count : option nat;
  o_oneShot : option bool;
  o_emissionRate : option nat
}.

Definition noOptions : Options := mkOptions None None None None.

(** One particle: the entries of the attribute arrays [position],
    [velocity], [color], [size], [lifetime] (its age in frames) and
    [opacity] at one index. *)
Record Particle : Type := mkParticle {
  p_position : Vec3;
  p_velocity : Vec3;
  p_color : Vec3;
  p_size : Q;
  p_lifetime : Z;
  p_opacity : Q
}.

(** An emitter; [system] names its [THREE.Points] object and stands
    for the identity of the emitter. *)
Record Emitter : Type := mkEmitter {
  system : nat;
  system_position : Vec3;
  particles : list Particle;
  settings : Settings;
  active : bool;
  oneShot : bool;
  emissionRate : nat;
  emissionCounter : nat
}.

(** [scene] lists the objects currently attached to the scene. *)
Record t : Type := mk {
  particleSystems : list Emitter;
  scene : list nat;
  draws : nat;
  nextSystem : nat
}.

Definition empty : t := mk [] [] 0 0.

Definition scene_remove (obj : nat) (sc : list nat) : list nat :=
  filter (fun o => negb (o =? obj)%nat) sc.

Definition set_active (b : bool) (e : Emitter) : Emitter :=
  mkEmitter (system e) (system_position e) (particles e) (settings e) b
    (oneShot e) (emissionRate e) (emissionCounter e).

Definition isDead (st : Settings) (p : Particle) : bool :=
  negb (p_lifetime p <? lifetime st)%Z.

(** The scan [for (j ...) if (lifetimes[j] < lifetime) allDead = false]. *)
Definition allDead (e : Emitter) : bool :=
  forallb (isDead (settings e)) (particles e).

Fixpoint indexOf (id : nat) (l : list Emitter) : option nat :=
  match l with
  | [] => None
  | e :: t =>
      if (system e =? id)%nat then Some O
      else match indexOf id t with
           | Some i => Some (S i)
           | None => None
           end
  end.

Section Engine.

Variable random : nat -> Q.
Variable normalize : Vec3 -> Vec3.
(** The channels of [new THREE.Color(hex)]. *)
Variable colorOf : Z -> Vec3.

Definition mergeSettings (type : ParticleType) (o : Options) : Settings :=
  let s := particleTypes type in
  mkSettings (color s)
  (match o_size o with Some x => x | None => size s end)
  (match o_count o with Some n => n | None => count s end)
  (lifetime s) (speed s) (spread s) (gravity s) (opacity s) (fadeRate s).

(** One turn of the creation loop: eight draws. *)
Definition newParticle (st : Settings) (dir : Vec3) (d : nat) : Particle :=
  let v0 := normalize dir in
  let v1 := mkVec3 (vx v0 + (random d - (1 # 2)) * spread st)
                 (vy v0 + (random (d + 1) - (1 # 2)) * spread st)
                 (vz v0 + (random (d + 2) - (1 # 2)) * spread st) in
  let v2 := vscale (normalize v1) (speed st * ((1 # 2) + random (d + 3))) in
  let c := colorOf (color st) in
  let c1 := mkVec3 (vx c + (random (d + 4) - (1 # 2)) * (1 # 10))
                 (vy c + (random (d + 5) - (1 # 2)) * (1 # 10))
                 (vz c + (random (d + 6) - (1 # 2)) * (1 # 10)) in
  mkParticle vzero v2 c1 (size st * ((7 # 10) + random (d + 7) * (6 # 10)))
           0 (opacity st).

Fixpoint newParticles (st : Settings) (dir : Vec3) (n d : nat)
  : list Particle :=
  match n with
  | O => []
  | S n' => newParticle st dir d :: newParticles st dir n' (d + 8)
  end.

(** [createEmitter(type, position, direction, options)]; returns the
  handle of the new emitter. *)
Definition createEmitter (type : ParticleType) (position dir : Vec3)
  (o : Options) (s : t) : nat * t :=
  let st := mergeSettings type o in
  let id := nextSystem s in
  let e := mkEmitter id position (newParticles st dir (count st) (draws s))
           st true
           (match o_oneShot o with Some b => b | None => false end)
           (match o_emissionRate o with
            | Some O | None => 1%nat
            | Some r => r
            end)
           0 in
  (id, mk (particleSystems s ++ [e]) (scene s ++ [id])
        (draws s + 8 * count st) (S id)).

Definition createExplosion (position : Vec3) (sz : Q) (cnt : nat) (s : t)
  : nat * t :=
  createEmitter Explosion position (mkVec3 0 1 0)
  (mkOptions (Some ((3 # 10) * sz)) (Some cnt) (Some true) None) s.

(** The body of the particle loop of [updateParticles] for one index;
  [counter] is the emission counter after its increment. *)
Definition updateParticle (st : Settings) (one : bool) (counter : nat)
  (p : Particle) (d : nat) : Particle * nat :=
  if (p_lifetime p <? lifetime st)%Z || (negb one && (counter =? 0)%nat)
  then
  let respawn := negb one && negb (p_lifetime p <? lifetime st)%Z in
  let p1 :=
    if respawn then
      mkParticle vzero
        (mkVec3 (vx (p_velocity p) + (random d - (1 # 2)) * (2 # 100))
                (vy (p_velocity p) + (random (d + 1) - (1 # 2)) * (2 # 100))
                (vz (p_velocity p) + (random (d + 2) - (1 # 2)) * (2 # 100)))
        (p_color p) (p_size p) 0 (opacity st)
    else p in
  let d1 := if respawn then (d + 3)%nat else d in
  let pos := vadd (p_position p1) (p_velocity p1) in
  let vel := mkVec3 (vx (p_velocity p1))
                    (vy (p_velocity p1) - gravity st)
                    (vz (p_velocity p1)) in
  let age := (p_lifetime p1 + 1)%Z in
  let op :=
    if Qltb (inject_Z (lifetime st) * (7 # 10)) (inject_Z age) then
      let o := p_opacity p1 - fadeRate st in
      if Qltb o 0 then 0 else o
    else p_opacity p1 in
  (mkParticle pos vel (p_color p1) (p_size p1) age op, d1)
  else (p, d).

Fixpoint updateParticleList (st : Settings) (one : bool) (counter : nat)
  (l : list Particle) (d : nat) : list Particle * nat :=
  match l with
  | [] => ([], d)
  | p :: rest =>
    let (p', d1) := updateParticle st one counter p d in
    let (rest', d2) := updateParticleList st one counter rest d1 in
    (p' :: rest', d2)
  end.

(** [updateParticles(ps)]. *)
Definition updateParticles (e : Emitter) (d : nat) : Emitter * nat :=
  let counter := ((emissionCounter e + 1) mod emissionRate e)%nat in
  let (l, d') :=
  updateParticleList (settings e) (oneShot e) counter (particles e) d in
  (mkEmitter (system e) (system_position e) l (settings e) (active e)
           (oneShot e) (emissionRate e) counter, d').

(** The body of the loop of [update] at index [i]. *)
Definition updateAt (i : nat) (s : t) : t :=
  match nth_error (particleSystems s) i with
  | None => s
  | Some ps =>
    if active ps then
      let (ps', d) := updateParticles ps (draws s) in
      let s1 := mk (store i ps' (particleSystems s)) (scene s) d
                   (nextSystem s) in
      if oneShot ps' && allDead ps' then
        mk (splice1 i (particleSystems s1))
           (scene_remove (system ps') (scene s1)) (draws s1)
           (nextSystem s1)
      else s1
    else s
  end.

(** [for (let i = n - 1; i >= 0; i--)]. *)
Fixpoint update_from (n : nat) (s : t) : t :=
  match n with
  | O => s
  | S i => update_from i (updateAt i s)
  end.

Definition update (s : t) : t :=
  update_from (length (particleSystems s)) s.

Definition updateEmitterPosition (emitter : option nat) (position : Vec3)
  (s : t) : t :=
  match emitter with
  | None => s
  | Some id =>
    mk (map (fun e =>
               if (system e =? id)%nat then
                 mkEmitter (system e) position (particles e) (settings e)
                   (active e) (oneShot e) (emissionRate e)
                   (emissionCounter e)
               else e) (particleSystems s))
       (scene s) (draws s) (nextSystem s)
  end.

Definition setEmitterActive (b : bool) (emitter : option nat) (s : t) : t :=
  match emitter with
  | None => s
  | Some id =>
    mk (map (fun e => if (system e =? id)%nat then set_active b e else e)
            (particleSystems s))
       (scene s) (draws s) (nextSystem s)
  end.

Definition stopEmitter : option nat -> t -> t := setEmitterActive false.
Definition startEmitter : option nat -> t -> t := setEmitterActive true.

Definition removeEmitter (emitter : option nat) (s : t) : t :=
  match emitter with
  | None => s
  | Some id =>
    match indexOf id (particleSystems s) with
    | Some index =>
        mk (splice1 index (particleSystems s)) (scene_remove id (scene s))
           (draws s) (nextSystem s)
    | None => s
    end
  end.

Definition clear (s : t) : t :=
  mk [] (fold_left (fun sc e => scene_remove (system e) sc)
                 (particleSystems s) (scene s))
   (draws s) (nextSystem s).

End Engine.

End ParticleSystem.

(** ** Player movement (updateUFO), over the reals *)

Module UfoPhysics.

Local Open Scope R_scope.

Record Vector3 : Type := mkVector3 { x : R; y : R; z : R }.

Definition add (a b : Vector3) : Vector3 :=
  mkVector3 (x a + x b) (y a + y b) (z a + z b).

Definition multiplyScalar (a : Vector3) (s : R) : Vector3 :=
  mkVector3 (x a * s) (y a * s) (z a * s).

Definition length (a : Vector3) : R :=
  sqrt (x a * x a + y a * y a + z a * z a).

(** [divideScalar(length() || 1)]. *)
Definition normalize (a : Vector3) : Vector3 :=
  let l := length a in
  multiplyScalar a (1 / (if Req_dec_T l 0 then 1 else l)).

(** [Math.sign]. *)
Definition sign (r : R) : R :=
  if Rlt_dec 0 r then 1 else if Rlt_dec r 0 then -1 else 0.

Definition MAX_SPEED : R := 5 / 10.
Definition ACCELERATION : R := 1 / 100.
Definition DECELERATION : R := 98 / 100.
Definition HOVER_SPEED : R := 5 / 1000.
Definition HOVER_HEIGHT : R := 1 / 10.
Definition GAME_BOUNDS : R := 200.

Record State : Type := mkState {
  velocity : Vector3;
  position : Vector3;
  hoverOffset : R;
  hoverDirection : R
}.

(** The acceleration assembled from the six movement keys. *)
Definition accelerationOf (k : Keys) : Vector3 :=
  let az := 0 in
  let az := if ArrowUp k then az - ACCELERATION else az in
  let az := if ArrowDown k then az + ACCELERATION else az in
  let ax := 0 in
  let ax := if ArrowLeft k then ax - ACCELERATION else ax in
  let ax := if ArrowRight k then ax + ACCELERATION else ax in
  let ay := 0 in
  let ay := if Space k then ay + ACCELERATION else ay in
  let ay := if Shift k then ay - ACCELERATION else ay in
  mkVector3 ax ay az.

Definition limitSpeed (v : Vector3) : Vector3 :=
  if Rlt_dec MAX_SPEED (length v)
  then multiplyScalar (normalize v) MAX_SPEED
  else v.

(** [updateUFO()] up to and including the hover offset.  What follows
    in the source (banking and yaw, light, tractor beam, exhaust, engine
    sound) writes neither [velocity] nor [position]. *)
Definition updateUFO (k : Keys) (s : State) : State :=
  let v := add (velocity s) (accelerationOf k) in
  let v := multiplyScalar v DECELERATION in
  let v := limitSpeed v in
  let p := add (position s) v in
  let floor := Rlt_dec (y p) 5 in
  let p := if floor then mkVector3 (x p) 5 (z p) else p in
  let v := if floor then mkVector3 (x v) 0 (z v) else v in
  let outX := Rlt_dec GAME_BOUNDS (Rabs (x p)) in
  let p' := if outX then mkVector3 (sign (x p) * GAME_BOUNDS) (y p) (z p)
            else p in
  let v := if outX then mkVector3 (x v * - (5 / 10)) (y v) (z v) else v in
  let p := p' in
  let outZ := Rlt_dec GAME_BOUNDS (Rabs (z p)) in
  let p' := if outZ then mkVector3 (x p) (y p) (sign (z p) * GAME_BOUNDS)
            else p in
  let v := if outZ then mkVector3 (x v) (y v) (z v * - (5 / 10)) else v in
  let p := p' in
  let ho := hoverOffset s + HOVER_SPEED * hoverDirection s in
  let hd := if Rlt_dec HOVER_HEIGHT (Rabs ho)
            then hoverDirection s * -1 else hoverDirection s in
  let p := mkVector3 (x p) (y p + HOVER_SPEED * hd) (z p) in
  mkState v p ho hd.

End UfoPhysics.

(** ** Runs of consecutive frames *)

Definition holdBeam (k : Keys) : Keys :=
  mkKeys (ArrowUp k) (ArrowDown k) (ArrowLeft k) (ArrowRight k) (Space k)
    (Shift k) true (KeyM k).

Section Frames.

Variable random : nat -> Q.
Variable Math_sin : Q -> Q.
(** [ufoAt i] is where the craft is when frame [i] (from 0) runs the
    entity updates. *)
Variable ufoAt : nat -> Vec3.

(** What one frame of [animate] does to the cows while the beam key is
    held: the beam pass at the end of [updateUFO], then [updateCows]. *)
Definition beamFrame (ufo : Vec3) (w : World) : World :=
  updateCows random Math_sin
    (updateTractorBeam random
       (set_keys (holdBeam (keys w)) (set_ufo_position ufo w))).

(** [k] consecutive frames with the beam key held. *)
Fixpoint beamFrames (k : nat) (w : World) : World :=
  match k with
  | O => w
  | S k' => beamFrame (ufoAt k') (beamFrames k' w)
  end.

(** [k] frames of the projectile pass. *)
Fixpoint missileFrames (k : nat) (w : World) : World :=
  match k with
  | O => w
  | S k' =>
      updateMissiles (set_ufo_position (ufoAt k') (missileFrames k' w))
  end.

End Frames.

(** What can happen to the state of main.js while the page is open.  The
    player's input and the movement of the craft enter through
    [ActTractorBeam], which runs the beam pass of [updateUFO] with the
    given keys held and the craft at the given place. *)
Inductive Action : Type :=
| ActTractorBeam (k : Keys) (ufo : Vec3)
| ActCows
| ActJets (now : Z)
| ActMissiles
| ActCollisions
| ActStart (now : Z)
| ActRestart (now : Z).

Definition isRestart (a : Action) : bool :=
  match a with
  | ActStart _ | ActRestart _ => true
  | _ => false
  end.

Section Actions.

Variable random : nat -> Q.
Variable normalize : Vec3 -> Vec3.
Variable Math_sin : Q -> Q.
Variable Math_cos : Q -> Q.
Variable Math_atan2 : Q -> Q -> Q.
Variable Math_PI : Q.

Definition perform (w : World) (a : Action) : World :=
  match a with
  | ActTractorBeam k ufo =>
      updateTractorBeam random (set_keys k (set_ufo_position ufo w))
  | ActCows => updateCows random Math_sin w
  | ActJets now =>
      updateJets random normalize Math_sin Math_cos Math_atan2 Math_PI now w
  | ActMissiles => updateMissiles w
  | ActCollisions => checkCollisions w
  | ActStart now => pressStart random Math_sin Math_cos Math_PI now w
  | ActRestart now => pressRestart random Math_sin Math_cos Math_PI now w
  end.

Definition performAll (acts : list Action) (w : World) : World :=
  fold_left perform acts w.

End Actions.

(** One frame whose collision pass finds the craft overlapped by [jet]. *)
Definition collisionFrame (jet : Jet) (w : World) : World :=
  checkCollisions (set_jets (jets w ++ [jet]) w).

(** ** Observations and example inputs *)

Definition playerHealth (w : World) : Z :=
  GameStateManager.health (gameStateManager w).

Definition endGameCalls (w : World) : nat :=
  GameStateManager.endGameCalls (gameStateManager w).

(** A game just started from the start screen: state PLAYING, health 3,
    the craft at its start position, no attacker yet. *)
Definition gameStart : World :=
  set_gameStateManager (GameStateManager.startGame GameStateManager.init)
    (set_ufo_position (mkVec3 0 20 0) world0).

(** A jet as [createJetModel] makes it, placed at [p]. *)
Definition jetAt (id : nat) (p : Vec3) : Jet :=
  mkJet id p 0 0 (25 # 10) JET_SPEED 0 4000 vzero
    (Some (mkAudio (id + 1) true)) (Some (id + 2)%nat).

(** A missile as [createMissileModel] makes it, placed at [p] and flying
    along [dir]. *)
Definition missileAt (id : nat) (p dir : Vec3) : Missile :=
  mkMissile id p (5 # 10) dir MISSILE_SPEED 0 (Some (id + 1)%nat).

(** The craft at its start position; two places within reach of a jet
    (collision distance 4.5), two within reach of a missile (2.5), and
    one out of reach. *)
Definition onCraft : Vec3 := mkVec3 0 20 0.
Definition starboard : Vec3 := mkVec3 4 20 0.
Definition portSide : Vec3 := mkVec3 (-4) 20 0.
Definition above : Vec3 := mkVec3 0 22 0.
Definition below : Vec3 := mkVec3 0 18 0.
Definition farAway : Vec3 := mkVec3 100 20 0.

(** A frame of a fresh game in which two jets and two missiles overlap
    the craft. *)
Definition crowdedFrame : World :=
  set_missiles [missileAt 40 above (mkVec3 0 (-1) 0);
                missileAt 50 farAway (mkVec3 (-1) 0 0);
                missileAt 60 below (mkVec3 0 1 0)]
    (set_jets [jetAt 10 starboard; jetAt 20 farAway; jetAt 30 portSide]
       gameStart).

(** What a collision pass leaves unchanged: health minus the number of
    attackers and projectiles still registered. *)
Definition hitBalance (w : World) : Z :=
  (playerHealth w - Z.of_nat (length (jets w))
   - Z.of_nat (length (missiles w)))%Z.

(** A missile fired from ten units in front of the craft and flying away
    from it, alone in the registry. *)
Definition awayMissile : Missile :=
  missileAt 10 (mkVec3 0 20 10) (mkVec3 0 0 1).

Definition awayWorld : World := set_missiles [awayMissile] gameStart.

(** What the beam does to one cow that stays in the registry. *)
Definition beamStep (u : Vec3) (cow : Cow) : Cow :=
  if isBeingAbducted cow then pullCow u cow
  else if inBeam u cow then startAbduction cow else cow.

(** The scenario of the specification: a cow at (0, 1, 0) under the
    craft at (0, 5, 0). *)
Definition grazingCow : Cow :=
  mkCow 7 (mkVec3 0 1 0) 0 (15 # 10) false 0 0 (1 # 100).

Definition hovering : Vec3 := mkVec3 0 5 0.

Definition pasture : World :=
  set_cows [grazingCow] (set_ufo_position hovering gameStart).

(** *** Handles owned by attackers and projectiles *)

(** The release calls among the collaborator calls: stopping a jet's
    engine sound and releasing an exhaust emitter. *)
Definition isRelease (e : Event) : bool :=
  match e with
  | AudioStop _ | RemoveEmitter _ => true
  | _ => false
  end.

Definition releases (t : list Event) : list Event := filter isRelease t.

(** What identifies a jet and what it owns; movement leaves it alone. *)
Definition JetHandles : Type := (nat * option Audio * option nat)%type.

Definition jetHandles (jet : Jet) : JetHandles :=
  (jet_id jet, engineSound jet, jet_exhaustEmitter jet).

Definition MissileHandles : Type := (nat * option nat)%type.

Definition missileHandles (missile : Missile) : MissileHandles :=
  (missile_id missile, missile_exhaustEmitter missile).

(** One stop for the sound a jet owns, one release for its emitter. *)
Definition jetOwes (h : JetHandles) : list Event :=
  match h with
  | (_, sound, emitter) =>
      match sound with Some a => [AudioStop (audio_id a)] | None => [] end
      ++ match emitter with Some e => [RemoveEmitter e] | None => [] end
  end.

Definition missileOwes (h : MissileHandles) : list Event :=
  match snd h with Some e => [RemoveEmitter e] | None => [] end.

(** The engine sound of a jet, if it has one, is playing: it is started
    by [createJetModel] and only stopped on removal. *)
Definition soundIsPlaying (jet : Jet) : bool :=
  match engineSound jet with
  | Some a => isPlaying a
  | None => true
  end.

(** The accounts kept along a traversal: the handles registered at the
    start are those still registered plus those removed, and the release
    calls issued are exactly those owed by the removed. *)
Definition jetAccount (w0 v : World) (rj : list JetHandles) : Prop :=
  Permutation (map jetHandles (jets w0)) (map jetHandles (jets v) ++ rj)
  /\ releases (trace v) = releases (trace w0) ++ flat_map jetOwes rj
  /\ Forall (fun j => soundIsPlaying j = true) (jets v).

Definition missileAccount (w0 v : World) (rm : list MissileHandles) : Prop :=
  Permutation (map missileHandles (missiles w0))
              (map missileHandles (missiles v) ++ rm)
  /\ releases (trace v) = releases (trace w0) ++ flat_map missileOwes rm.

(** *** Observations on the particle engine *)

(** No particle of the emitter is older than the lifetime of its
    profile. *)
Definition agesBounded (e : ParticleSystem.Emitter) : Prop :=
  Forall (fun p => (ParticleSystem.p_lifetime p
                    <= ParticleSystem.lifetime (ParticleSystem.settings e))%Z)
         (ParticleSystem.particles e).

Definition oneShotAgesBounded (s : ParticleSystem.t) : Prop :=
  forall e, In e (ParticleSystem.particleSystems s) ->
            ParticleSystem.oneShot e = true -> agesBounded e.

(** The identities of the emitters in the list. *)
Definition systems (s : ParticleSystem.t) : list nat :=
  map ParticleSystem.system (ParticleSystem.particleSystems s).

(** A one-shot sparkle emitter with one particle of age [age]. *)
Definition sparkleEmitter (isActive : bool) (age : Z) : ParticleSystem.Emitter :=
  ParticleSystem.mkEmitter 5 vzero
    [ParticleSystem.mkParticle vzero (mkVec3 0 (3 # 100) 0) vzero (15 # 100)
       age (9 # 10)]
    (ParticleSystem.particleTypes Sparkle) isActive true 1 0.

Definition oneSparkle (isActive : bool) (age : Z) : ParticleSystem.t :=
  ParticleSystem.mk [sparkleEmitter isActive age] [5%nat] 0 6.

(** *** Squared speed of the craft *)

Definition lengthSqR (a : UfoPhysics.Vector3) : R :=
  (UfoPhysics.x a * UfoPhysics.x a + UfoPhysics.y a * UfoPhysics.y a
   + UfoPhysics.z a * UfoPhysics.z a)%R.

(** A missile of age 500 next to the craft: its next move is its last. *)
Definition agedMissile (id : nat) : Missile :=
  mkMissile id (mkVec3 0 20 10) (5 # 10) (mkVec3 0 0 1) MISSILE_SPEED 500
    (Some (id + 1)%nat).

(** The calls of the engine's interface, and the states they lead to from
    a new engine. *)
Inductive EngineCall : Type :=
| CallCreate (type : ParticleType) (position dir : Vec3)
    (o : ParticleSystem.Options)
| CallUpdate
| CallStop (emitter : option nat)
| CallStart (emitter : option nat)
| CallMove (emitter : option nat) (position : Vec3)
| CallRemove (emitter : option nat)
| CallClear.

Section EngineRuns.

Variable random : nat -> Q.
Variable normalize : Vec3 -> Vec3.
Variable colorOf : Z -> Vec3.

Definition engineCall (s : ParticleSystem.t) (c : EngineCall)
    : ParticleSystem.t :=
  match c with
  | CallCreate type position dir o =>
      snd (ParticleSystem.createEmitter random normalize colorOf type
             position dir o s)
  | CallUpdate => ParticleSystem.update random s
  | CallStop h => ParticleSystem.stopEmitter h s
  | CallStart h => ParticleSystem.startEmitter h s
  | CallMove h position => ParticleSystem.updateEmitterPosition h position s
  | CallRemove h => ParticleSystem.removeEmitter h s
  | CallClear => ParticleSystem.clear s
  end.

Definition engineRun (calls : list EngineCall) : ParticleSystem.t :=
  fold_left engineCall calls ParticleSystem.empty.

End EngineRuns.

(** One tick from the death of its only particle: an active one-shot
    sparkle emitter created through the interface and updated 19 times. *)
Definition fadingSparkle : list EngineCall :=
  CallCreate Sparkle vzero (mkVec3 0 1 0)
    (ParticleSystem.mkOptions None (Some 1%nat) (Some true) None)
  :: repeat CallUpdate 19.

(** A sparkle burst with no particle, created one-shot through the
    interface and stopped before the first update. *)
Definition emptyBurst : ParticleSystem.t :=
  engineRun (fun _ => 1 # 2) (fun v => v) (fun _ => vzero)
    [CallCreate Sparkle vzero (mkVec3 0 1 0)
       (ParticleSystem.mkOptions None (Some 0%nat) (Some true) None);
     CallStop (Some 0%nat)].

(** A one-shot sparkle emitter created through the interface and updated
    five times, and what [stopEmitter] makes of it. *)
Definition youngSparkle : ParticleSystem.t :=
  engineRun (fun _ => 1 # 2) (fun v => v) (fun _ => vzero)
    (CallCreate Sparkle vzero (mkVec3 0 1 0)
       (ParticleSystem.mkOptions None (Some 1%nat) (Some true) None)
     :: repeat CallUpdate 5).

Definition stoppedSparkle : ParticleSystem.Emitter :=
  hd (sparkleEmitter false 0)
     (ParticleSystem.particleSystems
        (ParticleSystem.stopEmitter (Some 0%nat) youngSparkle)).

(** *** The herd, the score and what is within reach *)

Definition playerScore (w : World) : Z :=
  GameStateManager.score (gameStateManager w).

(** [c'] is a later state of the cow [c]: the same animal, and if [c]
    was being abducted, so is [c'], with no less progress. *)
Definition cowFollows (c c' : Cow) : Prop :=
  cow_id c' = cow_id c
  /\ (isBeingAbducted c = true ->
      isBeingAbducted c' = true
      /\ abductionProgress c <= abductionProgress c').

(** Every cow of [l'] is a later state of a cow of [l]. *)
Definition herdFollows (l l' : list Cow) : Prop :=
  Forall (fun c' => exists c, In c l /\ cowFollows c c') l'.

(** The score and, at 100 points each, the cows still registered. *)
Definition herdBalance (w : World) : Z :=
  (playerScore w + 100 * Z.of_nat (length (cows w)))%Z.

(** What every pass of a frame keeps: the score and the number of cows
    still on the ground add up to the same total, the herd does not
    grow, and no abduction is undone. *)
Definition herdStep (w w' : World) : Prop :=
  herdBalance w' = herdBalance w
  /\ (length (cows w') <= length (cows w))%nat
  /\ herdFollows (cows w) (cows w').

(** The overlap tests of [checkCollisions]. *)
Definition jetOverlaps (w : World) (jet : Jet) : bool :=
  len_lt (distanceToSq (jet_position jet) (ufo_position w))
         (ufo_radius w + jet_radius jet).

Definition missileOverlaps (w : World) (missile : Missile) : bool :=
  len_lt (distanceToSq (missile_position missile) (ufo_position w))
         (ufo_radius w + missile_radius missile).

(** The passes of a frame, as opposed to the start and restart buttons. *)
Definition isFrameAction (a : Action) : bool := negb (isRestart a).

(** At creation a cow stands on the ground, untouched by the beam. *)
Definition freshCow (c : Cow) : Prop :=
  isBeingAbducted c = false /\ abductionProgress c = 0
  /\ cow_radius c = 15 # 10.

(** What the release blocks leave alone: everything but the record of
    collaborator calls. *)
Definition sameButTrace (w v : World) : Prop :=
  v = mkWorld (gameActive w) (ufo_position w) (ufo_radius w) (velocity w)
        (keys w) (tractorBeam_visible w) (cows w) (jets w) (missiles w)
        (lastJetSpawn w) (currentSpawnInterval w) (gameStateManager w)
        (miniMap w) (draws w) (nextId w) (trace v).

(** *** Runs of the movement update *)

(** [n] frames of [updateUFO]; [keysAt i] are the keys held in frame [i]
    (from 0). *)
Fixpoint ufoFrames (keysAt : nat -> Keys) (n : nat) (s : UfoPhysics.State)
    : UfoPhysics.State :=
  match n with
  | O => s
  | S n' => UfoPhysics.updateUFO (keysAt n') (ufoFrames keysAt n' s)
  end.

(** None of the six movement keys is held. *)
Definition noMovementKey (k : Keys) : bool :=
  negb (ArrowUp k || ArrowDown k || ArrowLeft k || ArrowRight k
        || Space k || Shift k).

(** The hover state between two frames: the direction is 1 or -1, the
    offset is within one step of the band, and outside the band the
    direction points back into it. *)
Definition hoverInvariant (s : UfoPhysics.State) : Prop :=
  ((UfoPhysics.hoverDirection s = 1 \/ UfoPhysics.hoverDirection s = -1)
   /\ Rabs (UfoPhysics.hoverOffset s)
      <= UfoPhysics.HOVER_HEIGHT + UfoPhysics.HOVER_SPEED
   /\ (UfoPhysics.HOVER_HEIGHT < UfoPhysics.hoverOffset s ->
       UfoPhysics.hoverDirection s = -1)
   /\ (UfoPhysics.hoverOffset s < - UfoPhysics.HOVER_HEIGHT ->
       UfoPhysics.hoverDirection s = 1))%R.

(** The craft as [startGame] places it, at rest, with the hover values
    of the script. *)
Definition craftAtStart : UfoPhysics.State :=
  UfoPhysics.mkState (UfoPhysics.mkVector3 0 0 0)
    (UfoPhysics.mkVector3 0 20 0) 0 1.

(** The craft drifting along x at 0.3 units per frame. *)
Definition craftDrifting : UfoPhysics.State :=
  UfoPhysics.mkState (UfoPhysics.mkVector3 (3 / 10) 0 0)
    (UfoPhysics.mkVector3 0 20 0) 0 1.

(** *** One pass of the particle engine, and what its states keep *)

Section EngineSweep.

Variable random : nat -> Q.

(** One pass over the emitters from the last to the first, each met
    exactly once: an inactive emitter is kept as it is, an active one is
    advanced by [updateParticles] and then kept, or dropped and taken
    off the scene if it is one-shot and all its particles are dead.  The
    scene and the count of random draws are handed from each emitter to
    the one before it. *)
Fixpoint sweep (l : list ParticleSystem.Emitter) (sc : list nat) (d : nat)
    : list ParticleSystem.Emitter * list nat * nat :=
  match l with
  | [] => ([], sc, d)
  | e :: rest =>
      let '(rest', sc1, d1) := sweep rest sc d in
      if ParticleSystem.active e then
        let (e', d2) := ParticleSystem.updateParticles random e d1 in
        if ParticleSystem.oneShot e' && ParticleSystem.allDead e'
        then (rest', ParticleSystem.scene_remove (ParticleSystem.system e') sc1,
              d2)
        else (e' :: rest', sc1, d2)
      else (e :: rest', sc1, d1)
  end.

End EngineSweep.

(** The engine owns its scene objects: the scene holds exactly the
    points objects of the listed emitters, in list order, each emitter
    has an identity of its own, and the identities handed out so far
    are below [nextSystem]. *)
Definition engineOwnsScene (s : ParticleSystem.t) : Prop :=
  ParticleSystem.scene s = systems s
  /\ NoDup (systems s)
  /\ Forall (fun id => (id < ParticleSystem.nextSystem s)%nat) (systems s).

(** The emission counter is a remainder modulo a positive rate. *)
Definition counterInRange (e : ParticleSystem.Emitter) : Prop :=
  (0 < ParticleSystem.emissionRate e)%nat
  /\ (ParticleSystem.emissionCounter e < ParticleSystem.emissionRate e)%nat.

(** The attribute buffers have the length fixed at creation and every
    opacity lies between 0 and the opacity of the profile. *)
Definition buffersInRange (e : ParticleSystem.Emitter) : Prop :=
  length (ParticleSystem.particles e)
  = ParticleSystem.count (ParticleSystem.settings e)
  /\ 0 <= ParticleSystem.fadeRate (ParticleSystem.settings e)
  /\ 0 <= ParticleSystem.opacity (ParticleSystem.settings e)
  /\ Forall (fun p => 0 <= ParticleSystem.p_opacity p
                      /\ ParticleSystem.p_opacity p
                         <= ParticleSystem.opacity (ParticleSystem.settings e))
            (ParticleSystem.particles e).

(** An active one-shot emitter with profile [st] all of whose particles,
    at least one, have age [k]. *)
Definition burning (st : ParticleSystem.Settings) (k : Z)
    (e : ParticleSystem.Emitter) : Prop :=
  ParticleSystem.active e = true /\ ParticleSystem.oneShot e = true
  /\ ParticleSystem.settings e = st /\ ParticleSystem.particles e <> []
  /\ Forall (fun p => ParticleSystem.p_lifetime p = k)
            (ParticleSystem.particles e).

(** The emitter of identity [id] is listed, and burning at age [k]. *)
Definition tracked (id : nat) (st : ParticleSystem.Settings) (k : Z)
    (s : ParticleSystem.t) : Prop :=
  In id (systems s)
  /\ forall e, In e (ParticleSystem.particleSystems s) ->
               ParticleSystem.system e = id -> burning st k e.

(** * Properties *)

(** ** Arrays *)

Lemma Qltb_lt (a b : Q) : Qltb a b = true <-> a < b.
Proof.
  unfold Qltb. rewrite negb_true_iff. split.
  - intros H. apply Qnot_le_lt. intros Hle.
    apply Qle_bool_iff in Hle. congruence.
  - intros H. destruct (Qle_bool b a) eqn:E; [|reflexivity].
    apply Qle_bool_iff in E. exfalso. apply (Qlt_not_le _ _ H E).
Qed.

Lemma Qltb_ge (a b : Q) : Qltb a b = false <-> b <= a.
Proof.
  unfold Qltb. rewrite negb_false_iff. apply Qle_bool_iff.
Qed.

Lemma length_splice1 {A : Type} (k : nat) (l : list A) :
  (k < length l)%nat -> length (splice1 k l) = pred (length l).
Proof.
  revert k. induction l as [|a l IH]; intros [|k] H; simpl in *; try lia.
  rewrite IH by lia. destruct l; simpl in *; lia.
Qed.

Lemma length_store {A : Type} (k : nat) (x : A) (l : list A) :
  length (store k x l) = length l.
Proof.
  revert k. induction l as [|a l IH]; intros [|k]; simpl; auto.
Qed.

Lemma nth_error_store_same {A : Type} (k : nat) (x : A) (l : list A) :
  (k < length l)%nat -> nth_error (store k x l) k = Some x.
Proof.
  revert k. induction l as [|a l IH]; intros [|k] H; simpl in *; try lia; auto.
  apply IH. lia.
Qed.

Lemma nth_error_in_range {A : Type} (l : list A) (k : nat) (a : A) :
  nth_error l k = Some a -> (k < length l)%nat.
Proof.
  intros H. apply nth_error_Some. congruence.
Qed.

(** A property kept by every call of the callback is kept by the loop. *)
Lemma forEach_from_inv {W A : Type} (arr : W -> list A)
    (callback : A -> nat -> W -> W) (P : W -> Prop) :
  (forall a k w, nth_error (arr w) k = Some a -> P w -> P (callback a k w)) ->
  forall steps k w, P w -> P (forEach_from arr callback steps k w).
Proof.
  intros Hcb steps. induction steps as [|n IH]; intros k w Hw; simpl; auto.
  apply IH. unfold visit. destruct (nth_error (arr w) k) eqn:E; eauto.
Qed.

Lemma forEach_inv {W A : Type} (arr : W -> list A)
    (callback : A -> nat -> W -> W) (P : W -> Prop) :
  (forall a k w, nth_error (arr w) k = Some a -> P w -> P (callback a k w)) ->
  forall w, P w -> P (forEach arr callback w).
Proof.
  intros Hcb w Hw. unfold forEach. now apply forEach_from_inv.
Qed.

Lemma nth_error_store_other {A : Type} (k i : nat) (x : A) (l : list A) :
  i <> k -> nth_error (store k x l) i = nth_error l i.
Proof.
  revert k i. induction l as [|a l IH]; intros [|k] [|i] H; simpl; auto;
    try congruence.
Qed.

(** The loop keeps a property that may depend on the index reached. *)
Lemma forEach_from_inv_at {W A : Type} (arr : W -> list A)
    (callback : A -> nat -> W -> W) (P : nat -> W -> Prop) :
  (forall a k w, nth_error (arr w) k = Some a -> P k w ->
                 P (S k) (callback a k w)) ->
  (forall k w, nth_error (arr w) k = None -> P k w -> P (S k) w) ->
  forall steps k w, P k w ->
                    P (k + steps)%nat (forEach_from arr callback steps k w).
Proof.
  intros Hcb Hskip steps.
  induction steps as [|n IH]; intros k w Hw; simpl.
  - now rewrite Nat.add_0_r.
  - rewrite <- Nat.add_succ_comm. apply IH. unfold visit.
    destruct (nth_error (arr w) k) eqn:E; eauto.
Qed.

Lemma store_same {A : Type} (k : nat) (a : A) (l : list A) :
  nth_error l k = Some a -> store k a l = l.
Proof.
  revert k. induction l as [|b l IH]; intros [|k] H; simpl in *;
    try congruence.
  f_equal. now apply IH.
Qed.

Lemma Permutation_splice1 {A : Type} (k : nat) (l : list A) (a : A) :
  nth_error l k = Some a -> Permutation l (splice1 k l ++ [a]).
Proof.
  revert k. induction l as [|b l IH]; intros [|k] H; simpl in *;
    try discriminate.
  - injection H as ->. apply Permutation_cons_append.
  - constructor. now apply IH.
Qed.

Lemma map_store_same {A B : Type} (h : A -> B) (k : nat) (a a' : A)
    (l : list A) :
  nth_error l k = Some a -> h a' = h a -> map h (store k a' l) = map h l.
Proof.
  revert k. induction l as [|b l IH]; intros [|k] H E; simpl in *;
    try discriminate.
  - injection H as ->. now rewrite E.
  - f_equal. now apply IH.
Qed.

Lemma Forall_splice1 {A : Type} (P : A -> Prop) (k : nat) (l : list A) :
  Forall P l -> Forall P (splice1 k l).
Proof.
  revert k. induction l as [|b l IH]; intros [|k] H; simpl; auto;
    inversion H; subst; auto.
Qed.

Lemma Forall_store {A : Type} (P : A -> Prop) (k : nat) (a : A) (l : list A) :
  P a -> Forall P l -> Forall P (store k a l).
Proof.
  intros Ha. revert k. induction l as [|b l IH]; intros [|k] H; simpl; auto;
    inversion H; subst; auto.
Qed.

Lemma Forall_nth_error {A : Type} (P : A -> Prop) (k : nat) (a : A)
    (l : list A) :
  Forall P l -> nth_error l k = Some a -> P a.
Proof.
  intros H Hk. rewrite Forall_forall in H. apply H.
  eapply nth_error_In; eauto.
Qed.

Lemma Permutation_account {B : Type} (all left : list B) (x : B)
    (removed : list B) :
  Permutation all (left ++ [x]) ->
  Permutation (all ++ removed) (left ++ removed ++ [x]).
Proof.
  intros H. rewrite H, <- app_assoc. apply Permutation_app_head.
  apply Permutation_app_comm.
Qed.

Lemma In_store {A : Type} (k : nat) (a x : A) (l : list A) :
  In x (store k a l) -> x = a \/ In x l.
Proof.
  revert k. induction l as [|b l IH]; intros [|k] H; simpl in *; auto.
  - destruct H; auto.
  - destruct H as [H|H]; auto. destruct (IH _ H); auto.
Qed.

Lemma In_splice1 {A : Type} (k : nat) (x : A) (l : list A) :
  In x (splice1 k l) -> In x l.
Proof.
  revert k. induction l as [|b l IH]; intros [|k] H; simpl in *; auto.
  destruct H as [H|H]; eauto.
Qed.

Lemma In_splice1_or {A : Type} (i : nat) (a x : A) (l : list A) :
  nth_error l i = Some a -> In x l -> x = a \/ In x (splice1 i l).
Proof.
  revert i. induction l as [|b l IH]; intros [|i] H Hx; simpl in *;
    try discriminate.
  - injection H as ->. destruct Hx; auto.
  - destruct Hx as [->|Hx]; auto. destruct (IH _ H Hx); auto.
Qed.

Lemma In_store_other {A : Type} (i : nat) (a a' x : A) (l : list A) :
  nth_error l i = Some a -> x <> a -> In x l -> In x (store i a' l).
Proof.
  revert i. induction l as [|b l IH]; intros [|i] H Hne Hx; simpl in *;
    try discriminate; auto.
  - injection H as ->. destruct Hx as [->|Hx]; [congruence|auto].
  - destruct Hx as [->|Hx]; eauto.
Qed.

Lemma nth_error_splice1_ge {A : Type} (i j : nat) (l : list A) :
  (i <= j)%nat -> nth_error (splice1 i l) j = nth_error l (S j).
Proof.
  revert i j. induction l as [|b l IH]; intros [|i] [|j] H; simpl;
    try reflexivity; try lia.
  apply IH. lia.
Qed.

(** ** Lengths compared through their squares *)

Lemma lengthSq_nonneg (a : Vec3) : 0 <= lengthSq a.
Proof. unfold lengthSq. Lqa.nra. Qed.

(** [len_lt sq r] decides [sqrt sq < r], the test [length() < r] of the
    source. *)
Lemma len_lt_sqrt (sq r : Q) :
  0 <= sq -> (len_lt sq r = true <-> (sqrt (Q2R sq) < Q2R r)%R).
Proof.
  intros Hsq. apply Qle_Rle in Hsq. rewrite RMicromega.Q2R_0 in Hsq.
  unfold len_lt. rewrite andb_true_iff, !Qltb_lt. split.
  - intros [Hr Hlt]. apply Qlt_Rlt in Hr, Hlt.
    rewrite RMicromega.Q2R_0 in Hr. rewrite Q2R_mult in Hlt.
    rewrite <- (sqrt_square (Q2R r)) by lra.
    apply sqrt_lt_1; lra || nra.
  - intros H. pose proof (sqrt_pos (Q2R sq)) as Hp.
    pose proof (sqrt_sqrt (Q2R sq) Hsq) as Hs.
    split; apply Rlt_Qlt; rewrite ?RMicromega.Q2R_0, ?Q2R_mult; nra.
Qed.

(** [len_gt sq r] decides [sqrt sq > r], the test [length() > r] of the
    source. *)
Lemma len_gt_sqrt (sq r : Q) :
  0 <= sq -> (len_gt sq r = true <-> (Q2R r < sqrt (Q2R sq))%R).
Proof.
  intros Hsq. apply Qle_Rle in Hsq. rewrite RMicromega.Q2R_0 in Hsq.
  pose proof (sqrt_pos (Q2R sq)) as Hp.
  pose proof (sqrt_sqrt (Q2R sq) Hsq) as Hs.
  unfold len_gt. rewrite orb_true_iff, !Qltb_lt. split.
  - intros [Hr | Hlt].
    + apply Qlt_Rlt in Hr. rewrite RMicromega.Q2R_0 in Hr. lra.
    + apply Qlt_Rlt in Hlt. rewrite Q2R_mult in Hlt.
      destruct (Rlt_dec (Q2R r) 0) as [Hn | Hn]; [lra|].
      rewrite <- (sqrt_square (Q2R r)) by lra.
      apply sqrt_lt_1; lra || nra.
  - intros H. destruct (Rlt_dec (Q2R r) 0) as [Hn | Hn].
    + left. apply Rlt_Qlt. now rewrite RMicromega.Q2R_0.
    + right. apply Rlt_Qlt. rewrite Q2R_mult. nra.
Qed.

(** ** Damage and game over *)

Lemma health_endGame (g : GameStateManager.t) :
  GameStateManager.health (GameStateManager.endGame g)
  = GameStateManager.health g.
Proof. reflexivity. Qed.

Lemma health_updateHealth (h : Z) (g : GameStateManager.t) :
  GameStateManager.health (GameStateManager.updateHealth h g) = h.
Proof.
  unfold GameStateManager.updateHealth. simpl.
  destruct (h <=? 0)%Z; reflexivity.
Qed.

Lemma playerHealth_damagePlayer (w : World) :
  playerHealth (damagePlayer w) = (playerHealth w - 1)%Z.
Proof.
  unfold damagePlayer, playerHealth.
  cbn [gameStateManager set_gameStateManager emit].
  rewrite health_updateHealth.
  destruct (GameStateManager.health (gameStateManager w) - 1 <=? 0)%Z;
    cbn [gameStateManager set_gameStateManager emit createExplosion];
    [rewrite health_endGame|]; apply health_updateHealth.
Qed.

Lemma jets_damagePlayer (w : World) : jets (damagePlayer w) = jets w.
Proof.
  unfold damagePlayer. cbv zeta.
  match goal with |- context [if ?c then _ else _] => destruct c end;
    reflexivity.
Qed.

Lemma missiles_damagePlayer (w : World) :
  missiles (damagePlayer w) = missiles w.
Proof.
  unfold damagePlayer. cbv zeta.
  match goal with |- context [if ?c then _ else _] => destruct c end;
    reflexivity.
Qed.

(** The hit that takes the health from 1 to 0 reaches [endGame] twice:
    once inside [updateHealth], once more at the end of [damagePlayer]. *)
Lemma damagePlayer_last_hit (w : World) :
  playerHealth w = 1%Z ->
  GameStateManager.calls (gameStateManager (damagePlayer w))
  = GameStateManager.calls (gameStateManager w)
    ++ [GameStateManager.CallEndGame (GameStateManager.score (gameStateManager w));
        GameStateManager.CallEndGame (GameStateManager.score (gameStateManager w))].
Proof.
  unfold playerHealth, damagePlayer. intros H. simpl.
  unfold GameStateManager.updateHealth. simpl. rewrite H. simpl.
  now rewrite <- app_assoc.
Qed.

(** C1 (code defect).  Health 3 and three collisions with a jet in three
    successive frames: the health reaches 0 and the game is over, but the
    game-end notification [endGame] has been issued twice, and the final
    score is stored twice in the high-score list. *)
Theorem C1_third_collision_ends_game_twice :
  let w3 := collisionFrame (jetAt 30 starboard)
              (collisionFrame (jetAt 20 portSide)
                 (collisionFrame (jetAt 10 starboard) gameStart)) in
  playerHealth gameStart = 3%Z
  /\ playerHealth w3 = 0%Z
  /\ GameStateManager.currentState (gameStateManager w3)
     = GameStateManager.GAME_OVER
  /\ endGameCalls w3 = 2%nat
  /\ GameStateManager.highScores (gameStateManager w3) = [0%Z; 0%Z].
Proof. vm_compute. repeat split; reflexivity. Qed.

(** ** Removal during traversal *)

(** C3 (code defect).  Two jets that both overlap the craft at the start
    of the collision pass: the first is removed by [splice] during the
    [forEach], the second slides into its index and is never visited; it
    is still in the registry after the pass and only one hit is counted.
    The projectile pass skips in the same way: of two missiles that both
    age out in this frame the second is neither moved, aged nor removed. *)
Theorem C3_neighbour_skipped_after_removal :
  let w := set_jets [jetAt 10 starboard; jetAt 20 portSide] gameStart in
  let w' := checkCollisions w in
  let v := set_missiles [agedMissile 40; agedMissile 50] gameStart in
  let v' := updateMissiles v in
  jets w' = [jetAt 20 portSide]
  /\ collideJet (jetAt 20 portSide) 0 w' <> w'
  /\ playerHealth w' = 2%Z
  /\ missiles v' = [agedMissile 50]
  /\ missiles (stepMissile (agedMissile 50) 0 v') = [].
Proof.
  vm_compute. repeat split; try reflexivity. intros H. discriminate H.
Qed.

(** ** Player health *)

(** C4 as stated fails: a frame of a fresh game (health 3) in which two
    jets and two missiles overlap the craft leaves the health at -1. *)
Lemma C4_health_goes_negative :
  playerHealth crowdedFrame = 3%Z
  /\ GameStateManager.isGameActive (gameStateManager crowdedFrame) = true
  /\ playerHealth (checkCollisions crowdedFrame) = (-1)%Z.
Proof. vm_compute. repeat split; reflexivity. Qed.

Lemma releaseJet_state (jet : Jet) (w : World) :
  jets (releaseJet jet w) = jets w
  /\ missiles (releaseJet jet w) = missiles w
  /\ gameStateManager (releaseJet jet w) = gameStateManager w.
Proof.
  unfold releaseJet, removeExhaust, stopEngineSound.
  destruct (jet_exhaustEmitter jet), (engineSound jet) as [[a []]|];
    repeat split; reflexivity.
Qed.

Lemma releaseMissile_state (m : Missile) (w : World) :
  jets (releaseMissile m w) = jets w
  /\ missiles (releaseMissile m w) = missiles w
  /\ gameStateManager (releaseMissile m w) = gameStateManager w.
Proof.
  unfold releaseMissile, removeExhaust.
  destruct (missile_exhaustEmitter m); repeat split; reflexivity.
Qed.

Lemma collideJet_balance (jet : Jet) (k : nat) (w : World) :
  nth_error (jets w) k = Some jet ->
  hitBalance (collideJet jet k w) = hitBalance w
  /\ (length (jets (collideJet jet k w)) <= length (jets w))%nat
  /\ length (missiles (collideJet jet k w)) = length (missiles w).
Proof.
  intros Hk. apply nth_error_in_range in Hk.
  unfold collideJet.
  destruct (len_lt _ _); [|repeat split; auto].
  unfold hitBalance.
  rewrite playerHealth_damagePlayer, jets_damagePlayer, missiles_damagePlayer.
  unfold playerHealth. cbn [jets missiles gameStateManager set_jets].
  destruct (releaseJet_state jet (createExplosion (jet_position jet) 3 w))
    as (Hj & Hm & Hg).
  rewrite Hj, Hm, Hg. cbn [jets missiles gameStateManager emit createExplosion].
  rewrite length_splice1 by assumption.
  repeat split; lia.
Qed.

Lemma collideMissile_balance (m : Missile) (k : nat) (w : World) :
  nth_error (missiles w) k = Some m ->
  hitBalance (collideMissile m k w) = hitBalance w
  /\ length (jets (collideMissile m k w)) = length (jets w)
  /\ (length (missiles (collideMissile m k w)) <= length (missiles w))%nat.
Proof.
  intros Hk. apply nth_error_in_range in Hk.
  unfold collideMissile.
  destruct (len_lt _ _); [|repeat split; auto].
  unfold hitBalance.
  rewrite playerHealth_damagePlayer, jets_damagePlayer, missiles_damagePlayer.
  unfold playerHealth. cbn [jets missiles gameStateManager set_missiles].
  destruct (releaseMissile_state m (createExplosion (missile_position m) 2 w))
    as (Hj & Hm & Hg).
  rewrite Hj, Hm, Hg. cbn [jets missiles gameStateManager emit createExplosion].
  rewrite length_splice1 by assumption.
  repeat split; lia.
Qed.

(** C4 (amended).  Health starts at 3, and one collision pass lowers it by
    exactly the number of attackers and projectiles the pass removes, one
    per hit and with no floor; so it never rises in a pass and stays
    non-negative whenever the hits of the frame do not exceed it. *)
Theorem C4_health_drops_one_per_hit (w : World) :
  let w' := checkCollisions w in
  let hits := (Z.of_nat (length (jets w)) - Z.of_nat (length (jets w'))
               + (Z.of_nat (length (missiles w))
                  - Z.of_nat (length (missiles w'))))%Z in
  GameStateManager.health GameStateManager.init = 3%Z
  /\ (forall g, GameStateManager.health (GameStateManager.startGame g) = 3%Z
                /\ GameStateManager.health (GameStateManager.restartGame g)
                   = 3%Z)
  /\ (0 <= hits)%Z
  /\ playerHealth w' = (playerHealth w - hits)%Z
  /\ (playerHealth w' <= playerHealth w)%Z
  /\ ((hits <= playerHealth w)%Z -> (0 <= playerHealth w')%Z).
Proof.
  intros w' hits.
  assert (H1 : hitBalance (forEach jets collideJet w) = hitBalance w
               /\ (length (jets (forEach jets collideJet w))
                   <= length (jets w))%nat
               /\ length (missiles (forEach jets collideJet w))
                  = length (missiles w)).
  { apply (forEach_inv jets collideJet
             (fun v => hitBalance v = hitBalance w
                       /\ (length (jets v) <= length (jets w))%nat
                       /\ length (missiles v) = length (missiles w))).
    - intros a k v Hk (Hb & Hl & Hm).
      destruct (collideJet_balance a k v Hk) as (Hb' & Hl' & Hm').
      repeat split; [congruence | lia | congruence].
    - repeat split; auto. }
  set (w1 := forEach jets collideJet w) in *.
  assert (H2 : hitBalance w' = hitBalance w1
               /\ length (jets w') = length (jets w1)
               /\ (length (missiles w') <= length (missiles w1))%nat).
  { unfold w', checkCollisions. fold w1.
    apply (forEach_inv missiles collideMissile
             (fun v => hitBalance v = hitBalance w1
                       /\ length (jets v) = length (jets w1)
                       /\ (length (missiles v) <= length (missiles w1))%nat)).
    - intros a k v Hk (Hb & Hl & Hm).
      destruct (collideMissile_balance a k v Hk) as (Hb' & Hl' & Hm').
      repeat split; [congruence | congruence | lia].
    - repeat split; auto. }
  destruct H1 as (B1 & J1 & M1). destruct H2 as (B2 & J2 & M2).
  unfold hitBalance in B1, B2.
  split; [reflexivity|]. split; [intros g; split; reflexivity|].
  subst hits. repeat split; try lia. 
Qed.

(** C4 (amended), at a frame with one hit on health 3. *)
Lemma C4_health_drops_one_per_hit_witness :
  (0 <= playerHealth
          (checkCollisions (set_jets [jetAt 10 starboard] gameStart)))%Z.
Proof.
  apply (C4_health_drops_one_per_hit (set_jets [jetAt 10 starboard] gameStart)).
  vm_compute. discriminate.
Defined.

(** ** Projectile lifetime *)

Lemma lifeTime_iter_moveMissile (n : nat) (m : Missile) :
  lifeTime (Nat.iter n moveMissile m) = (lifeTime m + Z.of_nat n)%Z.
Proof.
  induction n as [|n IH]; [simpl; lia|].
  rewrite Nat.iter_succ. unfold moveMissile at 1. cbn [lifeTime].
  rewrite IH. lia.
Qed.

Lemma iter_moveMissile_fixed (n : nat) (m : Missile) :
  direction (Nat.iter n moveMissile m) = direction m
  /\ missile_speed (Nat.iter n moveMissile m) = missile_speed m
  /\ missile_id (Nat.iter n moveMissile m) = missile_id m.
Proof.
  induction n as [|n (IHd & IHs & IHi)]; [repeat split; reflexivity|].
  rewrite Nat.iter_succ. unfold moveMissile at 1 3 5.
  cbn [direction missile_speed missile_id]. now repeat split.
Qed.

(** One call of the projectile callback at an index behind the head:
    the head stays, and no identity enters the rest of the registry. *)
Lemma stepMissile_behind_head (ids : list nat) (h a : Missile) (k : nat)
    (v : World) :
  (1 <= k)%nat -> nth_error (missiles v) k = Some a ->
  (exists r, missiles v = h :: r /\ incl (map missile_id r) ids) ->
  exists r, missiles (stepMissile a k v) = h :: r
            /\ incl (map missile_id r) ids.
Proof.
  intros Hk Ha (r & Hv & Hincl).
  destruct k as [|k]; [lia|]. rewrite Hv in Ha. cbn [nth_error] in Ha.
  assert (Hmap : map missile_id (store k (moveMissile a) r)
                 = map missile_id r)
    by (eapply map_store_same; eauto).
  unfold stepMissile. cbv zeta. cbn [missiles set_missiles ufo_position].
  rewrite Hv. cbn [store].
  destruct (missileExpired _ _).
  - destruct (releaseMissile_state (moveMissile a)
                (set_missiles (h :: store k (moveMissile a) r) v))
      as (_ & Hms & _).
    cbn [missiles set_missiles]. rewrite Hms. cbn [missiles set_missiles splice1].
    eexists. split; [reflexivity|].
    intros x Hx. apply Hincl. rewrite <- Hmap.
    apply in_map_iff in Hx. destruct Hx as (y & <- & Hy).
    apply in_map. eapply In_splice1; eauto.
  - cbn [missiles set_missiles]. eexists. split; [reflexivity|].
    now rewrite Hmap.
Qed.

(** One call of the projectile callback lets no identity enter the
    registry. *)
Lemma stepMissile_ids (ids : list nat) (a : Missile) (k : nat) (v : World) :
  nth_error (missiles v) k = Some a ->
  incl (map missile_id (missiles v)) ids ->
  incl (map missile_id (missiles (stepMissile a k v))) ids.
Proof.
  intros Ha Hincl.
  assert (Hmap : map missile_id (store k (moveMissile a) (missiles v))
                 = map missile_id (missiles v))
    by (eapply map_store_same; eauto).
  unfold stepMissile. cbv zeta. cbn [missiles set_missiles ufo_position].
  destruct (missileExpired _ _).
  - destruct (releaseMissile_state (moveMissile a)
                (set_missiles (store k (moveMissile a) (missiles v)) v))
      as (_ & Hms & _).
    cbn [missiles set_missiles]. rewrite Hms. cbn [missiles set_missiles].
    intros x Hx. apply Hincl. rewrite <- Hmap.
    apply in_map_iff in Hx. destruct Hx as (y & <- & Hy).
    apply in_map. eapply In_splice1; eauto.
  - cbn [missiles set_missiles]. now rewrite Hmap.
Qed.

(** The projectile pass on a registry whose first missile is [m]: the
    first missile is always visited; it is moved and kept, or removed
    when it has expired, and the rest of the registry receives no new
    identity. *)
Lemma updateMissiles_head (w : World) (m : Missile) (rest : list Missile) :
  missiles w = m :: rest ->
  let m1 := moveMissile m in
  (missileExpired (ufo_position w) m1 = false ->
   exists rest', missiles (updateMissiles w) = m1 :: rest'
                 /\ incl (map missile_id rest') (map missile_id rest))
  /\ (missileExpired (ufo_position w) m1 = true ->
      incl (map missile_id (missiles (updateMissiles w)))
           (map missile_id rest)).
Proof.
  intros Hw. cbv zeta.
  assert (Hloop : updateMissiles w
                  = forEach_from missiles stepMissile (length rest) 1
                      (stepMissile m 0 w)).
  { unfold updateMissiles, forEach. rewrite Hw. cbn [length forEach_from].
    unfold visit. now rewrite Hw. }
  rewrite Hloop.
  assert (H0 : missiles (stepMissile m 0 w)
               = if missileExpired (ufo_position w) (moveMissile m)
                 then rest else moveMissile m :: rest).
  { unfold stepMissile. cbv zeta. cbn [missiles set_missiles ufo_position].
    rewrite Hw. cbn [store].
    destruct (missileExpired _ _); [|reflexivity].
    destruct (releaseMissile_state (moveMissile m)
                (set_missiles (moveMissile m :: rest) w)) as (_ & Hms & _).
    cbn [missiles set_missiles]. rewrite Hms. reflexivity. }
  split; intros He; rewrite He in H0.
  - apply (forEach_from_inv_at missiles stepMissile
             (fun k v => (1 <= k)%nat
                         /\ exists r, missiles v = moveMissile m :: r
                                      /\ incl (map missile_id r)
                                              (map missile_id rest))).
    + intros a k v Hk (Hk1 & Hr). split; [lia|].
      eapply stepMissile_behind_head; eauto.
    + intros k v _ (Hk1 & Hr). split; [lia|exact Hr].
    + split; [lia|]. exists rest. split; [exact H0|apply incl_refl].
  - apply (forEach_from_inv missiles stepMissile
             (fun v => incl (map missile_id (missiles v))
                            (map missile_id rest))).
    + intros a k v Hk Hv. now apply stepMissile_ids.
    + rewrite H0. apply incl_refl.
Qed.

Lemma missileFrames_in_flight (ufoAt : nat -> Vec3) (m : Missile)
    (rest : list Missile) (w : World) (n : nat) :
  missiles w = m :: rest -> lifeTime m = 0%Z -> (n <= 500)%nat ->
  (forall i, (i < n)%nat ->
     missileOutOfBounds (ufoAt i) (Nat.iter (S i) moveMissile m) = false) ->
  exists rest',
    missiles (missileFrames ufoAt n w) = Nat.iter n moveMissile m :: rest'
    /\ incl (map missile_id rest') (map missile_id rest).
Proof.
  intros Hw H0. induction n as [|n IH]; intros Hn Hin.
  - exists rest. split; [exact Hw|apply incl_refl].
  - destruct IH as (r & Hr & Hincl); [lia | intros i Hi; apply Hin; lia |].
    cbn [missileFrames].
    destruct (updateMissiles_head
                (set_ufo_position (ufoAt n) (missileFrames ufoAt n w))
                (Nat.iter n moveMissile m) r Hr) as [Hkeep _].
    destruct Hkeep as (r' & Hr' & Hincl').
    + cbn [ufo_position set_ufo_position]. unfold missileExpired.
      change (moveMissile (Nat.iter n moveMissile m))
        with (Nat.iter (S n) moveMissile m).
      rewrite Hin by lia. rewrite lifeTime_iter_moveMissile, H0.
      destruct (500 <? 0 + Z.of_nat (S n))%Z eqn:E; [|reflexivity].
      apply Z.ltb_lt in E. lia.
    + exists r'. split; [exact Hr'|].
      eapply incl_tran; eauto.
Qed.


Lemma awayMissile_position (n : nat) :
  let p := missile_position (Nat.iter n moveMissile awayMissile) in
  vx p == 0 /\ vy p == 20 /\ vz p == 10 + inject_Z (Z.of_nat n) * (1 # 2).
Proof.
  induction n as [|n (Hx & Hy & Hz)]; [repeat split; reflexivity|].
  rewrite Nat.iter_succ. unfold moveMissile at 1.
  destruct (iter_moveMissile_fixed n awayMissile) as (Hd & Hs & _).
  cbn [missile_position]. rewrite Hd, Hs.
  cbn [vadd vscale vx vy vz awayMissile missileAt direction missile_speed].
  rewrite Hx, Hy, Hz. rewrite Nat2Z.inj_succ. unfold Z.succ.
  rewrite inject_Z_plus. unfold MISSILE_SPEED.
  repeat split; field.
Qed.

Lemma awayMissile_in_bounds (i : nat) :
  (i < 500)%nat ->
  missileOutOfBounds onCraft (Nat.iter (S i) moveMissile awayMissile) = false.
Proof.
  intros Hi.
  destruct (awayMissile_position (S i)) as (Hx & Hy & Hz).
  unfold missileOutOfBounds, len_gt.
  apply orb_false_iff. split; [reflexivity|].
  apply Qltb_ge. unfold distanceToSq, lengthSq, vsub.
  cbn [vx vy vz onCraft]. rewrite Hx, Hy, Hz.
  assert (Hk : 0 <= inject_Z (Z.of_nat (S i)) <= 500).
  { split.
    - change 0 with (inject_Z 0). rewrite <- Zle_Qle. lia.
    - change 500 with (inject_Z 500). rewrite <- Zle_Qle. lia. }
  unfold GAME_BOUNDS. Lqa.nra.
Qed.



(** ** Abduction progress *)

Lemma beamSparkle_state (random : nat -> Q) (w : World) :
  cows (beamSparkle random w) = cows w
  /\ ufo_position (beamSparkle random w) = ufo_position w
  /\ currentSpawnInterval (beamSparkle random w) = currentSpawnInterval w.
Proof.
  unfold beamSparkle, draw, fresh.
  destruct (Qltb _ _); repeat split; reflexivity.
Qed.

(** With the beam key held, the beam pass is the traversal of the cows
    from a state with the same cows and the craft at [u]. *)
Lemma updateTractorBeam_held (random : nat -> Q) (u : Vec3) (w : World) :
  exists w1,
    cows w1 = cows w /\ ufo_position w1 = u
    /\ currentSpawnInterval w1 = currentSpawnInterval w
    /\ updateTractorBeam random (set_keys (holdBeam (keys w))
                                   (set_ufo_position u w))
       = forEach cows abductCow w1.
Proof.
  unfold updateTractorBeam.
  cbn [tractorBeam_visible set_tractorBeam_visible keys set_keys KeyE holdBeam
       set_ufo_position].
  rewrite andb_false_r.
  destruct (tractorBeam_visible w); cbn [negb andb tractorBeam_visible emit];
    match goal with
    | |- context [beamSparkle random ?x] =>
        destruct (beamSparkle_state random x) as (A & B & C);
        exists (beamSparkle random x)
    end;
    rewrite A, B, C; repeat split; reflexivity.
Qed.

(** One call of the beam callback either removes the visited cow or
    rewrites it in place. *)
Lemma abductCow_cases (cow : Cow) (k : nat) (w : World) :
  nth_error (cows w) k = Some cow ->
  ufo_position (abductCow cow k w) = ufo_position w
  /\ ((length (cows (abductCow cow k w)) < length (cows w))%nat
      \/ cows (abductCow cow k w)
         = store k (beamStep (ufo_position w) cow) (cows w)).
Proof.
  intros Hk. unfold abductCow, beamStep, fresh.
  destruct (isBeingAbducted cow); cbn [negb].
  - cbn [ufo_position set_cows]. destruct (abductionComplete _ _).
    + cbn [ufo_position cows set_cows emit set_nextId set_gameStateManager
           set_currentSpawnInterval].
      split; [reflexivity|left].
      rewrite length_splice1; rewrite length_store;
        apply nth_error_in_range in Hk; lia.
    + split; [reflexivity|right; reflexivity].
  - destruct (inBeam _ _).
    + split; [reflexivity|right; reflexivity].
    + split; [reflexivity|right]. symmetry. now apply store_same.
Qed.

(** A beam pass never lengthens the registry, and, when it removes no
    cow, it has applied [beamStep] to the cow at every index. *)
Lemma abduct_pass (u : Vec3) (w : World) (i : nat) (c : Cow) :
  ufo_position w = u -> nth_error (cows w) i = Some c ->
  let w' := forEach cows abductCow w in
  (length (cows w') < length (cows w))%nat
  \/ (length (cows w') = length (cows w)
      /\ nth_error (cows w') i = Some (beamStep u c)).
Proof.
  intros Hu Hi. cbv zeta.
  set (L := length (cows w)).
  assert (HiL : (i < L)%nat) by (eapply nth_error_in_range; eauto).
  pose (P := fun (k : nat) (v : World) =>
    ufo_position v = u
    /\ ((length (cows v) < L)%nat
        \/ (length (cows v) = L
            /\ nth_error (cows v) i
               = Some (if (i <? k)%nat then beamStep u c else c)))).
  assert (H : P (0 + L)%nat (forEach cows abductCow w)).
  { unfold forEach. fold L. apply forEach_from_inv_at.
    - intros a k v Hk (Hv & Hcase).
      destruct (abductCow_cases a k v Hk) as (Hu' & Hcs).
      split; [congruence|].
      destruct Hcase as [Hlt | (Hlen & Hnth)]; [left|].
      + destruct Hcs as [Hr | Hs]; [lia|].
        rewrite Hs, length_store. exact Hlt.
      + destruct Hcs as [Hr | Hs]; [left; lia|right].
        rewrite Hs, length_store. split; [exact Hlen|].
        destruct (Nat.eq_dec i k) as [->|Hne].
        * rewrite Nat.ltb_irrefl in Hnth.
          assert (a = c) by congruence. subst a.
          rewrite nth_error_store_same by (eapply nth_error_in_range; eauto).
          rewrite Hv.
          replace (k <? S k)%nat with true
            by (symmetry; apply Nat.ltb_lt; lia).
          reflexivity.
        * rewrite nth_error_store_other by exact Hne. rewrite Hnth.
          replace (i <? S k)%nat with (i <? k)%nat; [reflexivity|].
          destruct (i <? k)%nat eqn:E1.
          -- apply Nat.ltb_lt in E1. symmetry. apply Nat.ltb_lt. lia.
          -- apply Nat.ltb_ge in E1. symmetry. apply Nat.ltb_ge. lia.
    - intros k v Hk (Hv & Hcase). split; [exact Hv|].
      destruct Hcase as [Hlt | (Hlen & Hnth)]; [now left|right].
      split; [exact Hlen|].
      apply nth_error_None in Hk.
      assert (i <> k) by lia.
      rewrite Hnth.
      replace (i <? S k)%nat with (i <? k)%nat; [reflexivity|].
      destruct (i <? k)%nat eqn:E1.
      + apply Nat.ltb_lt in E1. symmetry. apply Nat.ltb_lt. lia.
      + apply Nat.ltb_ge in E1. symmetry. apply Nat.ltb_ge. lia.
    - split; [exact Hu|right]. split; [reflexivity|exact Hi]. }
  destruct H as (_ & [Hlt | (Hlen & Hnth)]); [now left|right].
  split; [exact Hlen|].
  rewrite Hnth. simpl.
  now replace (i <? L)%nat with true by (symmetry; apply Nat.ltb_lt; lia).
Qed.

(** The idle pass keeps the length of the registry and leaves a cow that
    is being abducted as it is. *)
Lemma updateCows_pass (random : nat -> Q) (Math_sin : Q -> Q) (w : World)
    (i : nat) (c : Cow) :
  nth_error (cows w) i = Some c -> isBeingAbducted c = true ->
  length (cows (updateCows random Math_sin w)) = length (cows w)
  /\ nth_error (cows (updateCows random Math_sin w)) i = Some c.
Proof.
  intros Hi Ha. unfold updateCows.
  apply (forEach_inv cows (idleCow random Math_sin)
           (fun v => length (cows v) = length (cows w)
                     /\ nth_error (cows v) i = Some c)); [|now split].
  intros a k v Hk (Hlen & Hnth). unfold idleCow, draw.
  destruct (isBeingAbducted a) eqn:Ea; cbn [negb]; [now split|].
  assert (i <> k) by (intros ->; congruence).
  destruct (Qltb _ _); cbn [cows set_cows set_draws];
    rewrite length_store, nth_error_store_other by assumption; now split.
Qed.

Lemma updateCows_length (random : nat -> Q) (Math_sin : Q -> Q) (w : World) :
  length (cows (updateCows random Math_sin w)) = length (cows w).
Proof.
  unfold updateCows.
  apply (forEach_inv cows (idleCow random Math_sin)
           (fun v => length (cows v) = length (cows w))); [|reflexivity].
  intros a k v Hk Hlen. unfold idleCow, draw.
  destruct (isBeingAbducted a); cbn [negb]; [exact Hlen|].
  destruct (Qltb _ _); cbn [cows set_cows set_draws];
    now rewrite length_store.
Qed.

Lemma beamStep_abducted (u : Vec3) (c : Cow) :
  isBeingAbducted c = true \/ inBeam u c = true ->
  isBeingAbducted (beamStep u c) = true.
Proof.
  unfold beamStep. intros [H | H].
  - now rewrite H.
  - destruct (isBeingAbducted c); [reflexivity|]. now rewrite H.
Qed.

(** One frame: the registry does not grow, and if it keeps its length the
    cow at index [i], caught by the beam or already being pulled, has
    gone through [beamStep]. *)
Lemma beamFrame_cow (random : nat -> Q) (Math_sin : Q -> Q) (u : Vec3)
    (w : World) (i : nat) (c : Cow) :
  nth_error (cows w) i = Some c ->
  isBeingAbducted c = true \/ inBeam u c = true ->
  let w' := beamFrame random Math_sin u w in
  (length (cows w') < length (cows w))%nat
  \/ (length (cows w') = length (cows w)
      /\ nth_error (cows w') i = Some (beamStep u c)).
Proof.
  intros Hi Hc. cbv zeta. unfold beamFrame.
  destruct (updateTractorBeam_held random u w) as (w1 & Hc1 & Hu1 & _ & ->).
  rewrite <- Hc1 in Hi.
  destruct (abduct_pass u w1 i c Hu1 Hi) as [Hlt | (Hlen & Hnth)].
  - left. rewrite updateCows_length. congruence.
  - right.
    destruct (updateCows_pass random Math_sin _ i _ Hnth
                (beamStep_abducted u c Hc)) as (Hl & Hn).
    split; congruence.
Qed.

Lemma beamFrame_length (random : nat -> Q) (Math_sin : Q -> Q) (u : Vec3)
    (w : World) :
  (length (cows (beamFrame random Math_sin u w)) <= length (cows w))%nat.
Proof.
  unfold beamFrame.
  destruct (updateTractorBeam_held random u w) as (w1 & Hc1 & Hu1 & _ & ->).
  rewrite updateCows_length, <- Hc1. unfold forEach.
  apply (forEach_from_inv cows abductCow
           (fun v => (length (cows v) <= length (cows w1))%nat)); [|lia].
  intros a k v Hk Hv.
  destruct (abductCow_cases a k v Hk) as (_ & [Hr | Hs]); [lia|].
  now rewrite Hs, length_store.
Qed.

Lemma beamFrames_length (random : nat -> Q) (Math_sin : Q -> Q)
    (ufoAt : nat -> Vec3) (k : nat) (w : World) :
  (length (cows (beamFrames random Math_sin ufoAt k w)) <= length (cows w))%nat.
Proof.
  induction k as [|k IH]; cbn [beamFrames]; [lia|].
  etransitivity; [apply beamFrame_length | exact IH].
Qed.

Lemma inBeam_intro (u : Vec3) (c : Cow) :
  (vx (cow_position c) - vx u) * (vx (cow_position c) - vx u)
  + (vz (cow_position c) - vz u) * (vz (cow_position c) - vz u)
  < (BEAM_RANGE / 2) * (BEAM_RANGE / 2) ->
  vy (cow_position c) < vy u ->
  inBeam u c = true.
Proof.
  intros Hd Hy. unfold inBeam, len_lt.
  apply andb_true_iff. split; [apply andb_true_iff; split|].
  - reflexivity.
  - now apply Qltb_lt.
  - now apply Qltb_lt.
Qed.

(** C2 (amended).  A creature that is idle, at horizontal distance below
    BEAM_RANGE / 2 from the craft and below its altitude when the first
    of [k >= 1] consecutive frames with the beam held begins: as long as
    no abduction has completed in those frames (the registry has kept its
    length), the creature is being abducted and its progress is
    (k - 1) * BEAM_STRENGTH: the first frame starts the abduction at
    progress 0, each later frame adds BEAM_STRENGTH, and nothing resets
    it. *)
Theorem C2_progress_after_k_frames (random : nat -> Q) (Math_sin : Q -> Q)
    (ufoAt : nat -> Vec3) (w : World) (i : nat) (c : Cow) (k : nat) :
  nth_error (cows w) i = Some c ->
  isBeingAbducted c = false ->
  (vx (cow_position c) - vx (ufoAt 0%nat))
  * (vx (cow_position c) - vx (ufoAt 0%nat))
  + (vz (cow_position c) - vz (ufoAt 0%nat))
    * (vz (cow_position c) - vz (ufoAt 0%nat))
  < (BEAM_RANGE / 2) * (BEAM_RANGE / 2) ->
  vy (cow_position c) < vy (ufoAt 0%nat) ->
  (1 <= k)%nat ->
  let w' := beamFrames random Math_sin ufoAt k w in
  length (cows w') = length (cows w) ->
  exists c',
    nth_error (cows w') i = Some c'
    /\ cow_id c' = cow_id c
    /\ isBeingAbducted c' = true
    /\ abductionProgress c' == inject_Z (Z.of_nat k - 1) * BEAM_STRENGTH.
Proof.
  intros Hi Hidle Hd Hy Hk. cbv zeta.
  induction k as [|k IH]; [lia|]. intros Hlen.
  cbn [beamFrames] in *.
  pose proof (beamFrame_length random Math_sin (ufoAt k)
                (beamFrames random Math_sin ufoAt k w)) as Hle1.
  pose proof (beamFrames_length random Math_sin ufoAt k w) as Hle2.
  assert (Hlenk : length (cows (beamFrames random Math_sin ufoAt k w))
                  = length (cows w)) by lia.
  destruct k as [|k].
  - cbn [beamFrames] in *.
    destruct (beamFrame_cow random Math_sin (ufoAt 0%nat) w i c Hi)
      as [Hlt | (_ & Hnth)]; [right; now apply inBeam_intro | lia |].
    exists (beamStep (ufoAt 0%nat) c). split; [exact Hnth|].
    unfold beamStep. rewrite Hidle, (inBeam_intro _ _ Hd Hy).
    repeat split; reflexivity.
  - destruct (IH ltac:(lia) Hlenk) as (c' & Hc' & Hid & Ha & Hp).
    destruct (beamFrame_cow random Math_sin (ufoAt (S k)) _ i c' Hc')
      as [Hlt | (_ & Hnth)]; [now left | lia |].
    exists (beamStep (ufoAt (S k)) c'). split; [exact Hnth|].
    unfold beamStep. rewrite Ha. unfold pullCow.
    cbn [cow_id isBeingAbducted abductionProgress].
    split; [exact Hid|]. split; [reflexivity|].
    rewrite Hp.
    replace (Z.of_nat (S (S k)) - 1)%Z with (Z.of_nat (S k) - 1 + 1)%Z by lia.
    rewrite inject_Z_plus. ring.
Qed.

(** C2 as stated fails: in the scenario of the specification the progress
    after the first frame is 0, not BEAM_STRENGTH, and after three frames
    it is 2 * BEAM_STRENGTH. *)
Lemma C2_first_frame_adds_no_progress :
  let frames := beamFrames (fun _ => 1) (fun _ => 0) (fun _ => hovering) in
  isBeingAbducted grazingCow = false
  /\ inBeam hovering grazingCow = true
  /\ map abductionProgress (cows (frames 1%nat pasture)) = [0]
  /\ ~ 0 == inject_Z 1 * BEAM_STRENGTH
  /\ map (fun c => Qred (abductionProgress c)) (cows (frames 3%nat pasture))
     = [Qred (inject_Z 2 * BEAM_STRENGTH)].
Proof.
  vm_compute. repeat split; try reflexivity. discriminate.
Qed.

(** C2 (amended), in the scenario of the specification after 3 frames. *)
Lemma C2_progress_after_k_frames_witness :
  exists c',
    nth_error
      (cows (beamFrames (fun _ => 1) (fun _ => 0) (fun _ => hovering) 3
               pasture)) 0
    = Some c'
    /\ cow_id c' = cow_id grazingCow
    /\ isBeingAbducted c' = true
    /\ abductionProgress c' == inject_Z (Z.of_nat 3 - 1) * BEAM_STRENGTH.
Proof.
  apply (C2_progress_after_k_frames (fun _ => 1) (fun _ => 0)
           (fun _ => hovering) pasture 0 grazingCow 3).
  - reflexivity.
  - reflexivity.
  - reflexivity.
  - reflexivity.
  - lia.
  - vm_compute. reflexivity.
Defined.

(** ** Spawn interval *)

(** Splits on every test met in the goal, then closes it by computation. *)
Ltac by_cases :=
  repeat match goal with
         | |- context [if ?c then _ else _] => destruct c
         | |- context [match ?x with Some _ => _ | None => _ end] => destruct x
         end;
  try reflexivity.

Lemma tighten_le (c : Q) : SPAWN_INTERVAL_MIN <= c -> tighten c <= c.
Proof.
  intros H. unfold tighten. apply Q.max_lub; [exact H|].
  unfold SPAWN_INTERVAL_MIN, SPAWN_RATE_INCREASE in *. Lqa.lra.
Qed.

Lemma tighten_ge (c : Q) : SPAWN_INTERVAL_MIN <= tighten c.
Proof. unfold tighten. apply Q.le_max_l. Qed.

Lemma iter_tighten_bounds (n : nat) (c : Q) :
  SPAWN_INTERVAL_MIN <= c ->
  Nat.iter n tighten c <= c /\ SPAWN_INTERVAL_MIN <= Nat.iter n tighten c.
Proof.
  intros H. induction n as [|n [IH1 IH2]]; [split; [apply Qle_refl|exact H]|].
  rewrite Nat.iter_succ. split; [|apply tighten_ge].
  eapply Qle_trans; [apply tighten_le; exact IH2 | exact IH1].
Qed.

Lemma interval_damagePlayer (w : World) :
  currentSpawnInterval (damagePlayer w) = currentSpawnInterval w.
Proof. unfold damagePlayer. cbv zeta. by_cases. Qed.

Lemma interval_releaseJet (jet : Jet) (w : World) :
  currentSpawnInterval (releaseJet jet w) = currentSpawnInterval w.
Proof. unfold releaseJet, removeExhaust, stopEngineSound. by_cases. Qed.

Lemma interval_releaseMissile (m : Missile) (w : World) :
  currentSpawnInterval (releaseMissile m w) = currentSpawnInterval w.
Proof. unfold releaseMissile, removeExhaust. by_cases. Qed.

Lemma interval_checkCollisions (w : World) :
  currentSpawnInterval (checkCollisions w) = currentSpawnInterval w.
Proof.
  unfold checkCollisions.
  apply (forEach_inv missiles collideMissile
           (fun v => currentSpawnInterval v = currentSpawnInterval w)).
  - intros a k v _ Hv. unfold collideMissile.
    destruct (len_lt _ _); [|exact Hv].
    rewrite interval_damagePlayer. cbn [currentSpawnInterval set_missiles].
    now rewrite interval_releaseMissile.
  - apply (forEach_inv jets collideJet
             (fun v => currentSpawnInterval v = currentSpawnInterval w));
      [|reflexivity].
    intros a k v _ Hv. unfold collideJet.
    destruct (len_lt _ _); [|exact Hv].
    rewrite interval_damagePlayer. cbn [currentSpawnInterval set_jets].
    now rewrite interval_releaseJet.
Qed.

Lemma interval_updateMissiles (w : World) :
  currentSpawnInterval (updateMissiles w) = currentSpawnInterval w.
Proof.
  unfold updateMissiles.
  apply (forEach_inv missiles stepMissile
           (fun v => currentSpawnInterval v = currentSpawnInterval w));
    [|reflexivity].
  intros a k v _ Hv. unfold stepMissile. cbv zeta.
  destruct (missileExpired _ _); [|exact Hv].
  cbn [currentSpawnInterval set_missiles]. now rewrite interval_releaseMissile.
Qed.

Lemma interval_updateCows (random : nat -> Q) (Math_sin : Q -> Q) (w : World) :
  currentSpawnInterval (updateCows random Math_sin w) = currentSpawnInterval w.
Proof.
  unfold updateCows.
  apply (forEach_inv cows (idleCow random Math_sin)
           (fun v => currentSpawnInterval v = currentSpawnInterval w));
    [|reflexivity].
  intros a k v _ Hv. unfold idleCow, draw. by_cases; exact Hv.
Qed.

Section IntervalOfJets.

Variable random : nat -> Q.
Variable normalize : Vec3 -> Vec3.
Variable Math_sin : Q -> Q.
Variable Math_cos : Q -> Q.
Variable Math_atan2 : Q -> Q -> Q.
Variable Math_PI : Q.

Lemma interval_updateJets (now : Z) (w : World) :
  currentSpawnInterval
    (updateJets random normalize Math_sin Math_cos Math_atan2 Math_PI now w)
  = currentSpawnInterval w.
Proof.
  unfold updateJets, spawnIfDue.
  apply (forEach_inv jets (stepJet normalize Math_atan2 now)
           (fun v => currentSpawnInterval v = currentSpawnInterval w)).
  - intros a k v _ Hv. unfold stepJet. cbv zeta.
    destruct (jetOutOfBounds _ _);
      cbn [currentSpawnInterval set_jets];
      rewrite ?interval_releaseJet; cbn [currentSpawnInterval set_jets];
      unfold createMissileModel, fresh; by_cases; exact Hv.
  - destruct (spawnDue now w); reflexivity.
Qed.

Lemma interval_createCows (w : World) :
  currentSpawnInterval (createCows random Math_sin Math_cos Math_PI w)
  = currentSpawnInterval w.
Proof.
  unfold createCows. generalize COW_COUNT. intros n.
  induction n as [|n IH]; [reflexivity|].
  rewrite Nat.iter_succ. exact IH.
Qed.

Lemma interval_startGame (now : Z) (w : World) :
  currentSpawnInterval (startGame random Math_sin Math_cos Math_PI now w)
  = SPAWN_INTERVAL_BASE.
Proof.
  unfold startGame. cbv zeta. cbn [currentSpawnInterval emit set_miniMap].
  match goal with |- context [match ?l with [] => _ | _ => _ end] =>
    destruct l end; [apply interval_createCows | reflexivity].
Qed.

End IntervalOfJets.

(** One call of the beam callback: the cow stays and the interval is
    untouched, or the cow is removed and the interval tightened once. *)
Lemma abductCow_interval (cow : Cow) (k : nat) (w : World) :
  nth_error (cows w) k = Some cow ->
  (length (cows (abductCow cow k w)) = length (cows w)
   /\ currentSpawnInterval (abductCow cow k w) = currentSpawnInterval w)
  \/ (S (length (cows (abductCow cow k w))) = length (cows w)
      /\ currentSpawnInterval (abductCow cow k w)
         = tighten (currentSpawnInterval w)).
Proof.
  intros Hk. apply nth_error_in_range in Hk.
  unfold abductCow, fresh.
  destruct (isBeingAbducted cow); cbn [negb].
  - cbn [ufo_position set_cows]. destruct (abductionComplete _ _).
    + right.
      cbn [cows currentSpawnInterval set_cows emit set_nextId
           set_gameStateManager set_currentSpawnInterval].
      rewrite length_splice1; rewrite length_store; [|lia].
      split; [lia|reflexivity].
    + left. cbn [cows currentSpawnInterval set_cows].
      now rewrite length_store.
  - destruct (inBeam _ _); left; cbn [cows currentSpawnInterval set_cows emit];
      rewrite ?length_store; now split.
Qed.

Lemma abduct_pass_interval (w : World) :
  let w' := forEach cows abductCow w in
  (length (cows w') <= length (cows w))%nat
  /\ currentSpawnInterval w'
     = Nat.iter (length (cows w) - length (cows w')) tighten
         (currentSpawnInterval w).
Proof.
  cbv zeta.
  apply (forEach_inv cows abductCow
           (fun v => (length (cows v) <= length (cows w))%nat
                     /\ currentSpawnInterval v
                        = Nat.iter (length (cows w) - length (cows v)) tighten
                            (currentSpawnInterval w))).
  - intros a k v Hk (Hle & Hv).
    destruct (abductCow_interval a k v Hk) as [(Hl & Hi) | (Hl & Hi)].
    + rewrite Hl, Hi. now split.
    + split; [lia|]. rewrite Hi, Hv.
      replace (length (cows w) - length (cows (abductCow a k v)))%nat
        with (S (length (cows w) - length (cows v))) by lia.
      reflexivity.
  - split; [lia|]. now rewrite Nat.sub_diag.
Qed.

Lemma interval_updateTractorBeam (random : nat -> Q) (w : World) :
  let w' := updateTractorBeam random w in
  (length (cows w') <= length (cows w))%nat
  /\ currentSpawnInterval w'
     = Nat.iter (length (cows w) - length (cows w')) tighten
         (currentSpawnInterval w).
Proof.
  cbv zeta. unfold updateTractorBeam. cbv zeta.
  cbn [tractorBeam_visible set_tractorBeam_visible].
  assert (Hidle : forall v, cows v = cows w ->
            currentSpawnInterval v = currentSpawnInterval w ->
            (length (cows v) <= length (cows w))%nat
            /\ currentSpawnInterval v
               = Nat.iter (length (cows w) - length (cows v)) tighten
                   (currentSpawnInterval w)).
  { intros v Hc Hi. rewrite Hc, Hi, Nat.sub_diag. split; [lia|reflexivity]. }
  assert (Hpass : forall v, cows v = cows w ->
            currentSpawnInterval v = currentSpawnInterval w ->
            (length (cows (forEach cows abductCow (beamSparkle random v)))
             <= length (cows w))%nat
            /\ currentSpawnInterval
                 (forEach cows abductCow (beamSparkle random v))
               = Nat.iter
                   (length (cows w)
                    - length (cows (forEach cows abductCow
                                      (beamSparkle random v))))
                   tighten (currentSpawnInterval w)).
  { intros v Hc Hi.
    destruct (beamSparkle_state random v) as (A & _ & C).
    pose proof (abduct_pass_interval (beamSparkle random v)) as H.
    cbv zeta in H. now rewrite A, C, Hc, Hi in H. }
  destruct (KeyE (keys w)), (tractorBeam_visible w);
    cbn [negb andb tractorBeam_visible emit];
    first [apply Hpass; reflexivity | apply Hidle; reflexivity].
Qed.

Section IntervalInvariant.

Variable random : nat -> Q.
Variable normalize : Vec3 -> Vec3.
Variable Math_sin : Q -> Q.
Variable Math_cos : Q -> Q.
Variable Math_atan2 : Q -> Q -> Q.
Variable Math_PI : Q.

Local Abbreviation perform' :=
  (perform random normalize Math_sin Math_cos Math_atan2 Math_PI).
Local Abbreviation performAll' :=
  (performAll random normalize Math_sin Math_cos Math_atan2 Math_PI).

Lemma interval_perform (w : World) (a : Action) :
  (isRestart a = true ->
   currentSpawnInterval (perform' w a) = SPAWN_INTERVAL_BASE)
  /\ (isRestart a = false ->
      exists n, currentSpawnInterval (perform' w a)
                = Nat.iter n tighten (currentSpawnInterval w)).
Proof.
  destruct a as [k ufo| |now| | |now|now]; cbn [perform isRestart];
    (split; [try discriminate | try discriminate]); intros _.
  - destruct (interval_updateTractorBeam random
                (set_keys k (set_ufo_position ufo w))) as (_ & H).
    eexists. exact H.
  - exists 0%nat. apply interval_updateCows.
  - exists 0%nat. apply interval_updateJets.
  - exists 0%nat. apply interval_updateMissiles.
  - exists 0%nat. apply interval_checkCollisions.
  - unfold pressStart. apply interval_startGame.
  - unfold pressRestart, restartGame. apply interval_startGame.
Qed.

Lemma interval_perform_floor (w : World) (a : Action) :
  SPAWN_INTERVAL_MIN <= currentSpawnInterval w ->
  SPAWN_INTERVAL_MIN <= currentSpawnInterval (perform' w a).
Proof.
  intros Hw. destruct (interval_perform w a) as [Hr Hn].
  destruct (isRestart a).
  - rewrite Hr by reflexivity. unfold SPAWN_INTERVAL_MIN, SPAWN_INTERVAL_BASE.
    Lqa.lra.
  - destruct (Hn eq_refl) as [n ->]. now apply iter_tighten_bounds.
Qed.


End IntervalInvariant.


(** ** Release of emitters and sounds on removal *)

Lemma releases_app (a b : list Event) :
  releases (a ++ b) = releases a ++ releases b.
Proof. apply filter_app. Qed.

Lemma releases_damagePlayer (w : World) :
  releases (trace (damagePlayer w)) = releases (trace w).
Proof.
  unfold damagePlayer. cbv zeta.
  match goal with |- context [if ?c then _ else _] => destruct c end;
    cbn [trace emit set_gameStateManager createExplosion];
    rewrite ?releases_app; cbn [releases filter isRelease];
    now rewrite ?app_nil_r.
Qed.

Lemma releases_createExplosion (p : Vec3) (s : Q) (w : World) :
  releases (trace (createExplosion p s w)) = releases (trace w).
Proof.
  unfold createExplosion. cbn [trace emit].
  rewrite ?releases_app. cbn [releases filter isRelease].
  now rewrite ?app_nil_r.
Qed.

Lemma releases_releaseJet (jet : Jet) (w : World) :
  soundIsPlaying jet = true ->
  releases (trace (releaseJet jet w))
  = releases (trace w) ++ jetOwes (jetHandles jet).
Proof.
  unfold soundIsPlaying, releaseJet, stopEngineSound, removeExhaust,
    jetOwes, jetHandles.
  intros Hp.
  destruct (engineSound jet) as [a|]; [rewrite Hp|];
    destruct (jet_exhaustEmitter jet); cbn [trace emit];
    rewrite ?releases_app; cbn [releases filter isRelease app];
    rewrite ?app_nil_r, <- ?app_assoc; reflexivity.
Qed.

Lemma releases_releaseMissile (m : Missile) (w : World) :
  releases (trace (releaseMissile m w))
  = releases (trace w) ++ missileOwes (missileHandles m).
Proof.
  unfold releaseMissile, removeExhaust, missileOwes, missileHandles.
  cbn [snd].
  destruct (missile_exhaustEmitter m); cbn [trace emit];
    rewrite ?releases_app; cbn [releases filter isRelease app];
    rewrite ?app_nil_r, <- ?app_assoc; reflexivity.
Qed.

Lemma collideJet_account (w0 : World) (jet : Jet) (k : nat) (v : World)
    (rj : list JetHandles) :
  nth_error (jets v) k = Some jet ->
  jetAccount w0 v rj /\ missiles v = missiles w0 ->
  exists rj', jetAccount w0 (collideJet jet k v) rj'
              /\ missiles (collideJet jet k v) = missiles w0.
Proof.
  intros Hk ((Hperm & Hrel & Hplay) & Hm). unfold collideJet.
  destruct (len_lt _ _); [|exists rj; repeat split; assumption].
  exists (rj ++ [jetHandles jet]).
  destruct (releaseJet_state jet (createExplosion (jet_position jet) 3 v))
    as (Hj & Hms & _).
  unfold jetAccount.
  rewrite jets_damagePlayer, missiles_damagePlayer, releases_damagePlayer.
  cbn [jets missiles trace set_jets]. rewrite Hj, Hms.
  cbn [jets missiles createExplosion emit].
  rewrite releases_releaseJet
    by (eapply (Forall_nth_error (fun j => soundIsPlaying j = true));
        eauto).
  rewrite releases_createExplosion, Hrel, flat_map_app.
  cbn [flat_map]. rewrite app_nil_r, <- app_assoc.
  repeat split; auto.
  - rewrite Hperm. apply Permutation_account.
    change [jetHandles jet] with (map jetHandles [jet]).
    rewrite <- map_app. apply Permutation_map.
    now apply Permutation_splice1.
  - now apply Forall_splice1.
Qed.

Lemma collideMissile_account (w0 : World) (m : Missile) (k : nat) (v : World)
    (rm : list MissileHandles) :
  nth_error (missiles v) k = Some m ->
  missileAccount w0 v rm /\ jets v = jets w0 ->
  exists rm', missileAccount w0 (collideMissile m k v) rm'
              /\ jets (collideMissile m k v) = jets w0.
Proof.
  intros Hk ((Hperm & Hrel) & Hj). unfold collideMissile.
  destruct (len_lt _ _); [|exists rm; repeat split; assumption].
  exists (rm ++ [missileHandles m]).
  destruct (releaseMissile_state m
              (createExplosion (missile_position m) 2 v)) as (Hjs & Hms & _).
  unfold missileAccount.
  rewrite jets_damagePlayer, missiles_damagePlayer, releases_damagePlayer.
  cbn [jets missiles trace set_missiles]. rewrite Hjs, Hms.
  cbn [jets missiles createExplosion emit].
  rewrite releases_releaseMissile, releases_createExplosion, Hrel, flat_map_app.
  cbn [flat_map]. rewrite app_nil_r, <- app_assoc.
  repeat split; auto.
  rewrite Hperm. apply Permutation_account.
  change [missileHandles m] with (map missileHandles [m]).
  rewrite <- map_app. apply Permutation_map.
  now apply Permutation_splice1.
Qed.

Lemma stepMissile_account (w0 : World) (m : Missile) (k : nat) (v : World)
    (rm : list MissileHandles) :
  nth_error (missiles v) k = Some m ->
  missileAccount w0 v rm ->
  exists rm', missileAccount w0 (stepMissile m k v) rm'.
Proof.
  intros Hk (Hperm & Hrel). unfold stepMissile. cbv zeta.
  assert (Hmap : map missileHandles (store k (moveMissile m) (missiles v))
                 = map missileHandles (missiles v))
    by (eapply map_store_same; eauto).
  destruct (missileExpired _ _).
  - exists (rm ++ [missileHandles (moveMissile m)]).
    destruct (releaseMissile_state (moveMissile m)
                (set_missiles (store k (moveMissile m) (missiles v)) v))
      as (_ & Hms & _).
    unfold missileAccount. cbn [missiles trace set_missiles].
    rewrite Hms, releases_releaseMissile. cbn [missiles trace set_missiles].
    rewrite Hrel, flat_map_app. cbn [flat_map].
    rewrite app_nil_r, <- app_assoc. split; [|reflexivity].
    rewrite Hperm, <- Hmap. apply Permutation_account.
    change [missileHandles (moveMissile m)]
      with (map missileHandles [moveMissile m]).
    rewrite <- map_app. apply Permutation_map.
    apply Permutation_splice1. apply nth_error_store_same.
    eapply nth_error_in_range; eauto.
  - exists rm. unfold missileAccount. cbn [missiles trace set_missiles].
    rewrite Hmap. now split.
Qed.

Section ReleaseOnRemoval.

Variable random : nat -> Q.
Variable normalize : Vec3 -> Vec3.
Variable Math_sin : Q -> Q.
Variable Math_cos : Q -> Q.
Variable Math_atan2 : Q -> Q -> Q.
Variable Math_PI : Q.

Lemma createMissileModel_state (p d : Vec3) (w : World) :
  jets (createMissileModel normalize p d w) = jets w
  /\ releases (trace (createMissileModel normalize p d w))
     = releases (trace w).
Proof.
  unfold createMissileModel, fresh. cbn [jets trace emit set_missiles set_nextId].
  rewrite ?releases_app. cbn [releases filter isRelease].
  rewrite ?app_nil_r. now split.
Qed.

Lemma stepJet_account (now : Z) (w0 : World) (jet : Jet) (k : nat) (v : World)
    (rj : list JetHandles) :
  nth_error (jets v) k = Some jet ->
  jetAccount w0 v rj ->
  exists rj', jetAccount w0 (stepJet normalize Math_atan2 now jet k v) rj'.
Proof.
  intros Hk (Hperm & Hrel & Hplay). unfold stepJet. cbv zeta.
  set (jet1 := moveJet normalize Math_atan2 now (ufo_position v) jet).
  assert (Hh : jetHandles jet1 = jetHandles jet) by reflexivity.
  assert (Hp1 : soundIsPlaying jet1 = true)
    by (apply (Forall_nth_error (fun j => soundIsPlaying j = true) k jet
                 (jets v) Hplay Hk)).
  set (v1 := match jet_exhaustEmitter jet with
             | Some e => emit (UpdateEmitterPosition e) v
             | None => v
             end).
  assert (Hv1 : jets v1 = jets v /\ releases (trace v1) = releases (trace v)).
  { unfold v1. destruct (jet_exhaustEmitter jet); cbn [jets trace emit];
      rewrite ?releases_app; cbn [releases filter isRelease];
      rewrite ?app_nil_r; now split. }
  set (v2 := if jetShouldFire now jet
             then createMissileModel normalize (jet_position jet1)
                    (vsub (ufo_position v1) (jet_position jet1)) v1
             else v1).
  assert (Hv2 : jets v2 = jets v /\ releases (trace v2) = releases (trace v)).
  { unfold v2. destruct (jetShouldFire now jet); [|exact Hv1].
    destruct (createMissileModel_state (jet_position jet1)
                (vsub (ufo_position v1) (jet_position jet1)) v1) as [A B].
    destruct Hv1 as [C D]. split; congruence. }
  destruct Hv2 as [Hj2 Hr2].
  assert (Hmap : map jetHandles (store k jet1 (jets v2))
                 = map jetHandles (jets v))
    by (rewrite Hj2; eapply map_store_same; eauto).
  destruct (jetOutOfBounds _ _).
  - exists (rj ++ [jetHandles jet1]).
    destruct (releaseJet_state jet1 (set_jets (store k jet1 (jets v2)) v2))
      as (Hjs & _ & _).
    unfold jetAccount. cbn [jets trace set_jets].
    rewrite Hjs, releases_releaseJet by exact Hp1. cbn [jets trace set_jets].
    rewrite Hr2, Hrel, flat_map_app. cbn [flat_map].
    rewrite app_nil_r, <- app_assoc. repeat split.
    + rewrite Hperm, <- Hmap. apply Permutation_account.
      change [jetHandles jet1] with (map jetHandles [jet1]).
      rewrite <- map_app. apply Permutation_map.
      apply Permutation_splice1. apply nth_error_store_same.
      rewrite Hj2. eapply nth_error_in_range; eauto.
    + apply Forall_splice1. apply Forall_store; [exact Hp1|].
      now rewrite Hj2.
  - exists rj. unfold jetAccount. cbn [jets trace set_jets].
    rewrite Hmap, Hr2. repeat split; auto.
    apply Forall_store; [exact Hp1|]. now rewrite Hj2.
Qed.

Lemma spawnIfDue_state (now : Z) (w : World) :
  Forall (fun j => soundIsPlaying j = true) (jets w) ->
  Forall (fun j => soundIsPlaying j = true)
         (jets (spawnIfDue random Math_sin Math_cos Math_PI now w))
  /\ releases (trace (spawnIfDue random Math_sin Math_cos Math_PI now w))
     = releases (trace w).
Proof.
  intros Hp. unfold spawnIfDue. destruct (spawnDue now w); [|now split].
  unfold spawnJet, createJetModel, fresh, draw.
  cbn [jets trace emit set_jets set_lastJetSpawn set_nextId set_draws].
  rewrite ?releases_app. cbn [releases filter isRelease].
  rewrite ?app_nil_r. split; [|reflexivity].
  apply Forall_app. split; [exact Hp|]. constructor; [reflexivity|constructor].
Qed.

(** C9.  In each of the passes that remove attackers or projectiles
    (collision pass, projectile pass with its out-of-bounds and age-out
    removals, jet pass with its out-of-bounds removals), the handles
    registered when the pass begins are those still registered after it
    plus those of the removed entities, and the release calls the pass
    issues are exactly the ones owed by the removed entities, in order:
    for each removed jet one stop of its engine sound and one release of
    its exhaust emitter, for each removed missile one release of its
    exhaust emitter.  Jets keep their engine sound playing as long as
    they are registered. *)
Theorem C9_removal_releases_handles :
  (forall w,
      Forall (fun j => soundIsPlaying j = true) (jets w) ->
      let w' := checkCollisions w in
      exists rj rm,
        Permutation (map jetHandles (jets w))
                    (map jetHandles (jets w') ++ rj)
        /\ Permutation (map missileHandles (missiles w))
                       (map missileHandles (missiles w') ++ rm)
        /\ releases (trace w')
           = releases (trace w)
             ++ flat_map jetOwes rj ++ flat_map missileOwes rm
        /\ Forall (fun j => soundIsPlaying j = true) (jets w'))
  /\ (forall w,
         let w' := updateMissiles w in
         exists rm,
           Permutation (map missileHandles (missiles w))
                       (map missileHandles (missiles w') ++ rm)
           /\ releases (trace w')
              = releases (trace w) ++ flat_map missileOwes rm)
  /\ (forall now w,
         Forall (fun j => soundIsPlaying j = true) (jets w) ->
         let w1 := spawnIfDue random Math_sin Math_cos Math_PI now w in
         let w' := updateJets random normalize Math_sin Math_cos Math_atan2
                     Math_PI now w in
         exists rj,
           Permutation (map jetHandles (jets w1))
                       (map jetHandles (jets w') ++ rj)
           /\ releases (trace w')
              = releases (trace w) ++ flat_map jetOwes rj
           /\ Forall (fun j => soundIsPlaying j = true) (jets w')).
Proof.
  split; [|split].
  - intros w Hp. cbv zeta. unfold checkCollisions.
    assert (H1 : exists rj,
               jetAccount w (forEach jets collideJet w) rj
               /\ missiles (forEach jets collideJet w) = missiles w).
    { apply (forEach_inv jets collideJet
               (fun v => exists rj, jetAccount w v rj
                                    /\ missiles v = missiles w)).
      - intros a k v Hk (rj & Hacc). eapply collideJet_account; eauto.
      - exists []. unfold jetAccount. rewrite !app_nil_r.
        repeat split; auto. }
    destruct H1 as (rj & (Hperm & Hrel & Hplay) & Hm).
    set (w1 := forEach jets collideJet w) in *.
    assert (H2 : exists rm,
               missileAccount w1 (forEach missiles collideMissile w1) rm
               /\ jets (forEach missiles collideMissile w1) = jets w1).
    { apply (forEach_inv missiles collideMissile
               (fun v => exists rm, missileAccount w1 v rm
                                    /\ jets v = jets w1)).
      - intros a k v Hk (rm & Hacc). eapply collideMissile_account; eauto.
      - exists []. unfold missileAccount. rewrite !app_nil_r.
        repeat split; auto. }
    destruct H2 as (rm & (Hperm2 & Hrel2) & Hj).
    exists rj, rm. rewrite Hj, Hrel2, Hrel, <- Hm, <- app_assoc.
    repeat split; auto.
  - intros w. cbv zeta. unfold updateMissiles.
    apply (forEach_inv missiles stepMissile
             (fun v => exists rm, missileAccount w v rm)).
    + intros a k v Hk (rm & Hacc). eapply stepMissile_account; eauto.
    + exists []. unfold missileAccount. rewrite !app_nil_r. now split.
  - intros now w Hp. cbv zeta. unfold updateJets.
    destruct (spawnIfDue_state now w Hp) as (Hp1 & Hr1).
    set (w1 := spawnIfDue random Math_sin Math_cos Math_PI now w) in *.
    assert (H : exists rj,
              jetAccount w1
                (forEach jets (stepJet normalize Math_atan2 now) w1) rj).
    { apply (forEach_inv jets (stepJet normalize Math_atan2 now)
               (fun v => exists rj, jetAccount w1 v rj)).
      - intros a k v Hk (rj & Hacc). eapply stepJet_account; eauto.
      - exists []. unfold jetAccount. rewrite !app_nil_r.
        repeat split; auto. }
    destruct H as (rj & Hperm & Hrel & Hplay).
    exists rj. rewrite Hrel, Hr1. repeat split; auto.
Qed.

End ReleaseOnRemoval.

(** C9, for a collision pass over one jet on the craft and one far away. *)
Lemma C9_removal_releases_handles_witness :
  let w := set_jets [jetAt 10 starboard; jetAt 20 farAway] gameStart in
  let w' := checkCollisions w in
  exists rj rm,
    Permutation (map jetHandles (jets w)) (map jetHandles (jets w') ++ rj)
    /\ Permutation (map missileHandles (missiles w))
                   (map missileHandles (missiles w') ++ rm)
    /\ releases (trace w')
       = releases (trace w) ++ flat_map jetOwes rj ++ flat_map missileOwes rm
    /\ Forall (fun j => soundIsPlaying j = true) (jets w').
Proof.
  apply (proj1 (C9_removal_releases_handles (fun _ => 1) (fun v => v)
                  (fun _ => 0) (fun _ => 0) (fun _ _ => 0) 3)).
  repeat constructor.
Defined.

(** The release calls of that pass: the sound and the emitter of the jet
    that hit the craft, once each. *)
Lemma releases_of_one_collision :
  releases
    (trace (checkCollisions
              (set_jets [jetAt 10 starboard; jetAt 20 farAway] gameStart)))
  = [AudioStop 11; RemoveEmitter 12].
Proof. vm_compute. reflexivity. Qed.

(** ** Particle engine *)

Section ParticleEngine.

Import ParticleSystem.

Lemma update_from_inv (random : nat -> Q) (P : ParticleSystem.t -> Prop) :
  (forall i s, P s -> P (updateAt random i s)) ->
  forall n s, P s -> P (update_from random n s).
Proof.
  intros H n. induction n as [|n IH]; intros s Hs; simpl; auto.
Qed.

Lemma update_from_inv_at (random : nat -> Q)
    (P : nat -> ParticleSystem.t -> Prop) :
  (forall i s, P (S i) s -> P i (updateAt random i s)) ->
  forall n s, P n s -> P 0%nat (update_from random n s).
Proof.
  intros H n. induction n as [|n IH]; intros s Hs; simpl; auto.
Qed.

Section ParticleProofs.

Variable random : nat -> Q.

Lemma updateParticle_oneShot_age (st : Settings) (c : nat) (p : Particle)
    (d : nat) :
  (p_lifetime p <= lifetime st)%Z ->
  (p_lifetime (fst (updateParticle random st true c p d)) <= lifetime st)%Z.
Proof.
  intros H. unfold updateParticle. cbn [negb andb orb].
  rewrite orb_false_r.
  destruct (p_lifetime p <? lifetime st)%Z eqn:E; cbn [fst p_lifetime];
    [|exact H].
  apply Z.ltb_lt in E. lia.
Qed.

Lemma updateParticleList_oneShot_age (st : Settings) (c : nat)
    (l : list Particle) (d : nat) :
  Forall (fun p => (p_lifetime p <= lifetime st)%Z) l ->
  Forall (fun p => (p_lifetime p <= lifetime st)%Z)
         (fst (updateParticleList random st true c l d)).
Proof.
  revert d. induction l as [|p l IH]; intros d H; simpl; [constructor|].
  inversion H as [|? ? Hp Hl]; subst.
  pose proof (updateParticle_oneShot_age st c p d Hp) as Hp'.
  destruct (updateParticle random st true c p d) as [p' d1].
  specialize (IH d1 Hl).
  destruct (updateParticleList random st true c l d1) as [l' d2].
  cbn [fst] in *. now constructor.
Qed.

(** [updateParticles] rewrites the particles and the emission counter. *)
Lemma updateParticles_fields (e : Emitter) (d : nat) :
  let e' := fst (updateParticles random e d) in
  system e' = system e /\ settings e' = settings e
  /\ active e' = active e /\ oneShot e' = oneShot e.
Proof.
  unfold updateParticles.
  destruct (updateParticleList random (settings e) (oneShot e) _ _ d).
  repeat split; reflexivity.
Qed.

Lemma updateParticles_agesBounded (e : Emitter) (d : nat) :
  oneShot e = true -> agesBounded e ->
  agesBounded (fst (updateParticles random e d)).
Proof.
  intros Ho Hb. unfold agesBounded, updateParticles in *. rewrite Ho.
  pose proof (updateParticleList_oneShot_age (settings e)
                ((emissionCounter e + 1) mod emissionRate e) (particles e) d
                Hb) as H.
  destruct (updateParticleList random (settings e) true _ _ d).
  exact H.
Qed.

(** The three outcomes of the loop body of [update] at index [i]. *)
Lemma updateAt_cases (i : nat) (s : ParticleSystem.t) :
  updateAt random i s = s
  \/ exists ps d,
       nth_error (particleSystems s) i = Some ps /\ active ps = true
       /\ let ps' := fst (updateParticles random ps d) in
          (oneShot ps' && allDead ps' = false
           /\ particleSystems (updateAt random i s)
              = store i ps' (particleSystems s)
           /\ scene (updateAt random i s) = scene s)
          \/ (oneShot ps' = true /\ allDead ps' = true
              /\ particleSystems (updateAt random i s)
                 = splice1 i (store i ps' (particleSystems s))
              /\ scene (updateAt random i s)
                 = scene_remove (system ps') (scene s)).
Proof.
  unfold updateAt.
  destruct (nth_error (particleSystems s) i) as [ps|] eqn:E; [|now left].
  destruct (active ps) eqn:Ea; [|now left].
  right. exists ps, (draws s). split; [reflexivity|]. split; [exact Ea|].
  cbv zeta.
  destruct (updateParticles random ps (draws s)) as [ps' d'] eqn:Eu.
  cbn [fst].
  destruct (oneShot ps' && allDead ps') eqn:Eo.
  - right. apply andb_true_iff in Eo. destruct Eo as [Eo1 Eo2].
    repeat split; auto.
  - left. repeat split; auto.
Qed.

Lemma update_agesBounded (s : ParticleSystem.t) :
  oneShotAgesBounded s -> oneShotAgesBounded (update random s).
Proof.
  unfold update. apply update_from_inv. clear s.
  intros i s Hs.
  destruct (updateAt_cases i s) as [-> | (ps & d & Hi & Ha & Hc)]; [exact Hs|].
  cbv zeta in Hc.
  destruct (updateParticles_fields ps d) as (_ & _ & _ & Ho).
  assert (Hps : oneShot (fst (updateParticles random ps d)) = true ->
                agesBounded (fst (updateParticles random ps d))).
  { intros Ho'. apply updateParticles_agesBounded; [congruence|].
    apply Hs; [eapply nth_error_In; eauto | congruence]. }
  intros e He Hoe.
  destruct Hc as [(_ & Hl & _) | (_ & _ & Hl & _)]; rewrite Hl in He.
  - apply In_store in He. destruct He as [-> | He]; auto.
  - apply In_splice1, In_store in He. destruct He as [-> | He]; auto.
Qed.

(** After an update no emitter that is active, one-shot and has only
    dead particles is left in the list. *)
Lemma update_removes_dead (s : ParticleSystem.t) (e : Emitter) :
  In e (particleSystems (update random s)) ->
  active e = true -> oneShot e = true -> allDead e = false.
Proof.
  intros He Ha Ho.
  assert (H : forall j e', (0 <= j)%nat ->
            nth_error (particleSystems (update random s)) j = Some e' ->
            active e' = true -> oneShot e' = true -> allDead e' = false).
  { unfold update.
    apply (update_from_inv_at random
             (fun i v => forall j e', (i <= j)%nat ->
                nth_error (particleSystems v) j = Some e' ->
                active e' = true -> oneShot e' = true -> allDead e' = false)).
    - clear. intros i s IH j e' Hj He' Ha Ho.
      destruct (updateAt_cases i s) as [E | (ps & d & Hi & Hact & Hc)].
      + rewrite E in He'.
        destruct (Nat.eq_dec j i) as [->|Hne]; [|apply (IH j e'); auto; lia].
        unfold updateAt in E. rewrite He' in E. rewrite Ha in E.
        (* the body did something, yet the state is unchanged *)
        destruct (updateParticles random e' (draws s)) as [ps' d'] eqn:Eu.
        pose proof (updateParticles_fields e' (draws s)) as F.
        rewrite Eu in F. cbn [fst] in F. destruct F as (_ & _ & _ & Fo).
        destruct (oneShot ps' && allDead ps') eqn:Eo.
        * apply (f_equal (fun v => length (particleSystems v))) in E.
          cbn [particleSystems] in E.
          rewrite length_splice1, length_store in E;
            [|rewrite length_store]; apply nth_error_in_range in He'; lia.
        * apply (f_equal particleSystems) in E. cbn [particleSystems] in E.
          assert (Hn : nth_error (store i ps' (particleSystems s)) i = Some ps')
            by (apply nth_error_store_same;
                eapply nth_error_in_range; eauto).
          rewrite E, He' in Hn. injection Hn as <-.
          rewrite Ho in Eo. exact Eo.
      + cbv zeta in Hc.
        destruct Hc as [(Hnd & Hl & _) | (_ & _ & Hl & _)]; rewrite Hl in He'.
        * destruct (Nat.eq_dec j i) as [->|Hne].
          -- rewrite nth_error_store_same in He'
               by (eapply nth_error_in_range; eauto).
             injection He' as <-. rewrite Ho in Hnd. exact Hnd.
          -- rewrite nth_error_store_other in He' by exact Hne.
             apply (IH j e'); auto. lia.
        * rewrite nth_error_splice1_ge in He' by exact Hj.
          rewrite nth_error_store_other in He' by lia.
          apply (IH (S j) e'); auto. lia.
    - intros j e' Hj He'. apply nth_error_in_range in He'. lia. }
  apply In_nth_error in He. destruct He as [j Hj].
  apply (H j e); auto. lia.
Qed.

Lemma In_scene_remove (obj x : nat) (sc : list nat) :
  In x (scene_remove obj sc) <-> In x sc /\ x <> obj.
Proof.
  unfold scene_remove. rewrite filter_In, negb_true_iff, Nat.eqb_neq.
  tauto.
Qed.

Lemma map_system_store (i : nat) (e e' : Emitter) (l : list Emitter) :
  nth_error l i = Some e -> system e' = system e ->
  map system (store i e' l) = map system l.
Proof.
  revert i. induction l as [|b l IH]; intros [|i] H E; simpl in *;
    try discriminate.
  - injection H as ->. now rewrite E.
  - f_equal. now apply IH.
Qed.

(** An emitter that has left the list during an update has left the
    scene too. *)
Lemma update_releases_scene (s : ParticleSystem.t) (id : nat) :
  In id (systems s) -> ~ In id (systems (update random s)) ->
  ~ In id (scene (update random s)).
Proof.
  intros Hin. unfold update.
  apply (update_from_inv random
           (fun v => ~ In id (systems v) -> ~ In id (scene v)));
    [|intros H; contradiction].
  clear. intros i s IH Hout.
  destruct (updateAt_cases i s) as [E | (ps & d & Hi & Hact & Hc)].
  - rewrite E in *. auto.
  - cbv zeta in Hc.
    destruct (updateParticles_fields ps d) as (Hsys & _).
    destruct Hc as [(_ & Hl & Hsc) | (_ & _ & Hl & Hsc)];
      unfold systems in *; rewrite Hl in Hout; rewrite Hsc.
    + rewrite (map_system_store i ps) in Hout by assumption. auto.
    + rewrite In_scene_remove. intros [Hs Hne].
      apply IH; [|exact Hs]. intros Hid. apply Hout.
      rewrite <- (map_system_store i ps _ _ Hi Hsys) in Hid.
      apply in_map_iff in Hid. destruct Hid as (x & Hx & Hxin).
      apply in_map_iff.
      destruct (In_splice1_or i (fst (updateParticles random ps d)) x _
                  (nth_error_store_same i _ _
                     (nth_error_in_range _ _ _ Hi)) Hxin) as [-> | Hx'].
      * congruence.
      * exists x. now split.
Qed.

Variable normalize : Vec3 -> Vec3.
Variable colorOf : Z -> Vec3.

Lemma newParticles_age (st : Settings) (dir : Vec3) (n d : nat) :
  (0 <= lifetime st)%Z ->
  Forall (fun p => (p_lifetime p <= lifetime st)%Z)
         (newParticles random normalize colorOf st dir n d).
Proof.
  intros H. revert d. induction n as [|n IH]; intros d; simpl; constructor;
    auto.
Qed.

Lemma createEmitter_agesBounded (type : ParticleType) (p dir : Vec3)
    (o : Options) (s : ParticleSystem.t) :
  oneShotAgesBounded s ->
  oneShotAgesBounded
    (snd (createEmitter random normalize colorOf type p dir o s)).
Proof.
  intros Hs e He Ho. unfold createEmitter in He.
  cbn [snd particleSystems] in He. apply in_app_or in He.
  destruct He as [He | [<- | []]]; [now apply Hs|].
  unfold agesBounded. cbn [particles settings].
  apply newParticles_age. destruct type; cbn; lia.
Qed.

Lemma setEmitterActive_agesBounded (b : bool) (h : option nat)
    (s : ParticleSystem.t) :
  oneShotAgesBounded s -> oneShotAgesBounded (setEmitterActive b h s).
Proof.
  intros Hs e He Ho. destruct h as [id|]; [|now apply Hs].
  cbn [setEmitterActive particleSystems] in He.
  apply in_map_iff in He. destruct He as (x & Hx & Hin).
  destruct (system x =? id)%nat; subst e; [|now apply Hs].
  apply (Hs x Hin Ho).
Qed.

Lemma removeEmitter_agesBounded (h : option nat) (s : ParticleSystem.t) :
  oneShotAgesBounded s -> oneShotAgesBounded (removeEmitter h s).
Proof.
  intros Hs e He Ho. destruct h as [id|]; [|now apply Hs].
  cbn [removeEmitter] in He.
  destruct (indexOf id (particleSystems s)); [|now apply Hs].
  cbn [particleSystems] in He. apply In_splice1 in He. now apply Hs.
Qed.

Lemma updateEmitterPosition_agesBounded (h : option nat) (p : Vec3)
    (s : ParticleSystem.t) :
  oneShotAgesBounded s -> oneShotAgesBounded (updateEmitterPosition h p s).
Proof.
  intros Hs e He Ho. destruct h as [id|]; [|now apply Hs].
  cbn [updateEmitterPosition particleSystems] in He.
  apply in_map_iff in He. destruct He as (x & Hx & Hin).
  destruct (system x =? id)%nat; subst e; [|now apply Hs].
  apply (Hs x Hin Ho).
Qed.

Lemma engineRun_agesBounded (calls : list EngineCall) :
  oneShotAgesBounded (engineRun random normalize colorOf calls).
Proof.
  unfold engineRun.
  assert (H0 : oneShotAgesBounded ParticleSystem.empty)
    by (intros e []).
  revert H0. generalize ParticleSystem.empty.
  induction calls as [|c calls IH]; intros s Hs; [exact Hs|].
  cbn [fold_left]. apply IH.
  destruct c; cbn [engineCall].
  - now apply createEmitter_agesBounded.
  - now apply update_agesBounded.
  - now apply setEmitterActive_agesBounded.
  - now apply setEmitterActive_agesBounded.
  - now apply updateEmitterPosition_agesBounded.
  - now apply removeEmitter_agesBounded.
  - intros e [].
Qed.

(** C7 (amended).  In every state that calls of the interface reach from
    a new engine, no particle of a one-shot emitter in the list is older
    than the lifetime; after a call of [update] every one-shot emitter
    whose active flag is set and that is still in the list has a particle
    younger than the lifetime, so an active one-shot emitter is removed
    by the very call in which its last particle reaches the lifetime; and
    every emitter that left the list during the call has been taken off
    the scene. *)
Theorem C7_active_one_shot_emitters_expire (calls : list EngineCall) :
  let s := engineRun random normalize colorOf calls in
  (forall e p,
      In e (particleSystems s) -> oneShot e = true -> In p (particles e) ->
      (p_lifetime p <= lifetime (settings e))%Z)
  /\ (forall e,
        In e (particleSystems (update random s)) ->
        oneShot e = true -> active e = true ->
        exists p, In p (particles e)
                  /\ (p_lifetime p < lifetime (settings e))%Z)
  /\ (forall id,
        In id (systems s) -> ~ In id (systems (update random s)) ->
        ~ In id (scene (update random s))).
Proof.
  cbv zeta. split; [|split].
  - intros e p He Ho Hp.
    pose proof (engineRun_agesBounded calls e He Ho) as Hb.
    unfold agesBounded in Hb. rewrite Forall_forall in Hb. now apply Hb.
  - intros e He Ho Ha.
    pose proof (update_removes_dead _ e He Ha Ho) as Hd.
    unfold allDead in Hd.
    assert (Hex : existsb (fun p => negb (isDead (settings e) p))
                    (particles e) = true).
    { clear - Hd. induction (particles e) as [|p l IH]; [discriminate|].
      simpl in *. destruct (isDead (settings e) p); simpl in *; auto. }
    apply existsb_exists in Hex. destruct Hex as (p & Hp & Hnd).
    exists p. split; [exact Hp|].
    unfold isDead in Hnd. rewrite negb_involutive in Hnd.
    now apply Z.ltb_lt.
  - intros id. apply update_releases_scene.
Qed.

Lemma indexOf_found (id : nat) (l : list Emitter) (e : Emitter) :
  In e l -> system e = id -> exists i, indexOf id l = Some i.
Proof.
  induction l as [|b l IH]; intros He Hid; [contradiction|].
  simpl. destruct (system b =? id)%nat eqn:E; [eauto|].
  destruct He as [->|He]; [apply Nat.eqb_neq in E; contradiction|].
  destruct (IH He Hid) as [i ->]. eauto.
Qed.

Lemma In_clear_scene (x : nat) (l : list Emitter) (sc : list nat) :
  In x (fold_left (fun sc e => scene_remove (system e) sc) l sc) ->
  In x sc /\ forall e, In e l -> system e <> x.
Proof.
  revert sc. induction l as [|b l IH]; intros sc H; simpl in *.
  - split; [exact H|contradiction].
  - apply IH in H. destruct H as [H1 H2].
    apply In_scene_remove in H1. destruct H1 as [H1 Hne].
    split; [exact H1|]. intros e [<-|He]; auto.
Qed.

(** While every emitter of identity [id] is inactive, the loop body of
    [update] leaves such an emitter and its scene object alone. *)
Lemma updateAt_skips_stopped (id i : nat) (e : Emitter) (s : ParticleSystem.t) :
  (forall x, In x (particleSystems s) -> system x = id -> active x = false) ->
  system e = id ->
  (forall x, In x (particleSystems (updateAt random i s)) ->
             system x = id -> active x = false)
  /\ (In e (particleSystems s) -> In e (particleSystems (updateAt random i s)))
  /\ (In id (scene s) -> In id (scene (updateAt random i s))).
Proof.
  intros K He.
  destruct (updateAt_cases i s) as [-> | (ps & d & Hi & Hact & Hc)];
    [repeat split; auto|].
  cbv zeta in Hc.
  destruct (updateParticles_fields ps d) as (Hsys & _ & Hact' & _).
  assert (Hps : system ps <> id).
  { intros Hid. rewrite (K ps (nth_error_In _ _ Hi) Hid) in Hact.
    discriminate. }
  assert (Hne : e <> ps) by congruence.
  set (ps' := fst (updateParticles random ps d)) in *.
  assert (Hin : In e (particleSystems s) ->
                In e (store i ps' (particleSystems s)))
    by (apply In_store_other with (a := ps); auto).
  assert (Hk : forall x, In x (store i ps' (particleSystems s)) ->
                         system x = id -> active x = false).
  { intros x Hx Hid. apply In_store in Hx.
    destruct Hx as [-> | Hx]; [congruence | auto]. }
  destruct Hc as [(_ & Hl & Hsc) | (_ & _ & Hl & Hsc)]; rewrite Hl, Hsc.
  - repeat split; auto.
  - repeat split.
    + intros x Hx. apply In_splice1 in Hx. auto.
    + intros Hx.
      destruct (In_splice1_or i ps' e (store i ps' (particleSystems s)))
        as [-> | H]; auto.
      * apply nth_error_store_same. eapply nth_error_in_range; eauto.
      * congruence.
    + intros Hx. apply In_scene_remove. split; [exact Hx|congruence].
Qed.

(** C10.  Once [stopEmitter] has been called on an emitter, every emitter
    of that identity in the list is inactive, and no number of [update]
    calls changes it, removes it from the list or takes its points
    object off the scene, whatever the age of its particles; an explicit
    [removeEmitter] or [clear] does release the scene object. *)
Theorem C10_stopped_emitter_is_never_collected (s : ParticleSystem.t)
    (id n : nat) (e : Emitter) :
  let s1 := stopEmitter (Some id) s in
  let sn := Nat.iter n (update random) s1 in
  In e (particleSystems s1) -> system e = id ->
  active e = false
  /\ In e (particleSystems sn)
  /\ (In id (scene s1) -> In id (scene sn))
  /\ ~ In id (scene (removeEmitter (Some id) sn))
  /\ particleSystems (clear sn) = []
  /\ ~ In id (scene (clear sn)).
Proof.
  cbv zeta. intros He Hid.
  assert (K1 : forall x, In x (particleSystems (stopEmitter (Some id) s)) ->
                         system x = id -> active x = false).
  { intros x Hx Hx'. cbn [stopEmitter setEmitterActive particleSystems] in Hx.
    apply in_map_iff in Hx. destruct Hx as (y & Hy & _).
    destruct (system y =? id)%nat eqn:E; subst x; [reflexivity|].
    apply Nat.eqb_neq in E. contradiction. }
  set (s1 := stopEmitter (Some id) s) in *.
  assert (Hn : (forall x, In x (particleSystems (Nat.iter n (update random) s1))
                          -> system x = id -> active x = false)
               /\ In e (particleSystems (Nat.iter n (update random) s1))
               /\ (In id (scene s1) ->
                   In id (scene (Nat.iter n (update random) s1)))).
  { induction n as [|m (IK & IE & IS)]; [repeat split; auto|].
    rewrite Nat.iter_succ. unfold update at 1 3 5.
    apply (update_from_inv random
             (fun v => (forall x, In x (particleSystems v) ->
                                  system x = id -> active x = false)
                       /\ In e (particleSystems v)
                       /\ (In id (scene s1) -> In id (scene v))));
      [|repeat split; auto].
    intros i v (VK & VE & VS).
    destruct (updateAt_skips_stopped id i e v VK Hid) as (A & B & C).
    repeat split; auto. }
  destruct Hn as (HK & HE & HS).
  split; [now apply K1|]. split; [exact HE|]. split; [exact HS|].
  split; [|split].
  - cbn [removeEmitter].
    destruct (indexOf_found id _ e HE Hid) as [i ->]. cbn [scene].
    rewrite In_scene_remove. tauto.
  - reflexivity.
  - cbn [clear scene]. intros H. apply In_clear_scene in H.
    destruct H as [_ H]. exact (H e HE Hid).
Qed.

End ParticleProofs.

End ParticleEngine.

(** C7 as stated fails for a one-shot emitter whose active flag has been
    cleared: with no particle left alive (an empty burst stopped at once,
    or a stopped emitter whose only particle has reached the lifetime)
    it is still in the list and on the scene after two updates. *)
Lemma C7_stopped_emitter_is_not_removed :
  let update2 s := ParticleSystem.update (fun _ => 1 # 2)
                     (ParticleSystem.update (fun _ => 1 # 2) s) in
  (map ParticleSystem.oneShot (ParticleSystem.particleSystems emptyBurst)
   = [true]
   /\ map ParticleSystem.allDead (ParticleSystem.particleSystems emptyBurst)
      = [true]
   /\ update2 emptyBurst = emptyBurst
   /\ ParticleSystem.scene (update2 emptyBurst) = [0%nat])
  /\ (ParticleSystem.allDead (sparkleEmitter false 20) = true
      /\ update2 (oneSparkle false 20) = oneSparkle false 20).
Proof. vm_compute. repeat split; reflexivity. Qed.

(** C7 (amended), for that emitter: the twentieth update removes it from
    the list, hence from the scene. *)
Lemma C7_active_one_shot_emitters_expire_witness :
  ~ In 0%nat
       (ParticleSystem.scene
          (ParticleSystem.update (fun _ => 1 # 2)
             (engineRun (fun _ => 1 # 2) (fun v => v) (fun _ => vzero)
                fadingSparkle))).
Proof.
  apply (C7_active_one_shot_emitters_expire (fun _ => 1 # 2) (fun v => v)
           (fun _ => vzero) fadingSparkle).
  - vm_compute. auto.
  - vm_compute. auto.
Defined.

(** C10, for a one-shot emitter stopped at age 5: after 30 more updates,
    ten beyond its lifetime, it is in the list as it was. *)
Lemma C10_stopped_emitter_is_never_collected_witness :
  In stoppedSparkle
     (ParticleSystem.particleSystems
        (Nat.iter 30 (ParticleSystem.update (fun _ => 1 # 2))
           (ParticleSystem.stopEmitter (Some 0%nat) youngSparkle))).
Proof.
  assert (Hin : In stoppedSparkle
                  (ParticleSystem.particleSystems
                     (ParticleSystem.stopEmitter (Some 0%nat) youngSparkle)))
    by (vm_compute; auto).
  assert (Hid : ParticleSystem.system stoppedSparkle = 0%nat)
    by (vm_compute; reflexivity).
  exact (proj1 (proj2 (C10_stopped_emitter_is_never_collected
                         (fun _ => 1 # 2) youngSparkle 0 30 stoppedSparkle
                         Hin Hid))).
Defined.

(** ** Speed clamp *)

Section SpeedClamp.

Import UfoPhysics.
Local Open Scope R_scope.

Lemma lengthSqR_nonneg (a : Vector3) : 0 <= lengthSqR a.
Proof. unfold lengthSqR. nra. Qed.

Lemma length_sqr (a : Vector3) : length a * length a = lengthSqR a.
Proof. unfold length. apply sqrt_sqrt. apply lengthSqR_nonneg. Qed.

Lemma length_nonneg (a : Vector3) : 0 <= length a.
Proof. unfold length. apply sqrt_pos. Qed.

Lemma length_le_of_sq (a : Vector3) (m : R) :
  0 <= m -> lengthSqR a <= m * m -> length a <= m.
Proof.
  intros Hm H. pose proof (length_nonneg a). pose proof (length_sqr a).
  nra.
Qed.

Lemma sq_le_of_length (a : Vector3) (m : R) :
  length a <= m -> lengthSqR a <= m * m.
Proof.
  intros H. pose proof (length_nonneg a). rewrite <- length_sqr. nra.
Qed.

(** After the clamp the squared speed is at most MAX_SPEED squared. *)
Lemma limitSpeed_bound (v : Vector3) :
  lengthSqR (limitSpeed v) <= MAX_SPEED * MAX_SPEED.
Proof.
  unfold limitSpeed.
  destruct (Rlt_dec MAX_SPEED (length v)) as [Hgt | Hle].
  - unfold normalize.
    assert (Hpos : 0 < length v) by (unfold MAX_SPEED in Hgt; lra).
    destruct (Req_dec_T (length v) 0) as [E | _]; [lra|].
    unfold lengthSqR, multiplyScalar. cbn [x y z].
    pose proof (length_sqr v) as Hs. unfold lengthSqR in Hs.
    apply Req_le.
    replace (x v * (1 / length v) * MAX_SPEED * (x v * (1 / length v) * MAX_SPEED)
             + y v * (1 / length v) * MAX_SPEED * (y v * (1 / length v) * MAX_SPEED)
             + z v * (1 / length v) * MAX_SPEED * (z v * (1 / length v) * MAX_SPEED))
      with ((x v * x v + y v * y v + z v * z v)
            * (MAX_SPEED * MAX_SPEED) / (length v * length v))
      by (field; lra).
    rewrite <- Hs. field. lra.
  - apply sq_le_of_length. lra.
Qed.


End SpeedClamp.

(** ** High-score table and game state *)

Section HighScores.

Import GameStateManager.

Lemma insertDesc_perm (s : Z) (l : list Z) :
  Permutation (s :: l) (insertDesc s l).
Proof.
  induction l as [|x t IH]; simpl; [reflexivity|].
  destruct (x <=? s)%Z; [reflexivity|].
  rewrite perm_swap. now constructor.
Qed.

Lemma sortDesc_perm (l : list Z) : Permutation l (sortDesc l).
Proof.
  induction l as [|x t IH]; simpl; [constructor|].
  rewrite <- insertDesc_perm. now constructor.
Qed.

Lemma insertDesc_sorted (s : Z) (l : list Z) :
  StronglySorted Z.ge l -> StronglySorted Z.ge (insertDesc s l).
Proof.
  induction 1 as [|x t Hs IH Hx]; simpl.
  - repeat constructor.
  - destruct (x <=? s)%Z eqn:E.
    + apply Z.leb_le in E. constructor; [now constructor|].
      constructor; [lia|]. rewrite Forall_forall in *. intros y Hy.
      specialize (Hx y Hy). lia.
    + apply Z.leb_gt in E. constructor; [exact IH|].
      rewrite Forall_forall in *. intros y Hy.
      apply (Permutation_in _ (Permutation_sym (insertDesc_perm s t))) in Hy.
      destruct Hy as [<-|Hy]; [lia|auto].
Qed.

Lemma sortDesc_sorted (l : list Z) : StronglySorted Z.ge (sortDesc l).
Proof.
  induction l; simpl; [constructor|now apply insertDesc_sorted].
Qed.

Lemma StronglySorted_firstn (n : nat) (l : list Z) :
  StronglySorted Z.ge l -> StronglySorted Z.ge (firstn n l).
Proof.
  intros H. revert n. induction H as [|x t Hs IH Hx]; intros [|n]; simpl;
    try constructor; auto.
  rewrite Forall_forall in *. intros y Hy. apply Hx.
  rewrite <- (firstn_skipn n t). apply in_or_app. now left.
Qed.

(** In a list sorted from the highest down, nothing behind a cut beats
    anything in front of it. *)
Lemma StronglySorted_split (n : nat) (l : list Z) (x y : Z) :
  StronglySorted Z.ge l -> In x (firstn n l) -> In y (skipn n l) ->
  (y <= x)%Z.
Proof.
  intros H. revert n. induction H as [|a t Hs IH Ha]; intros n Hx Hy.
  - destruct n; contradiction.
  - destruct n as [|n]; [contradiction|]. simpl in Hx, Hy.
    destruct Hx as [<-|Hx].
    + rewrite Forall_forall in Ha.
      assert (Hin : In y t)
        by (rewrite <- (firstn_skipn n t); apply in_or_app; auto).
      specialize (Ha y Hin). lia.
    + eauto.
Qed.

Lemma filter_length_perm (p : Z -> bool) (l l' : list Z) :
  Permutation l l' -> length (filter p l) = length (filter p l').
Proof.
  induction 1; simpl; auto; try congruence.
  - destruct (p x); simpl; congruence.
  - destruct (p x), (p y); reflexivity.
Qed.

Lemma filter_all (p : Z -> bool) (l : list Z) :
  (forall x, In x l -> p x = true) -> filter p l = l.
Proof.
  induction l as [|a l IH]; intros H; simpl; [reflexivity|].
  rewrite (H a) by now left. f_equal. apply IH. intros x Hx. apply H.
  now right.
Qed.

Lemma filter_In_length (p : Z -> bool) (l : list Z) (x : Z) :
  In x l -> p x = true -> (1 <= length (filter p l))%nat.
Proof.
  induction l as [|a l IH]; intros Hx Hp; [contradiction|].
  simpl. destruct Hx as [->|Hx].
  - rewrite Hp. simpl. lia.
  - destruct (p a); simpl; [lia|auto].
Qed.

(** The table after [saveHighScore]: what it holds and what it drops. *)
Lemma saveHighScore_table (s : Z) (old : list Z) :
  let t := firstn 5 (sortDesc (old ++ [s])) in
  length t = Nat.min 5 (S (length old))
  /\ StronglySorted Z.ge t
  /\ (forall x, In x t -> x = s \/ In x old)
  /\ (forall x y, In x (old ++ [s]) -> ~ In x t -> In y t -> (x <= y)%Z)
  /\ ((length (filter (fun x => (s <=? x)%Z) old) < 5)%nat -> In s t).
Proof.
  cbv zeta. set (l := sortDesc (old ++ [s])).
  assert (Hp : Permutation (old ++ [s]) l) by apply sortDesc_perm.
  assert (Hs : StronglySorted Z.ge l) by apply sortDesc_sorted.
  assert (Hl : length l = S (length old)).
  { rewrite <- (Permutation_length Hp), length_app. simpl. lia. }
  assert (Hdrop : forall x, In x (old ++ [s]) -> ~ In x (firstn 5 l) ->
                            In x (skipn 5 l)).
  { intros x Hx Hn. apply (Permutation_in _ Hp) in Hx.
    rewrite <- (firstn_skipn 5 l) in Hx. apply in_app_or in Hx. tauto. }
  split; [|split; [|split; [|split]]].
  - rewrite length_firstn, Hl. reflexivity.
  - now apply StronglySorted_firstn.
  - intros x Hx.
    assert (Hin : In x l)
      by (rewrite <- (firstn_skipn 5 l); apply in_or_app; auto).
    apply (Permutation_in _ (Permutation_sym Hp)) in Hin.
    apply in_app_or in Hin. destruct Hin as [H|[H|[]]]; auto.
  - intros x y Hx Hn Hy. eapply StronglySorted_split; eauto.
  - intros Hc.
    destruct (in_dec Z.eq_dec s (firstn 5 l)) as [Hin|Hn]; [exact Hin|].
    exfalso.
    assert (Hsk : In s (skipn 5 l)).
    { apply Hdrop; [apply in_or_app; right; now left|exact Hn]. }
    set (p := fun x => (s <=? x)%Z) in *.
    assert (H5 : length (firstn 5 l) = 5%nat).
    { rewrite length_firstn, Hl.
      assert (length (skipn 5 l) <> 0)%nat
        by (destruct (skipn 5 l); [contradiction|discriminate]).
      rewrite length_skipn, Hl in H. lia. }
    assert (Hf : filter p (firstn 5 l) = firstn 5 l).
    { apply filter_all. intros x Hx. apply Z.leb_le.
      eapply StronglySorted_split; eauto. }
    assert (Hlen : length (filter p l)
                   = S (length (filter p old))).
    { rewrite <- (filter_length_perm p _ _ Hp), filter_app, length_app.
      simpl. unfold p at 2. rewrite Z.leb_refl. simpl. lia. }
    rewrite <- (firstn_skipn 5 l), filter_app, length_app, Hf, H5 in Hlen.
    pose proof (filter_In_length p _ s Hsk (Z.leb_refl s)). lia.
Qed.

(** X1.  [saveHighScore] keeps a table of at most five scores, the list
    before the call with the new score added, cut to five: the table is
    sorted from the highest score down, every entry is the new score or
    an earlier entry, and a score that is left out is beaten or equalled
    by every score that is kept. *)
Theorem saveHighScore_keeps_top_five (s : Z) (g : GameStateManager.t) :
  let t := highScores (saveHighScore s g) in
  length t = Nat.min 5 (S (length (highScores g)))
  /\ StronglySorted Z.ge t
  /\ (forall x, In x t -> x = s \/ In x (highScores g))
  /\ (forall x y, In x (highScores g ++ [s]) -> ~ In x t -> In y t ->
                  (x <= y)%Z).
Proof.
  cbv zeta. cbn [saveHighScore highScores].
  pose proof (saveHighScore_table s (highScores g)) as H. cbv zeta in H.
  tauto.
Qed.

(** X2.  [updateHealth] stores the value it is given.  A value of zero
    or less ends the game: the state becomes GAME_OVER, the game is no
    longer active, [endGame] is entered once, and the score is filed in
    the table unless five stored scores are at least as high.  A
    positive value changes nothing else. *)
Theorem updateHealth_ends_game_at_zero (h : Z) (g : GameStateManager.t) :
  let g' := updateHealth h g in
  health g' = h /\ score g' = score g
  /\ ((h <= 0)%Z ->
      currentState g' = GAME_OVER /\ isGameActive g' = false
      /\ calls g' = calls g ++ [CallEndGame (score g)]
      /\ ((length (filter (fun x => (score g <=? x)%Z) (highScores g)) < 5)%nat
          -> In (score g) (highScores g')))
  /\ ((0 < h)%Z ->
      currentState g' = currentState g /\ highScores g' = highScores g
      /\ calls g' = calls g).
Proof.
  cbv zeta. unfold updateHealth. cbn [health score currentState highScores calls].
  destruct (h <=? 0)%Z eqn:E.
  - apply Z.leb_le in E.
    split; [reflexivity|]. split; [reflexivity|]. split; [|intros; lia].
    intros _. split; [reflexivity|]. split; [reflexivity|].
    split; [reflexivity|].
    cbn [endGame changeState saveHighScore highScores score health calls
         currentState].
    pose proof (saveHighScore_table (score g) (highScores g)) as T.
    cbv zeta in T. tauto.
  - apply Z.leb_gt in E.
    split; [reflexivity|]. split; [reflexivity|]. split; [intros; lia|].
    intros _. repeat split.
Qed.

(** X3.  The key P switches between PLAYING and PAUSED and does nothing
    in the other states: pressing it twice gives back the manager as it
    was, and the game is active after a press exactly when it was paused
    before. *)
Theorem keyP_toggles_pause (g : GameStateManager.t) :
  keyP (keyP g) = g
  /\ (isGameActive (keyP g) = true <-> currentState g = PAUSED)
  /\ (currentState (keyP g) = PAUSED <-> currentState g = PLAYING).
Proof.
  destruct g as [st sc he hs cs].
  destruct st; cbn; repeat split; intros; try reflexivity; try discriminate.
Qed.

End HighScores.

(** ** Score, herd, spawning, collisions, start and restart *)

Lemma forEach_keeps {W A B : Type} (arr : W -> list A)
    (callback : A -> nat -> W -> W) (f : W -> B) :
  (forall a k v, f (callback a k v) = f v) ->
  forall w, f (forEach arr callback w) = f w.
Proof.
  intros H w.
  apply (forEach_inv arr callback (fun v => f v = f w)); [|reflexivity].
  intros a k v _ Hv. now rewrite H.
Qed.

Ltac unchanged :=
  unfold collideJet, collideMissile, stepMissile, stepJet, createMissileModel,
    idleCow, damagePlayer, createExplosion, releaseJet, releaseMissile,
    removeExhaust, stopEngineSound, GameStateManager.updateHealth, fresh, draw;
  cbv zeta; by_cases.

Lemma score_damagePlayer (w : World) :
  playerScore (damagePlayer w) = playerScore w.
Proof. unfold playerScore. unchanged. Qed.

Lemma cows_damagePlayer (w : World) : cows (damagePlayer w) = cows w.
Proof. unchanged. Qed.

Lemma ufo_damagePlayer (w : World) :
  ufo_position (damagePlayer w) = ufo_position w
  /\ ufo_radius (damagePlayer w) = ufo_radius w.
Proof. split; unchanged. Qed.

Lemma collideJet_frame (a : Jet) (k : nat) (v : World) :
  cows (collideJet a k v) = cows v
  /\ playerScore (collideJet a k v) = playerScore v
  /\ ufo_position (collideJet a k v) = ufo_position v
  /\ ufo_radius (collideJet a k v) = ufo_radius v
  /\ missiles (collideJet a k v) = missiles v.
Proof. unfold playerScore. repeat split; unchanged. Qed.

Lemma collideMissile_frame (a : Missile) (k : nat) (v : World) :
  cows (collideMissile a k v) = cows v
  /\ playerScore (collideMissile a k v) = playerScore v
  /\ ufo_position (collideMissile a k v) = ufo_position v
  /\ ufo_radius (collideMissile a k v) = ufo_radius v
  /\ jets (collideMissile a k v) = jets v.
Proof. unfold playerScore. repeat split; unchanged. Qed.

Lemma stepMissile_frame (a : Missile) (k : nat) (v : World) :
  cows (stepMissile a k v) = cows v
  /\ playerScore (stepMissile a k v) = playerScore v.
Proof. unfold playerScore. repeat split; unchanged. Qed.

Section Passes.
Variable random : nat -> Q.
Variable normalize : Vec3 -> Vec3.
Variable Math_sin : Q -> Q.
Variable Math_cos : Q -> Q.
Variable Math_atan2 : Q -> Q -> Q.
Variable Math_PI : Q.

Lemma stepJet_frame (now : Z) (a : Jet) (k : nat) (v : World) :
  cows (stepJet normalize Math_atan2 now a k v) = cows v
  /\ playerScore (stepJet normalize Math_atan2 now a k v) = playerScore v
  /\ lastJetSpawn (stepJet normalize Math_atan2 now a k v) = lastJetSpawn v.
Proof. unfold playerScore. repeat split; unchanged. Qed.

Lemma spawnIfDue_frame (now : Z) (w : World) :
  cows (spawnIfDue random Math_sin Math_cos Math_PI now w) = cows w
  /\ playerScore (spawnIfDue random Math_sin Math_cos Math_PI now w)
     = playerScore w.
Proof.
  unfold spawnIfDue, spawnJet, createJetModel, playerScore.
  split; unchanged.
Qed.


Lemma cowFollows_refl (c : Cow) : cowFollows c c.
Proof. split; [reflexivity|]. intros H. split; [exact H|apply Qle_refl]. Qed.

Lemma cowFollows_trans (a b c : Cow) :
  cowFollows a b -> cowFollows b c -> cowFollows a c.
Proof.
  intros (I1 & H1) (I2 & H2). split; [congruence|].
  intros Ha. destruct (H1 Ha) as (Hb & L1). destruct (H2 Hb) as (Hc & L2).
  split; [exact Hc|]. eapply Qle_trans; eauto.
Qed.

Lemma herdFollows_refl (l : list Cow) : herdFollows l l.
Proof.
  unfold herdFollows. rewrite Forall_forall. intros c Hc. exists c.
  split; [exact Hc|apply cowFollows_refl].
Qed.

Lemma herdFollows_trans (l1 l2 l3 : list Cow) :
  herdFollows l1 l2 -> herdFollows l2 l3 -> herdFollows l1 l3.
Proof.
  unfold herdFollows. rewrite !Forall_forall. intros H1 H2 c3 H3.
  destruct (H2 c3 H3) as (c2 & Hc2 & F2).
  destruct (H1 c2 Hc2) as (c1 & Hc1 & F1).
  exists c1. split; [exact Hc1|]. eapply cowFollows_trans; eauto.
Qed.

(** Rewriting the cow at an index by a later state of it, or removing
    it, gives a herd that follows. *)
Lemma herdFollows_store (l : list Cow) (k : nat) (a a' : Cow) :
  nth_error l k = Some a -> cowFollows a a' -> herdFollows l (store k a' l).
Proof.
  intros Hk Hf. unfold herdFollows. rewrite Forall_forall. intros c Hc.
  apply In_store in Hc. destruct Hc as [->|Hc].
  - exists a. split; [eapply nth_error_In; eauto|exact Hf].
  - exists c. split; [exact Hc|apply cowFollows_refl].
Qed.

Lemma herdFollows_splice1 (l : list Cow) (k : nat) :
  herdFollows l (splice1 k l).
Proof.
  unfold herdFollows. rewrite Forall_forall. intros c Hc.
  apply In_splice1 in Hc. exists c. split; [exact Hc|apply cowFollows_refl].
Qed.

Lemma cowFollows_pullCow (u : Vec3) (a : Cow) : cowFollows a (pullCow u a).
Proof.
  split; [reflexivity|]. intros _. split; [reflexivity|].
  cbn [pullCow abductionProgress]. unfold BEAM_STRENGTH.
  rewrite <- (Qplus_0_r (abductionProgress a)) at 1.
  apply Qplus_le_r. discriminate.
Qed.

Lemma cowFollows_startAbduction (a : Cow) :
  isBeingAbducted a = false -> cowFollows a (startAbduction a).
Proof. intros H. split; [reflexivity|]. rewrite H. discriminate. Qed.

(** One call of the beam callback: the score grows by 100 exactly when
    the cow leaves the registry, and no abduction is undone. *)
Lemma abductCow_herd (a : Cow) (k : nat) (v : World) :
  nth_error (cows v) k = Some a ->
  herdBalance (abductCow a k v) = herdBalance v
  /\ (length (cows (abductCow a k v)) <= length (cows v))%nat
  /\ herdFollows (cows v) (cows (abductCow a k v)).
Proof.
  intros Hk. pose proof (nth_error_in_range _ _ _ Hk) as Hlt.
  unfold abductCow, herdBalance, playerScore, fresh.
  destruct (isBeingAbducted a) eqn:Ea; cbn [negb].
  - cbn [ufo_position set_cows]. destruct (abductionComplete _ _).
    + cbn [cows set_cows emit set_nextId set_gameStateManager
           set_currentSpawnInterval gameStateManager
           GameStateManager.updateScore GameStateManager.score].
      rewrite length_splice1 by (now rewrite length_store).
      rewrite length_store. split; [lia|]. split; [lia|].
      eapply herdFollows_trans; [|apply herdFollows_splice1].
      eapply herdFollows_store; eauto. apply cowFollows_pullCow.
    + cbn [cows set_cows gameStateManager]. rewrite length_store.
      split; [reflexivity|]. split; [lia|].
      eapply herdFollows_store; eauto. apply cowFollows_pullCow.
  - destruct (inBeam _ _).
    + cbn [cows set_cows emit gameStateManager]. rewrite length_store.
      split; [reflexivity|]. split; [lia|].
      eapply herdFollows_store; eauto. now apply cowFollows_startAbduction.
    + split; [reflexivity|]. split; [lia|apply herdFollows_refl].
Qed.

Lemma idleCow_herd (a : Cow) (k : nat) (v : World) :
  nth_error (cows v) k = Some a ->
  herdBalance (idleCow random Math_sin a k v) = herdBalance v
  /\ length (cows (idleCow random Math_sin a k v)) = length (cows v)
  /\ herdFollows (cows v) (cows (idleCow random Math_sin a k v)).
Proof.
  intros Hk. unfold idleCow, herdBalance, playerScore, draw.
  destruct (isBeingAbducted a) eqn:Ea; cbn [negb];
    [split; [reflexivity|split; [reflexivity|apply herdFollows_refl]]|].
  destruct (Qltb _ _);
    cbn [cows set_cows set_draws gameStateManager]; rewrite length_store;
    (split; [reflexivity|split; [reflexivity|]]);
    (eapply herdFollows_store; [exact Hk|]);
    (split; [reflexivity|]); cbn [isBeingAbducted abductionProgress];
    intros H; congruence.
Qed.


Lemma herdStep_refl (w : World) : herdStep w w.
Proof.
  split; [reflexivity|]. split; [lia|apply herdFollows_refl].
Qed.

Lemma herdStep_trans (a b c : World) :
  herdStep a b -> herdStep b c -> herdStep a c.
Proof.
  intros (B1 & L1 & F1) (B2 & L2 & F2).
  split; [congruence|]. split; [lia|]. eapply herdFollows_trans; eauto.
Qed.

Lemma herdStep_same (w w' : World) :
  cows w' = cows w -> playerScore w' = playerScore w -> herdStep w w'.
Proof.
  intros Hc Hs. unfold herdStep, herdBalance. rewrite Hc, Hs.
  split; [reflexivity|]. split; [lia|apply herdFollows_refl].
Qed.

Lemma herdStep_perform (w : World) (a : Action) :
  isFrameAction a = true ->
  herdStep w (perform random normalize Math_sin Math_cos Math_atan2 Math_PI
                w a).
Proof.
  destruct a as [ks u| |now| | |now|now]; intros Ha; try discriminate;
    cbn [perform].
  - (* tractor beam *)
    set (w0 := set_keys ks (set_ufo_position u w)).
    assert (H0 : herdStep w w0) by (apply herdStep_same; reflexivity).
    eapply herdStep_trans; [exact H0|].
    unfold updateTractorBeam. cbv zeta.
    match goal with
    | |- herdStep _ (if tractorBeam_visible ?x then _ else _) =>
        assert (Hx : herdStep w0 x)
          by (apply herdStep_same; by_cases);
        destruct (tractorBeam_visible x); [|exact Hx];
        eapply herdStep_trans; [exact Hx|]
    end.
    match goal with
    | |- herdStep _ (forEach cows abductCow ?y) =>
        apply (forEach_inv cows abductCow (fun v => herdStep _ v))
    end.
    + intros c k v Hk Hv. eapply herdStep_trans; [exact Hv|].
      now apply abductCow_herd.
    + apply herdStep_same; unfold beamSparkle, draw, fresh; by_cases.
  - (* cows *)
    unfold updateCows.
    apply (forEach_inv cows (idleCow random Math_sin) (fun v => herdStep w v));
      [|apply herdStep_refl].
    intros c k v Hk Hv. eapply herdStep_trans; [exact Hv|].
    destruct (idleCow_herd c k v Hk) as (B & L & F).
    split; [exact B|]. split; [lia|exact F].
  - (* jets *)
    unfold updateJets. apply herdStep_same.
    + etransitivity; [apply forEach_keeps|apply spawnIfDue_frame].
      intros. apply stepJet_frame.
    + etransitivity; [apply forEach_keeps|apply spawnIfDue_frame].
      intros. apply stepJet_frame.
  - (* missiles *)
    unfold updateMissiles. apply herdStep_same; apply forEach_keeps; intros;
      apply stepMissile_frame.
  - (* collisions *)
    unfold checkCollisions. apply herdStep_same.
    + etransitivity; [apply forEach_keeps|apply forEach_keeps]; intros.
      * apply collideMissile_frame.
      * apply collideJet_frame.
    + etransitivity; [apply forEach_keeps|apply forEach_keeps]; intros.
      * apply collideMissile_frame.
      * apply collideJet_frame.
Qed.

Lemma herdStep_performAll (acts : list Action) (w : World) :
  forallb isFrameAction acts = true ->
  herdStep w (performAll random normalize Math_sin Math_cos Math_atan2 Math_PI
                acts w).
Proof.
  revert w. induction acts as [|a acts IH]; intros w H;
    [apply herdStep_refl|].
  simpl in H. apply andb_prop in H. destruct H as (Ha & Hr).
  unfold performAll. simpl. eapply herdStep_trans.
  - apply herdStep_perform. exact Ha.
  - apply IH. exact Hr.
Qed.


(** X4.  Over any run of frame passes (beam, cows, jets, missiles,
    collisions, in any order and with any input), the herd never grows
    and the score has risen by exactly 100 for every cow that has left
    the registry. *)
Theorem score_counts_abducted_cows (acts : list Action) (w : World) :
  forallb isFrameAction acts = true ->
  let w' := performAll random normalize Math_sin Math_cos Math_atan2 Math_PI
              acts w in
  (length (cows w') <= length (cows w))%nat
  /\ playerScore w'
     = (playerScore w
        + 100 * Z.of_nat (length (cows w) - length (cows w')))%Z.
Proof.
  intros H. cbv zeta.
  destruct (herdStep_performAll acts w H) as (B & L & _).
  split; [exact L|]. unfold herdBalance in B. lia.
Qed.

(** X5.  Over any run of frame passes, every cow in the registry is a
    later state of a cow that was there at the start, and a cow that
    was being abducted still is, with no less progress: releasing the
    beam key, the idle animation and the other passes never return a cow
    to the ground. *)
Theorem abduction_is_never_undone (acts : list Action) (w : World) :
  forallb isFrameAction acts = true ->
  herdFollows (cows w)
    (cows (performAll random normalize Math_sin Math_cos Math_atan2 Math_PI
             acts w)).
Proof.
  intros H. now destruct (herdStep_performAll acts w H) as (_ & _ & F).
Qed.

(** *** Spawning *)

Lemma incl_splice1 {A : Type} (k : nat) (l : list A) : incl (splice1 k l) l.
Proof. intros x. apply In_splice1. Qed.

Lemma map_splice1 {A B : Type} (h : A -> B) (k : nat) (l : list A) :
  map h (splice1 k l) = splice1 k (map h l).
Proof.
  revert k. induction l as [|a l IH]; intros [|k]; simpl; auto.
  now rewrite IH.
Qed.

Lemma stepJet_ids (now : Z) (a : Jet) (k : nat) (v : World) :
  nth_error (jets v) k = Some a ->
  incl (map jet_id (jets (stepJet normalize Math_atan2 now a k v)))
       (map jet_id (jets v)).
Proof.
  intros Hk. unfold stepJet. cbv zeta.
  match goal with
  | |- context [store k ?j (jets ?x)] =>
      assert (Hj : jets x = jets v)
        by (unfold createMissileModel, fresh; by_cases);
      assert (Hs : map jet_id (store k j (jets x)) = map jet_id (jets v))
        by (rewrite Hj; apply (map_store_same jet_id k a); auto)
  end.
  destruct (jetOutOfBounds _ _).
  - cbn [jets set_jets].
    match goal with
    | |- context [jets (releaseJet ?j ?x)] =>
        rewrite (proj1 (releaseJet_state j x))
    end.
    cbn [jets set_jets]. rewrite map_splice1, Hs. apply incl_splice1.
  - cbn [jets set_jets]. rewrite Hs. apply incl_refl.
Qed.

(** X6.  [updateJets] spawns a jet only when more than
    [currentSpawnInterval] milliseconds have passed since the last
    spawn, and then exactly one: the jets after the call are jets from
    before, or the new one.  A spawn stamps [lastJetSpawn] with the
    current time, so that no call within the interval spawns again. *)
Theorem updateJets_spawns_on_schedule (now : Z) (w : World) :
  let w' := updateJets random normalize Math_sin Math_cos Math_atan2 Math_PI
              now w in
  lastJetSpawn w' = (if spawnDue now w then now else lastJetSpawn w)
  /\ incl (map jet_id (jets w'))
          (map jet_id (jets w) ++ (if spawnDue now w then [nextId w] else []))
  /\ (spawnDue now w = true ->
      forall t, inject_Z (t - now) <= currentSpawnInterval w ->
                spawnDue t w' = false).
Proof.
  cbv zeta.
  assert (HL : lastJetSpawn
                 (updateJets random normalize Math_sin Math_cos Math_atan2
                    Math_PI now w)
               = if spawnDue now w then now else lastJetSpawn w).
  { unfold updateJets. etransitivity.
    - apply (forEach_keeps jets (stepJet normalize Math_atan2 now)
               lastJetSpawn).
      intros. apply stepJet_frame.
    - unfold spawnIfDue. destruct (spawnDue now w); reflexivity. }
  split; [exact HL|]. split.
  - unfold updateJets.
    apply (forEach_inv jets (stepJet normalize Math_atan2 now)
             (fun v => incl (map jet_id (jets v)) _)).
    + intros a k v Hk Hv. eapply incl_tran; [|exact Hv].
      now apply stepJet_ids.
    + unfold spawnIfDue. destruct (spawnDue now w).
      * unfold spawnJet, createJetModel, fresh, draw.
        cbn [jets set_jets set_lastJetSpawn emit set_nextId set_draws
             jet_id nextId].
        rewrite map_app. apply incl_refl.
      * rewrite app_nil_r. apply incl_refl.
  - intros Hd t Ht. unfold spawnDue at 1.
    rewrite HL, Hd, interval_updateJets. now apply Qltb_ge.
Qed.

End Passes.

(** *** Collisions *)

Lemma jets_collideMissile_pass (w : World) :
  jets (forEach missiles collideMissile w) = jets w.
Proof. apply forEach_keeps. intros. apply collideMissile_frame. Qed.

Lemma collideJet_spares (w : World) (j a : Jet) (k : nat) (v : World) :
  jetOverlaps w j = false ->
  nth_error (jets v) k = Some a ->
  ufo_position v = ufo_position w /\ ufo_radius v = ufo_radius w
  /\ In j (jets v) ->
  ufo_position (collideJet a k v) = ufo_position w
  /\ ufo_radius (collideJet a k v) = ufo_radius w
  /\ In j (jets (collideJet a k v)).
Proof.
  intros Hj Hk (Hp & Hr & Hin).
  destruct (collideJet_frame a k v) as (_ & _ & Hp' & Hr' & _).
  split; [congruence|]. split; [congruence|].
  unfold collideJet. destruct (len_lt _ _) eqn:E; [|exact Hin].
  rewrite jets_damagePlayer. cbn [jets set_jets].
  rewrite (proj1 (releaseJet_state _ _)). cbn [jets emit createExplosion].
  destruct (In_splice1_or k a j (jets v) Hk Hin) as [->|H]; [|exact H].
  unfold jetOverlaps in Hj. rewrite Hp, Hr in E. congruence.
Qed.

Lemma collideMissile_spares (w : World) (m a : Missile) (k : nat) (v : World) :
  missileOverlaps w m = false ->
  nth_error (missiles v) k = Some a ->
  ufo_position v = ufo_position w /\ ufo_radius v = ufo_radius w
  /\ In m (missiles v) ->
  ufo_position (collideMissile a k v) = ufo_position w
  /\ ufo_radius (collideMissile a k v) = ufo_radius w
  /\ In m (missiles (collideMissile a k v)).
Proof.
  intros Hm Hk (Hp & Hr & Hin).
  destruct (collideMissile_frame a k v) as (_ & _ & Hp' & Hr' & _).
  split; [congruence|]. split; [congruence|].
  unfold collideMissile. destruct (len_lt _ _) eqn:E; [|exact Hin].
  rewrite missiles_damagePlayer. cbn [missiles set_missiles].
  rewrite (proj1 (proj2 (releaseMissile_state _ _))).
  cbn [missiles emit createExplosion].
  destruct (In_splice1_or k a m (missiles v) Hk Hin) as [->|H]; [|exact H].
  unfold missileOverlaps in Hm. rewrite Hp, Hr in E. congruence.
Qed.

Lemma collideJet_incl (a : Jet) (k : nat) (v : World) :
  incl (jets (collideJet a k v)) (jets v).
Proof.
  unfold collideJet. destruct (len_lt _ _); [|apply incl_refl].
  rewrite jets_damagePlayer. cbn [jets set_jets].
  rewrite (proj1 (releaseJet_state _ _)). cbn [jets emit createExplosion].
  intros x. apply In_splice1.
Qed.

Lemma collideMissile_incl (a : Missile) (k : nat) (v : World) :
  incl (missiles (collideMissile a k v)) (missiles v).
Proof.
  unfold collideMissile. destruct (len_lt _ _); [|apply incl_refl].
  rewrite missiles_damagePlayer. cbn [missiles set_missiles].
  rewrite (proj1 (proj2 (releaseMissile_state _ _))).
  cbn [missiles emit createExplosion].
  intros x. apply In_splice1.
Qed.

(** A traversal whose callback changes nothing on the entries it meets
    changes nothing. *)
Lemma forEach_idle {W A : Type} (arr : W -> list A)
    (callback : A -> nat -> W -> W) (w : W) :
  (forall a k, nth_error (arr w) k = Some a -> callback a k w = w) ->
  forEach arr callback w = w.
Proof.
  intros H.
  apply (forEach_inv arr callback (fun v => v = w)); [|reflexivity].
  intros a k v Hk ->. now apply H.
Qed.

(** X7.  The collision pass only ever removes: every jet and missile
    registered after it was registered before.  It spares what is out
    of reach: a jet or missile whose distance to the craft is not below
    the sum of the two radii is still registered after the pass, also
    in a pass that removes others.  When nothing is within reach the
    pass changes nothing at all. *)
Theorem checkCollisions_spares_what_is_out_of_reach (w : World) :
  let w' := checkCollisions w in
  incl (jets w') (jets w) /\ incl (missiles w') (missiles w)
  /\ Forall (fun j => jetOverlaps w j = false -> In j (jets w')) (jets w)
  /\ Forall (fun m => missileOverlaps w m = false -> In m (missiles w'))
            (missiles w)
  /\ (forallb (fun j => negb (jetOverlaps w j)) (jets w)
      && forallb (fun m => negb (missileOverlaps w m)) (missiles w) = true ->
      w' = w).
Proof.
  cbv zeta. unfold checkCollisions.
  set (w1 := forEach jets collideJet w).
  assert (Hm1 : missiles w1 = missiles w).
  { apply forEach_keeps. intros. apply collideJet_frame. }
  assert (Hu1 : ufo_position w1 = ufo_position w /\ ufo_radius w1 = ufo_radius w).
  { split; apply forEach_keeps; intros; apply collideJet_frame. }
  split; [|split; [|split; [|split]]].
  - rewrite jets_collideMissile_pass. unfold w1.
    apply (forEach_inv jets collideJet (fun v => incl (jets v) (jets w)));
      [|apply incl_refl].
    intros a k v _ Hv. eapply incl_tran; [apply collideJet_incl|exact Hv].
  - rewrite <- Hm1.
    apply (forEach_inv missiles collideMissile
             (fun v => incl (missiles v) (missiles w1))); [|apply incl_refl].
    intros a k v _ Hv. eapply incl_tran; [apply collideMissile_incl|exact Hv].
  - rewrite Forall_forall. intros j Hin Hj.
    rewrite jets_collideMissile_pass. unfold w1.
    apply (forEach_inv jets collideJet
             (fun v => ufo_position v = ufo_position w
                       /\ ufo_radius v = ufo_radius w /\ In j (jets v)));
      [|auto].
    intros a k v Hk Hv. eapply collideJet_spares; eauto.
  - rewrite Forall_forall. intros m Hin Hm. rewrite <- Hm1 in Hin.
    apply (forEach_inv missiles collideMissile
             (fun v => ufo_position v = ufo_position w
                       /\ ufo_radius v = ufo_radius w /\ In m (missiles v)));
      [|tauto].
    intros a k v Hk Hv. eapply collideMissile_spares; eauto.
  - intros H. apply andb_prop in H. destruct H as (Hj & Hm).
    rewrite forallb_forall in Hj, Hm.
    assert (E1 : w1 = w).
    { apply forEach_idle. intros a k Hk. unfold collideJet.
      specialize (Hj a (nth_error_In _ _ Hk)). unfold jetOverlaps in Hj.
      apply negb_true_iff in Hj. now rewrite Hj. }
    rewrite E1. apply forEach_idle. intros a k Hk. unfold collideMissile.
    specialize (Hm a (nth_error_In _ _ Hk)). unfold missileOverlaps in Hm.
    apply negb_true_iff in Hm. now rewrite Hm.
Qed.

(** *** Start and restart *)

Section StartRestart.

Variable random : nat -> Q.
Variable Math_sin : Q -> Q.
Variable Math_cos : Q -> Q.
Variable Math_PI : Q.

Local Abbreviation createCow' := (createCow random Math_sin Math_cos Math_PI).
Local Abbreviation createCows' := (createCows random Math_sin Math_cos Math_PI).
Local Abbreviation startGame' := (startGame random Math_sin Math_cos Math_PI).

Lemma createCow_adds_one (w : World) :
  exists c,
    cows (createCow' w) = cows w ++ [c]
    /\ cow_id c = nextId w /\ freshCow c
    /\ nextId (createCow' w) = S (nextId w)
    /\ jets (createCow' w) = jets w /\ missiles (createCow' w) = missiles w
    /\ gameStateManager (createCow' w) = gameStateManager w
    /\ releases (trace (createCow' w)) = releases (trace w).
Proof.
  unfold createCow, fresh, draw. eexists.
  cbn [cows set_cows set_draws set_nextId emit nextId jets missiles
       gameStateManager trace].
  split; [reflexivity|]. split; [reflexivity|].
  split; [repeat split|]. split; [reflexivity|].
  rewrite releases_app. cbn [releases filter isRelease].
  rewrite app_nil_r. repeat split.
Qed.

Lemma iter_createCow (n : nat) (w : World) :
  let w' := Nat.iter n createCow' w in
  exists new,
    cows w' = cows w ++ new
    /\ map cow_id new = seq (nextId w) n /\ Forall freshCow new
    /\ nextId w' = (nextId w + n)%nat
    /\ jets w' = jets w /\ missiles w' = missiles w
    /\ gameStateManager w' = gameStateManager w
    /\ releases (trace w') = releases (trace w).
Proof.
  cbv zeta. induction n as [|n IH].
  - exists []. simpl. rewrite app_nil_r, Nat.add_0_r. repeat split.
    constructor.
  - rewrite Nat.iter_succ.
    destruct IH as (new & Hc & Hi & Hf & Hn & Hj & Hm & Hg & Hr).
    destruct (createCow_adds_one (Nat.iter n createCow' w))
      as (c & Hc' & Hi' & Hf' & Hn' & Hj' & Hm' & Hg' & Hr').
    exists (new ++ [c]).
    rewrite Hc', Hc, Hn', Hn, Hj', Hj, Hm', Hm, Hg', Hg, Hr', Hr.
    rewrite app_assoc, map_app, Hi, seq_S. cbn [map]. rewrite Hi', Hn.
    repeat split; try lia. apply Forall_app. split; [exact Hf|].
    constructor; [exact Hf'|constructor].
Qed.

Lemma sameButTrace_refl (w : World) : sameButTrace w w.
Proof. now destruct w. Qed.

Lemma sameButTrace_trans (a b c : World) :
  sameButTrace a b -> sameButTrace b c -> sameButTrace a c.
Proof.
  unfold sameButTrace. intros H1 H2. rewrite H2. rewrite H1 at 1 2 3 4 5 6 7 8 9 10 11 12 13 14 15.
  reflexivity.
Qed.

Lemma sameButTrace_releaseJet (j : Jet) (w : World) :
  sameButTrace w (releaseJet j w).
Proof.
  unfold sameButTrace, releaseJet, removeExhaust, stopEngineSound.
  by_cases.
Qed.

Lemma sameButTrace_releaseMissile (m : Missile) (w : World) :
  sameButTrace w (releaseMissile m w).
Proof. unfold sameButTrace, releaseMissile, removeExhaust. by_cases. Qed.

Lemma fold_releaseJet (l : list Jet) (w : World) :
  let w' := fold_left (fun w jet => releaseJet jet w) l w in
  sameButTrace w w'
  /\ (Forall (fun j => soundIsPlaying j = true) l ->
      releases (trace w')
      = releases (trace w) ++ flat_map jetOwes (map jetHandles l)).
Proof.
  cbv zeta. revert w. induction l as [|j l IH]; intros w.
  - simpl. rewrite app_nil_r. split; [apply sameButTrace_refl|reflexivity].
  - simpl. destruct (IH (releaseJet j w)) as (Hs & Hr). split.
    + eapply sameButTrace_trans; [apply sameButTrace_releaseJet|exact Hs].
    + intros Hp. inversion Hp as [|? ? Hj Hl]; subst.
      rewrite (Hr Hl), releases_releaseJet by exact Hj.
      now rewrite <- app_assoc.
Qed.

Lemma fold_releaseMissile (l : list Missile) (w : World) :
  let w' := fold_left (fun w m => releaseMissile m w) l w in
  sameButTrace w w'
  /\ releases (trace w')
     = releases (trace w) ++ flat_map missileOwes (map missileHandles l).
Proof.
  cbv zeta. revert w. induction l as [|m l IH]; intros w.
  - simpl. rewrite app_nil_r. split; [apply sameButTrace_refl|reflexivity].
  - simpl. destruct (IH (releaseMissile m w)) as (Hs & Hr). split.
    + eapply sameButTrace_trans; [apply sameButTrace_releaseMissile|exact Hs].
    + rewrite Hr, releases_releaseMissile. now rewrite <- app_assoc.
Qed.

(** The state in which [startGame] tests [cows.length === 0]. *)
Lemma startGame_shape (now : Z) (w : World) :
  exists w7,
    startGame' now w
    = emit (SoundPlay MusicBackground)
        (emit (SoundPlay UiGameStart)
           (set_miniMap true
              (emit VisualEffectsInit
                 (match cows w7 with [] => createCows' w7 | _ => w7 end))))
    /\ cows w7 = cows w /\ nextId w7 = nextId w
    /\ gameStateManager w7 = gameStateManager w
    /\ jets w7 = [] /\ missiles w7 = []
    /\ ufo_position w7 = mkVec3 0 20 0 /\ velocity w7 = vzero
    /\ lastJetSpawn w7 = now
    /\ currentSpawnInterval w7 = SPAWN_INTERVAL_BASE
    /\ (Forall (fun j => soundIsPlaying j = true) (jets w) ->
        releases (trace w7)
        = releases (trace w) ++ flat_map jetOwes (map jetHandles (jets w))
          ++ flat_map missileOwes (map missileHandles (missiles w))).
Proof.
  unfold startGame. cbv zeta.
  set (w2 := set_velocity vzero
               (set_ufo_position (mkVec3 0 20 0) (set_gameActive true w))).
  destruct (fold_releaseJet (jets w2) w2) as (S1 & R1). cbv zeta in S1, R1.
  set (w3 := fold_left (fun w jet => releaseJet jet w) (jets w2) w2) in *.
  destruct (fold_releaseMissile (missiles (set_jets [] w3)) (set_jets [] w3))
    as (S2 & R2). cbv zeta in S2, R2.
  set (w5 := fold_left (fun w m => releaseMissile m w)
               (missiles (set_jets [] w3)) (set_jets [] w3)) in *.
  eexists. split; [reflexivity|].
  cbn [cows nextId gameStateManager jets missiles ufo_position velocity
       lastJetSpawn currentSpawnInterval trace
       set_currentSpawnInterval set_lastJetSpawn set_missiles].
  rewrite S2. cbn [cows nextId gameStateManager jets missiles ufo_position
                   velocity trace set_jets].
  rewrite S1. cbn [cows nextId gameStateManager jets missiles ufo_position
                   velocity trace].
  repeat (split; [reflexivity|]).
  intros Hp. rewrite R2. cbn [trace set_jets missiles].
  rewrite R1 by exact Hp. rewrite S1. cbn [missiles]. subst w2.
  cbn [trace jets missiles set_velocity set_ufo_position set_gameActive].
  now rewrite <- app_assoc.
Qed.

(** X8.  [startGame] empties both registries and, before it does,
    releases what every registered jet and missile owns, none skipped:
    one stop for each engine sound, one release for each exhaust
    emitter, in registry order. *)
Theorem startGame_releases_every_handle (now : Z) (w : World) :
  Forall (fun j => soundIsPlaying j = true) (jets w) ->
  let w' := startGame' now w in
  jets w' = [] /\ missiles w' = []
  /\ releases (trace w')
     = releases (trace w) ++ flat_map jetOwes (map jetHandles (jets w))
       ++ flat_map missileOwes (map missileHandles (missiles w)).
Proof.
  intros Hp. cbv zeta.
  destruct (startGame_shape now w)
    as (w7 & -> & _ & _ & _ & Hj & Hm & _ & _ & _ & _ & Hr).
  specialize (Hr Hp).
  cbn [jets missiles trace emit set_miniMap].
  rewrite !releases_app. cbn [releases filter isRelease].
  rewrite !app_nil_r.
  destruct (cows w7); [|now rewrite Hj, Hm, Hr].
  destruct (iter_createCow COW_COUNT w7)
    as (new & _ & _ & _ & _ & Hj' & Hm' & _ & Hr').
  unfold createCows. now rewrite Hj', Hm', Hr', Hj, Hm, Hr.
Qed.

Lemma sameButTrace_removeCows (l : list Cow) (w : World) :
  sameButTrace w
    (fold_left (fun w cow => emit (SceneRemove (cow_id cow)) w) l w).
Proof.
  revert w. induction l as [|c l IH]; intros w; simpl;
    [apply sameButTrace_refl|].
  eapply sameButTrace_trans; [|apply IH]. now destruct w.
Qed.

(** X9.  The restart button gives a fresh game whatever the state it is
    pressed in: the manager is PLAYING with score 0 and health 3, no jet
    and no missile is registered, the craft is at rest at (0, 20, 0),
    the spawn timer starts at the current time with the base interval,
    and the herd is replaced by exactly [COW_COUNT] newly created cows,
    none of them being abducted. *)
Theorem pressRestart_gives_a_fresh_game (now : Z) (w : World) :
  let w' := pressRestart random Math_sin Math_cos Math_PI now w in
  GameStateManager.isGameActive (gameStateManager w') = true
  /\ playerScore w' = 0%Z /\ playerHealth w' = 3%Z
  /\ jets w' = [] /\ missiles w' = []
  /\ ufo_position w' = mkVec3 0 20 0 /\ velocity w' = vzero
  /\ lastJetSpawn w' = now
  /\ currentSpawnInterval w' = SPAWN_INTERVAL_BASE
  /\ map cow_id (cows w') = seq (nextId w) COW_COUNT
  /\ Forall freshCow (cows w').
Proof.
  cbv zeta. unfold pressRestart, restartGame.
  set (g := GameStateManager.restartGame (gameStateManager w)).
  set (w0 := set_gameStateManager g w).
  pose proof (sameButTrace_removeCows (cows w0) w0) as S1.
  set (w1 := fold_left (fun w cow => emit (SceneRemove (cow_id cow)) w)
               (cows w0) w0) in *.
  destruct (iter_createCow COW_COUNT (set_cows [] w1))
    as (new & Hc & Hi & Hf & _ & _ & _ & Hg & _).
  unfold createCows.
  set (w2 := Nat.iter COW_COUNT createCow' (set_cows [] w1)) in *.
  cbn [cows set_cows app nextId gameStateManager] in Hc, Hi, Hg.
  rewrite S1 in Hi, Hg. cbn [nextId gameStateManager] in Hi, Hg.
  destruct (startGame_shape now w2)
    as (w7 & -> & Hc7 & _ & Hg7 & Hj & Hm & Hu & Hv & Hl & Hs & _).
  assert (Hne : cows w7 <> []).
  { rewrite Hc7, Hc. intros E. apply (f_equal (@length Cow)) in E.
    rewrite <- (length_map cow_id), Hi, length_seq in E. discriminate. }
  unfold playerScore, playerHealth.
  assert (Hmatch : match cows w7 with
                    | [] => createCows' w7
                    | _ => w7
                    end = w7)
    by (destruct (cows w7); [congruence|reflexivity]).
  rewrite Hmatch.
  cbn [gameStateManager jets missiles ufo_position velocity lastJetSpawn
       currentSpawnInterval cows emit set_miniMap].
  rewrite Hg7, Hg, Hj, Hm, Hu, Hv, Hl, Hs, Hc7, Hc, Hi.
  repeat split; try reflexivity. exact Hf.
Qed.

End StartRestart.

(** X4, for one frame over the pasture with the beam key held. *)
Lemma score_counts_abducted_cows_witness :
  let w' := performAll (fun _ => 1) (fun v => v) (fun _ => 0) (fun _ => 0)
              (fun _ _ => 0) 3
              [ActTractorBeam (holdBeam noKeys) hovering; ActCows] pasture in
  (length (cows w') <= length (cows pasture))%nat
  /\ playerScore w'
     = (playerScore pasture
        + 100 * Z.of_nat (length (cows pasture) - length (cows w')))%Z.
Proof.
  apply (score_counts_abducted_cows (fun _ => 1) (fun v => v) (fun _ => 0)
           (fun _ => 0) (fun _ _ => 0) 3
           [ActTractorBeam (holdBeam noKeys) hovering; ActCows] pasture).
  reflexivity.
Defined.

(** X5, for a frame with the beam key held followed by one without. *)
Lemma abduction_is_never_undone_witness :
  herdFollows (cows pasture)
    (cows (performAll (fun _ => 1) (fun v => v) (fun _ => 0) (fun _ => 0)
             (fun _ _ => 0) 3
             [ActTractorBeam (holdBeam noKeys) hovering; ActCows;
              ActTractorBeam noKeys hovering; ActCows] pasture)).
Proof.
  apply (abduction_is_never_undone (fun _ => 1) (fun v => v) (fun _ => 0)
           (fun _ => 0) (fun _ _ => 0) 3).
  reflexivity.
Defined.

(** X8, for a start over the crowded frame: three jets, three missiles. *)
Lemma startGame_releases_every_handle_witness :
  let w' := startGame (fun _ => 1) (fun _ => 0) (fun _ => 0) 3 1000
              crowdedFrame in
  jets w' = [] /\ missiles w' = []
  /\ releases (trace w')
     = releases (trace crowdedFrame)
       ++ flat_map jetOwes (map jetHandles (jets crowdedFrame))
       ++ flat_map missileOwes (map missileHandles (missiles crowdedFrame)).
Proof.
  apply (startGame_releases_every_handle (fun _ => 1) (fun _ => 0)
           (fun _ => 0) 3 1000 crowdedFrame).
  repeat constructor.
Defined.

(** ** Movement of the craft *)

Section CraftMovement.

Import UfoPhysics.
Local Open Scope R_scope.

Ltac split_tests :=
  repeat match goal with
         | |- context [if ?c then _ else _] => destruct c
         end.

Lemma Rabs_sign_bound (r b : R) : 0 <= b -> Rabs (sign r * b) <= b.
Proof.
  intros Hb. unfold sign.
  destruct (Rlt_dec 0 r); [|destruct (Rlt_dec r 0)];
    unfold Rabs; destruct (Rcase_abs _); lra.
Qed.

Lemma updateUFO_in_bounds_step (k : Keys) (s : State) :
  let s' := updateUFO k s in
  Rabs (x (position s')) <= GAME_BOUNDS
  /\ Rabs (z (position s')) <= GAME_BOUNDS
  /\ 5 - HOVER_SPEED * Rabs (hoverDirection s) <= y (position s').
Proof.
  cbv zeta. unfold updateUFO. cbv zeta. cbn [position].
  set (v := limitSpeed _).
  set (p := add (position s) v).
  assert (HB : 0 <= GAME_BOUNDS) by (unfold GAME_BOUNDS; lra).
  pose proof (Rabs_sign_bound (x p) GAME_BOUNDS HB) as SX.
  pose proof (Rabs_sign_bound (z p) GAME_BOUNDS HB) as SZ.
  unfold HOVER_SPEED.
  split; [|split].
  - split_tests; cbn [x y z] in *; lra.
  - split_tests; cbn [x y z] in *; lra.
  - split_tests; cbn [x y z] in *;
      unfold Rabs; destruct (Rcase_abs _); lra.
Qed.

(** X10.  After [updateUFO] the craft is inside the play area whatever
    the state and the keys: its x and z coordinates are within
    [GAME_BOUNDS] of the origin, and its height is at least 5 less one
    hover step. *)
Theorem updateUFO_keeps_craft_in_bounds (k : Keys) (s : State) :
  let s' := updateUFO k s in
  Rabs (x (position s')) <= GAME_BOUNDS
  /\ Rabs (z (position s')) <= GAME_BOUNDS
  /\ 5 - HOVER_SPEED * Rabs (hoverDirection s) <= y (position s').
Proof. apply updateUFO_in_bounds_step. Qed.

Lemma hoverInvariant_updateUFO (k : Keys) (s : State) :
  hoverInvariant s -> hoverInvariant (updateUFO k s).
Proof.
  unfold hoverInvariant, updateUFO. cbv zeta.
  cbn [hoverOffset hoverDirection].
  unfold HOVER_HEIGHT, HOVER_SPEED.
  intros (Hd & Ho & Hup & Hdown).
  unfold Rabs in *.
  destruct (Rcase_abs (hoverOffset s));
    destruct (Rlt_dec _ _) as [T|T];
    destruct (Rcase_abs _) in T |- *;
    destruct Hd as [Hd|Hd]; rewrite Hd in *;
    repeat split; try lra; intros; try lra.
Qed.


(** X11.  From the start values of the script (offset 0, direction 1)
    the hover offset stays within [HOVER_HEIGHT] plus one step for any
    number of frames and any input, the direction stays 1 or -1, and
    after every frame the craft is at height 5 - [HOVER_SPEED] or more. *)
Theorem hover_stays_in_band (keysAt : nat -> Keys) (n : nat) (s : State) :
  hoverOffset s = 0 -> hoverDirection s = 1 ->
  let s' := ufoFrames keysAt (S n) s in
  Rabs (hoverOffset s') <= HOVER_HEIGHT + HOVER_SPEED
  /\ (hoverDirection s' = 1 \/ hoverDirection s' = -1)
  /\ 5 - HOVER_SPEED <= y (position s').
Proof.
  intros H0 H1. cbv zeta.
  assert (Hn : forall m, hoverInvariant (ufoFrames keysAt m s)).
  { induction m as [|m IH]; [|now apply hoverInvariant_updateUFO].
    unfold hoverInvariant. cbn [ufoFrames]. rewrite H0, H1, Rabs_R0.
    unfold HOVER_HEIGHT, HOVER_SPEED. repeat split; lra. }
  destruct (Hn (S n)) as (Hd & Ho & _). split; [exact Ho|].
  split; [exact Hd|]. cbn [ufoFrames].
  destruct (updateUFO_in_bounds_step (keysAt n) (ufoFrames keysAt n s))
    as (_ & _ & Hy).
  unfold HOVER_SPEED in *.
  destruct (Hn n) as ([E|E] & _); rewrite E in Hy;
    unfold Rabs in Hy; destruct (Rcase_abs _) in Hy; lra.
Qed.

Lemma accelerationOf_rest (k : Keys) :
  noMovementKey k = true -> accelerationOf k = mkVector3 0 0 0.
Proof.
  unfold noMovementKey, accelerationOf.
  destruct k as [[] [] [] [] [] [] e m]; cbn; intros H;
    try discriminate; reflexivity.
Qed.

(** The clamp multiplies every component by one factor between 0 and 1. *)
Lemma limitSpeed_scales (v : Vector3) :
  exists c, 0 <= c <= 1 /\ limitSpeed v = multiplyScalar v c.
Proof.
  unfold limitSpeed.
  destruct (Rlt_dec MAX_SPEED (length v)) as [Hgt | Hle].
  - unfold normalize.
    assert (Hpos : 0 < length v) by (unfold MAX_SPEED in Hgt; lra).
    destruct (Req_dec_T (length v) 0) as [E | _]; [lra|].
    exists (1 / length v * MAX_SPEED). split.
    + unfold MAX_SPEED in *. split.
      * apply Rmult_le_pos; [|lra]. apply Rlt_le.
        apply Rdiv_lt_0_compat; lra.
      * apply (Rmult_le_reg_r (length v)); [exact Hpos|].
        replace (1 / length v * (5 / 10) * length v) with (5 / 10)
          by (field; lra).
        lra.
    + unfold multiplyScalar. cbn [x y z]. f_equal; ring.
  - exists 1. split; [lra|]. unfold multiplyScalar.
    destruct v as [a b c]. cbn [x y z]. f_equal; ring.
Qed.

Lemma updateUFO_coasts (k : Keys) (s : State) :
  noMovementKey k = true ->
  length (velocity (updateUFO k s)) <= DECELERATION * length (velocity s).
Proof.
  intros Hk.
  assert (HD : 0 <= DECELERATION) by (unfold DECELERATION; lra).
  pose proof (length_nonneg (velocity s)) as Hl.
  apply length_le_of_sq; [now apply Rmult_le_pos|].
  replace (DECELERATION * length (velocity s)
           * (DECELERATION * length (velocity s)))
    with (DECELERATION * DECELERATION
          * (length (velocity s) * length (velocity s))) by ring.
  rewrite length_sqr.
  unfold updateUFO. cbv zeta. cbn [velocity].
  rewrite (accelerationOf_rest k Hk).
  destruct (limitSpeed_scales
              (multiplyScalar (add (velocity s) (mkVector3 0 0 0))
                 DECELERATION)) as (c & Hc & ->).
  unfold lengthSqR, multiplyScalar, add, DECELERATION. cbn [x y z].
  destruct (velocity s) as [a b d]. cbn [x y z].
  assert (Hcc : 0 <= c * c <= 1) by nra.
  assert (Ha : 0 <= a * a) by nra.
  assert (Hb : 0 <= b * b) by nra.
  assert (Hd : 0 <= d * d) by nra.
  split_tests; cbn [x y z]; nra.
Qed.

(** X12.  With no movement key held the craft coasts to rest: every
    frame multiplies its speed by [DECELERATION] or less, so after [n]
    such frames the speed is at most [DECELERATION] to the power [n]
    times the speed at the start. *)
Theorem craft_coasts_to_rest (keysAt : nat -> Keys) (n : nat) (s : State) :
  (forall i, noMovementKey (keysAt i) = true) ->
  length (velocity (ufoFrames keysAt n s))
  <= DECELERATION ^ n * length (velocity s).
Proof.
  intros Hk. induction n as [|n IH]; cbn [ufoFrames pow]; [lra|].
  eapply Rle_trans; [apply updateUFO_coasts, Hk|].
  rewrite Rmult_assoc. apply Rmult_le_compat_l; [|exact IH].
  unfold DECELERATION. lra.
Qed.

End CraftMovement.

(** X11, for three frames with the up key held. *)
Lemma hover_stays_in_band_witness :
  let s' := ufoFrames (fun _ => mkKeys true false false false false false
                                   false false) 3 craftAtStart in
  (Rabs (UfoPhysics.hoverOffset s')
   <= UfoPhysics.HOVER_HEIGHT + UfoPhysics.HOVER_SPEED
   /\ (UfoPhysics.hoverDirection s' = 1 \/ UfoPhysics.hoverDirection s' = -1)
   /\ 5 - UfoPhysics.HOVER_SPEED <= UfoPhysics.y (UfoPhysics.position s'))%R.
Proof.
  apply (hover_stays_in_band
           (fun _ => mkKeys true false false false false false false false)
           2 craftAtStart); reflexivity.
Defined.

(** X12, for ten frames without input. *)
Lemma craft_coasts_to_rest_witness :
  (UfoPhysics.length
     (UfoPhysics.velocity (ufoFrames (fun _ => noKeys) 10 craftDrifting))
   <= UfoPhysics.DECELERATION ^ 10
      * UfoPhysics.length (UfoPhysics.velocity craftDrifting))%R.
Proof.
  apply (craft_coasts_to_rest (fun _ => noKeys) 10 craftDrifting).
  intros i. reflexivity.
Defined.

(** ** Particle engine: passes, invariants, lifetimes *)

Section EngineInvariants.

Import ParticleSystem.
Variable random : nat -> Q.

Lemma nth_error_middle {A : Type} (pre post : list A) (e : A) :
  nth_error (pre ++ e :: post) (length pre) = Some e.
Proof. induction pre; simpl; auto. Qed.

Lemma store_middle {A : Type} (pre post : list A) (e x : A) :
  store (length pre) x (pre ++ e :: post) = pre ++ x :: post.
Proof. induction pre; simpl; auto. now rewrite IHpre. Qed.

Lemma splice1_middle {A : Type} (pre post : list A) (e : A) :
  splice1 (length pre) (pre ++ e :: post) = pre ++ post.
Proof. induction pre; simpl; auto. now rewrite IHpre. Qed.

Lemma sweep_app (a b : list Emitter) (sc : list nat) (d : nat) :
  sweep random (a ++ b) sc d
  = let '(b', sc1, d1) := sweep random b sc d in
    let '(a', sc2, d2) := sweep random a sc1 d1 in
    (a' ++ b', sc2, d2).
Proof.
  induction a as [|x a IH]; simpl.
  - now destruct (sweep random b sc d) as [[b' sc1] d1].
  - rewrite IH. destruct (sweep random b sc d) as [[b' sc1] d1].
    destruct (sweep random a sc1 d1) as [[a' sc2] d2].
    destruct (active x); [|reflexivity].
    destruct (updateParticles random x d2) as [x' d3].
    destruct (oneShot x' && allDead x'); reflexivity.
Qed.

Lemma update_from_sweep (pre post : list Emitter) (sc : list nat)
    (d n : nat) :
  update_from random (length pre) (mk (pre ++ post) sc d n)
  = let '(pre', sc', d') := sweep random pre sc d in
    mk (pre' ++ post) sc' d' n.
Proof.
  revert post sc d. induction pre as [|e pre IH] using rev_ind;
    intros post sc d; [reflexivity|].
  rewrite length_app, Nat.add_1_r. cbn [update_from].
  rewrite <- app_assoc. cbn [app]. rewrite sweep_app. cbn [sweep].
  unfold updateAt. cbn [particleSystems draws scene nextSystem].
  rewrite nth_error_middle.
  destruct (active e).
  - destruct (updateParticles random e d) as [e' d2].
    cbn [particleSystems draws scene nextSystem].
    rewrite store_middle.
    destruct (oneShot e' && allDead e').
    + rewrite splice1_middle, IH.
      destruct (sweep random pre _ d2) as [[pre' sc2] d3].
      now rewrite app_nil_r.
    + rewrite IH. destruct (sweep random pre sc d2) as [[pre' sc2] d3].
      now rewrite <- app_assoc.
  - rewrite IH. destruct (sweep random pre sc d) as [[pre' sc2] d3].
    now rewrite <- app_assoc.
Qed.

Lemma update_sweep (s : ParticleSystem.t) :
  update random s
  = let '(l, sc, d) := sweep random (particleSystems s) (scene s) (draws s) in
    mk l sc d (nextSystem s).
Proof.
  unfold update. destruct s as [l sc d n]. cbn [particleSystems scene draws nextSystem].
  pose proof (update_from_sweep l [] sc d n) as H.
  rewrite app_nil_r in H. rewrite H.
  destruct (sweep random l sc d) as [[l' sc'] d']. now rewrite app_nil_r.
Qed.


(** *** Invariants of the engine *)

Variable normalize : Vec3 -> Vec3.
Variable colorOf : Z -> Vec3.

Local Abbreviation engineRun' := (engineRun random normalize colorOf).
Local Abbreviation engineCall' := (engineCall random normalize colorOf).
Local Abbreviation createEmitter' := (createEmitter random normalize colorOf).

Lemma engineRun_ind (Inv : ParticleSystem.t -> Prop) :
  Inv ParticleSystem.empty ->
  (forall s c, Inv s -> Inv (engineCall' s c)) ->
  forall calls, Inv (engineRun' calls).
Proof.
  intros H0 Hstep calls. unfold engineRun. revert H0.
  generalize ParticleSystem.empty.
  induction calls as [|c calls IH]; intros s Hs; [exact Hs|].
  cbn [fold_left]. apply IH. now apply Hstep.
Qed.

Lemma updateAt_shape (i : nat) (s : ParticleSystem.t) :
  updateAt random i s = s
  \/ exists ps d',
       nth_error (particleSystems s) i = Some ps /\ active ps = true
       /\ let ps' := fst (updateParticles random ps (draws s)) in
          updateAt random i s
          = mk (store i ps' (particleSystems s)) (scene s) d' (nextSystem s)
          \/ updateAt random i s
             = mk (splice1 i (store i ps' (particleSystems s)))
                  (scene_remove (system ps') (scene s)) d' (nextSystem s).
Proof.
  unfold updateAt.
  destruct (nth_error (particleSystems s) i) as [ps|] eqn:E; [|now left].
  destruct (active ps) eqn:Ea; [|now left].
  right. destruct (updateParticles random ps (draws s)) as [ps' d'] eqn:Eu.
  exists ps, d'. split; [reflexivity|]. split; [exact Ea|].
  cbv zeta. rewrite Eu. cbn [fst particleSystems scene draws nextSystem].
  destruct (oneShot ps' && allDead ps'); [right|left]; reflexivity.
Qed.

(** A property of emitters that [updateParticles] keeps is kept by
    [update] for all the emitters of the list. *)
Lemma update_Forall (P : Emitter -> Prop) (s : ParticleSystem.t) :
  (forall e d, P e -> P (fst (updateParticles random e d))) ->
  Forall P (particleSystems s) ->
  Forall P (particleSystems (update random s)).
Proof.
  intros HP. unfold update.
  apply (update_from_inv random (fun v => Forall P (particleSystems v))).
  intros i v Hv.
  destruct (updateAt_shape i v) as [->|(ps & d' & Hi & _ & [->| ->])];
    [exact Hv| |]; cbn [particleSystems].
  - apply Forall_store; [|exact Hv]. apply HP.
    eapply Forall_nth_error; eauto.
  - apply Forall_splice1. apply Forall_store; [|exact Hv]. apply HP.
    eapply Forall_nth_error; eauto.
Qed.

Lemma engineRun_Forall (P : Emitter -> Prop) :
  (forall type p dir o s,
      Forall P (particleSystems s) ->
      Forall P (particleSystems (snd (createEmitter' type p dir o s)))) ->
  (forall e d, P e -> P (fst (updateParticles random e d))) ->
  (forall e b, P e -> P (set_active b e)) ->
  (forall e p, P e ->
               P (mkEmitter (system e) p (particles e) (settings e) (active e)
                    (oneShot e) (emissionRate e) (emissionCounter e))) ->
  forall calls, Forall P (particleSystems (engineRun' calls)).
Proof.
  intros Hc Hu Ha Hm.
  apply (engineRun_ind (fun s => Forall P (particleSystems s)));
    [constructor|].
  intros s c Hs. destruct c as [type p dir o| |h|h|h p|h|]; cbn [engineCall].
  - now apply Hc.
  - now apply update_Forall.
  - destruct h as [id|]; [|exact Hs]. cbn [stopEmitter setEmitterActive particleSystems].
    rewrite Forall_map. rewrite Forall_forall in *. intros e He.
    destruct (system e =? id)%nat; auto.
  - destruct h as [id|]; [|exact Hs]. cbn [startEmitter setEmitterActive particleSystems].
    rewrite Forall_map. rewrite Forall_forall in *. intros e He.
    destruct (system e =? id)%nat; auto.
  - destruct h as [id|]; [|exact Hs]. cbn [updateEmitterPosition particleSystems].
    rewrite Forall_map. rewrite Forall_forall in *. intros e He.
    destruct (system e =? id)%nat; auto.
  - destruct h as [id|]; [|exact Hs]. cbn [removeEmitter].
    destruct (indexOf id (particleSystems s)); [|exact Hs].
    cbn [particleSystems]. now apply Forall_splice1.
  - constructor.
Qed.

(** **** Counters *)

Lemma counterInRange_update (e : Emitter) (d : nat) :
  counterInRange e -> counterInRange (fst (updateParticles random e d)).
Proof.
  unfold counterInRange, updateParticles. intros (Hr & _).
  destruct (updateParticleList random _ _ _ _ d).
  cbn [fst emissionRate emissionCounter]. split; [exact Hr|].
  apply Nat.mod_upper_bound. lia.
Qed.

(** **** Buffers *)

Lemma length_newParticles (st : Settings) (dir : Vec3) (n d : nat) :
  length (newParticles random normalize colorOf st dir n d) = n.
Proof. revert d. induction n; intros d; simpl; auto. Qed.

Lemma opacity_newParticles (st : Settings) (dir : Vec3) (n d : nat) :
  Forall (fun p => p_opacity p = opacity st)
         (newParticles random normalize colorOf st dir n d).
Proof.
  revert d. induction n; intros d; simpl; constructor; auto.
Qed.

Lemma length_updateParticleList (st : Settings) (one : bool) (c : nat)
    (l : list Particle) (d : nat) :
  length (fst (updateParticleList random st one c l d)) = length l.
Proof.
  revert d. induction l as [|p l IH]; intros d; simpl; [reflexivity|].
  destruct (updateParticle random st one c p d) as [p' d1].
  specialize (IH d1).
  destruct (updateParticleList random st one c l d1) as [l' d2].
  simpl in *. now rewrite IH.
Qed.

Lemma opacity_updateParticle (st : Settings) (one : bool) (c : nat)
    (p : Particle) (d : nat) :
  0 <= fadeRate st -> 0 <= opacity st ->
  0 <= p_opacity p /\ p_opacity p <= opacity st ->
  0 <= p_opacity (fst (updateParticle random st one c p d))
  /\ p_opacity (fst (updateParticle random st one c p d)) <= opacity st.
Proof.
  intros Hf Ho (H0 & H1). unfold updateParticle.
  destruct (_ || _); [|now split]. cbv zeta.
  destruct (negb one && negb (p_lifetime p <? lifetime st)%Z);
    cbn [fst p_opacity p_lifetime];
    destruct (Qltb (inject_Z (lifetime st) * (7 # 10)) _);
    try (split; [assumption|first [assumption|apply Qle_refl]]);
    match goal with
    | |- context [Qltb ?a 0] => destruct (Qltb a 0) eqn:E
    end;
    try (split; [apply Qle_refl|assumption]);
    apply Qltb_ge in E; (split; [exact E|]); Lqa.lra.
Qed.

Lemma opacity_updateParticleList (st : Settings) (one : bool) (c : nat)
    (l : list Particle) (d : nat) :
  0 <= fadeRate st -> 0 <= opacity st ->
  Forall (fun p => 0 <= p_opacity p /\ p_opacity p <= opacity st) l ->
  Forall (fun p => 0 <= p_opacity p /\ p_opacity p <= opacity st)
         (fst (updateParticleList random st one c l d)).
Proof.
  intros Hf Ho. revert d. induction l as [|p l IH]; intros d H; simpl;
    [constructor|].
  inversion H as [|? ? Hp Hl]; subst.
  pose proof (opacity_updateParticle st one c p d Hf Ho Hp) as Hp'.
  destruct (updateParticle random st one c p d) as [p' d1].
  specialize (IH d1 Hl).
  destruct (updateParticleList random st one c l d1) as [l' d2].
  cbn [fst] in *. now constructor.
Qed.

Lemma buffersInRange_update (e : Emitter) (d : nat) :
  buffersInRange e -> buffersInRange (fst (updateParticles random e d)).
Proof.
  unfold buffersInRange, updateParticles. intros (Hl & Hf & Ho & Hp).
  pose proof (length_updateParticleList (settings e) (oneShot e)
                ((emissionCounter e + 1) mod emissionRate e) (particles e) d)
    as Hl'.
  pose proof (opacity_updateParticleList (settings e) (oneShot e)
                ((emissionCounter e + 1) mod emissionRate e) (particles e) d
                Hf Ho Hp) as Hp'.
  destruct (updateParticleList random _ _ _ _ d).
  cbn [fst particles settings] in *. repeat split; auto. congruence.
Qed.

Lemma buffersInRange_create (type : ParticleType) (p dir : Vec3) (o : Options)
    (s : ParticleSystem.t) :
  Forall buffersInRange (particleSystems s) ->
  Forall buffersInRange (particleSystems (snd (createEmitter' type p dir o s))).
Proof.
  intros Hs. unfold createEmitter. cbn [snd particleSystems].
  apply Forall_app. split; [exact Hs|]. constructor; [|constructor].
  unfold buffersInRange. cbn [particles settings].
  split; [apply length_newParticles|].
  assert (Hf : 0 <= fadeRate (mergeSettings type o))
    by (destruct type; cbn; discriminate).
  assert (Ho : 0 <= opacity (mergeSettings type o))
    by (destruct type; cbn; discriminate).
  split; [exact Hf|]. split; [exact Ho|].
  eapply Forall_impl; [|apply opacity_newParticles].
  intros q ->. split; [exact Ho|apply Qle_refl].
Qed.

(** X14.  In every state that calls of the interface reach from a new
    engine, the emission rate of every emitter is at least 1 (a missing
    or zero option gives 1) and its emission counter is below the rate:
    the remainder taken by [updateParticles] is never one by zero. *)
Theorem emission_counter_stays_below_rate (calls : list EngineCall) :
  Forall counterInRange (particleSystems (engineRun' calls)).
Proof.
  apply engineRun_Forall.
  - intros type p dir o s Hs. unfold createEmitter. cbn [snd particleSystems].
    apply Forall_app. split; [exact Hs|]. constructor; [|constructor].
    unfold counterInRange. cbn [emissionRate emissionCounter].
    destruct (o_emissionRate o) as [[|r]|]; lia.
  - intros e d. apply counterInRange_update.
  - intros e b H. exact H.
  - intros e p H. exact H.
Qed.

(** X15.  In every state that calls of the interface reach from a new
    engine, every emitter still has the number of particles it was
    created with, and the opacity of each particle lies between 0 and
    the opacity of the profile: fading stops at 0 and a respawn sets the
    profile value. *)
Theorem particle_buffers_stay_in_range (calls : list EngineCall) :
  Forall buffersInRange (particleSystems (engineRun' calls)).
Proof.
  apply engineRun_Forall.
  - apply buffersInRange_create.
  - intros e d. apply buffersInRange_update.
  - intros e b H. exact H.
  - intros e p H. exact H.
Qed.


(** **** The scene *)

Lemma filter_keeps_all {A : Type} (f : A -> bool) (l : list A) :
  (forall y, In y l -> f y = true) -> filter f l = l.
Proof.
  induction l as [|a l IH]; intros H; simpl; [reflexivity|].
  rewrite (H a) by now left. f_equal. apply IH. intros y Hy. apply H.
  now right.
Qed.

Lemma scene_remove_splice1 (x i : nat) (l : list nat) :
  NoDup l -> nth_error l i = Some x -> scene_remove x l = splice1 i l.
Proof.
  intros Hn. revert i. induction Hn as [|a l Ha Hn IH]; intros [|i] Hi;
    simpl in *; try discriminate.
  - injection Hi as ->. rewrite Nat.eqb_refl. cbn [negb].
    apply filter_keeps_all. intros y Hy. apply negb_true_iff, Nat.eqb_neq.
    intros ->. contradiction.
  - assert (a <> x) by (intros ->; apply Ha; eapply nth_error_In; eauto).
    replace (a =? x)%nat with false by (symmetry; now apply Nat.eqb_neq).
    cbn [negb]. f_equal. now apply IH.
Qed.

Lemma NoDup_splice1 {A : Type} (i : nat) (l : list A) :
  NoDup l -> NoDup (splice1 i l).
Proof.
  intros Hn. revert i. induction Hn as [|a l Ha Hn IH]; intros [|i]; simpl;
    try constructor; auto.
  intros H. apply Ha. eapply In_splice1; eauto.
Qed.

Lemma NoDup_splice1_notin {A : Type} (i : nat) (l : list A) (x : A) :
  NoDup l -> nth_error l i = Some x -> ~ In x (splice1 i l).
Proof.
  intros Hn. revert i. induction Hn as [|a l Ha Hn IH]; intros [|i] Hi;
    simpl in *; try discriminate.
  - now injection Hi as ->.
  - intros [->|H]; [|eapply IH; eauto].
    apply Ha. eapply nth_error_In; eauto.
Qed.

Lemma map_splice1_system (i : nat) (l : list Emitter) :
  map system (splice1 i l) = splice1 i (map system l).
Proof.
  revert i. induction l as [|a l IH]; intros [|i]; simpl; auto.
  now rewrite IH.
Qed.

Lemma indexOf_nth (id : nat) (l : list Emitter) (i : nat) :
  indexOf id l = Some i ->
  exists e, nth_error l i = Some e /\ system e = id.
Proof.
  revert i. induction l as [|a l IH]; intros i H; simpl in *;
    [discriminate|].
  destruct (system a =? id)%nat eqn:E.
  - injection H as <-. exists a. split; [reflexivity|now apply Nat.eqb_eq].
  - destruct (indexOf id l) as [j|]; [|discriminate].
    injection H as <-. destruct (IH j eq_refl) as (e & He & Hid).
    exists e. now split.
Qed.

Lemma indexOf_None (id : nat) (l : list Emitter) :
  indexOf id l = None <-> ~ In id (map system l).
Proof.
  induction l as [|a l IH]; simpl; [tauto|].
  destruct (system a =? id)%nat eqn:E.
  - apply Nat.eqb_eq in E. split; [discriminate|]. intros H. exfalso. auto.
  - apply Nat.eqb_neq in E. destruct (indexOf id l).
    + split; [discriminate|]. intros H. exfalso. apply H. right.
      apply Decidable.not_not; [|intros Hn; now apply IH in Hn].
      unfold Decidable.decidable.
      destruct (in_dec Nat.eq_dec id (map system l)); auto.
    + split; [|reflexivity]. intros _ [H|H]; [contradiction|].
      now apply IH in H.
Qed.

Lemma engineOwnsScene_systems (s : ParticleSystem.t) (l : list Emitter) :
  engineOwnsScene s -> map system l = systems s ->
  engineOwnsScene (mk l (scene s) (draws s) (nextSystem s)).
Proof.
  unfold engineOwnsScene, systems. cbn [particleSystems scene nextSystem].
  intros (H1 & H2 & H3) ->. auto.
Qed.

Lemma engineOwnsScene_remove (s : ParticleSystem.t) (l : list Emitter)
    (i id d : nat) :
  engineOwnsScene s -> nth_error (systems s) i = Some id ->
  map system l = splice1 i (systems s) ->
  engineOwnsScene (mk l (scene_remove id (scene s)) d (nextSystem s)).
Proof.
  unfold engineOwnsScene, systems. cbn [particleSystems scene nextSystem].
  intros (H1 & H2 & H3) Hi ->. rewrite H1.
  split; [now apply scene_remove_splice1|].
  split; [now apply NoDup_splice1|now apply Forall_splice1].
Qed.

Lemma engineOwnsScene_updateAt (i : nat) (s : ParticleSystem.t) :
  engineOwnsScene s -> engineOwnsScene (updateAt random i s).
Proof.
  intros Hs.
  destruct (updateAt_shape i s) as [->|(ps & d' & Hi & _ & H)]; [exact Hs|].
  cbv zeta in H.
  destruct (updateParticles_fields random ps (draws s)) as (Hsys & _).
  assert (Hst : map system (store i (fst (updateParticles random ps (draws s)))
                              (particleSystems s)) = systems s)
    by (apply (map_system_store i ps); [exact Hi|exact Hsys]).
  destruct H as [-> | ->].
  - destruct Hs as (H1 & H2 & H3). unfold engineOwnsScene, systems.
    cbn [particleSystems scene nextSystem]. rewrite Hst. auto.
  - rewrite Hsys. apply (engineOwnsScene_remove s _ i); [exact Hs| |].
    + unfold systems. now apply map_nth_error.
    + now rewrite map_splice1_system, Hst.
Qed.

Lemma engineOwnsScene_update (s : ParticleSystem.t) :
  engineOwnsScene s -> engineOwnsScene (update random s).
Proof.
  unfold update. apply (update_from_inv random engineOwnsScene).
  intros i v. apply engineOwnsScene_updateAt.
Qed.

Lemma engineOwnsScene_create (type : ParticleType) (p dir : Vec3)
    (o : Options) (s : ParticleSystem.t) :
  engineOwnsScene s ->
  engineOwnsScene (snd (createEmitter' type p dir o s))
  /\ ~ In (nextSystem s) (systems s).
Proof.
  intros (H1 & H2 & H3).
  assert (Hfresh : ~ In (nextSystem s) (systems s)).
  { intros H. rewrite Forall_forall in H3. specialize (H3 _ H). lia. }
  split; [|exact Hfresh].
  unfold engineOwnsScene, systems, createEmitter in *.
  cbn [snd particleSystems scene nextSystem]. rewrite map_app. cbn [map system].
  rewrite H1. split; [reflexivity|]. split.
  - apply NoDup_app; [exact H2|repeat constructor; intros []|].
    intros x Hx [<-|[]]. contradiction.
  - apply Forall_app. split.
    + eapply Forall_impl; [|exact H3]. cbv beta. intros; lia.
    + repeat constructor.
Qed.

Lemma map_system_map (f : Emitter -> Emitter) (l : list Emitter) :
  (forall e, system (f e) = system e) -> map system (map f l) = map system l.
Proof.
  intros H. rewrite map_map. apply map_ext. exact H.
Qed.

Lemma engineOwnsScene_removeEmitter (h : option nat) (s : ParticleSystem.t) :
  engineOwnsScene s -> engineOwnsScene (removeEmitter h s).
Proof.
  intros Hs. destruct h as [id|]; [|exact Hs]. cbn [removeEmitter].
  destruct (indexOf id (particleSystems s)) as [i|] eqn:E; [|exact Hs].
  destruct (indexOf_nth _ _ _ E) as (e & He & Hid).
  apply (engineOwnsScene_remove s _ i); [exact Hs| |apply map_splice1_system].
  unfold systems. rewrite <- Hid. now apply map_nth_error.
Qed.

Lemma engineOwnsScene_call (s : ParticleSystem.t) (c : EngineCall) :
  engineOwnsScene s -> engineOwnsScene (engineCall' s c).
Proof.
  intros Hs. destruct c as [type p dir o| |h|h|h p|h|]; cbn [engineCall].
  - now apply engineOwnsScene_create.
  - now apply engineOwnsScene_update.
  - destruct h as [id|]; [|exact Hs].
    apply engineOwnsScene_systems; [exact Hs|]. apply map_system_map.
    intros e. destruct (system e =? id)%nat; reflexivity.
  - destruct h as [id|]; [|exact Hs].
    apply engineOwnsScene_systems; [exact Hs|]. apply map_system_map.
    intros e. destruct (system e =? id)%nat; reflexivity.
  - destruct h as [id|]; [|exact Hs].
    apply engineOwnsScene_systems; [exact Hs|]. apply map_system_map.
    intros e. destruct (system e =? id)%nat; reflexivity.
  - now apply engineOwnsScene_removeEmitter.
  - destruct Hs as (H1 & H2 & H3). unfold engineOwnsScene, systems, clear.
    cbn [particleSystems scene nextSystem map].
    split; [|split; constructor].
    match goal with |- ?r = [] => destruct r as [|x r'] eqn:E end;
      [reflexivity|exfalso].
    assert (Hx : In x (fold_left (fun sc e => scene_remove (system e) sc)
                         (particleSystems s) (scene s)))
      by (rewrite E; now left).
    apply (In_clear_scene random) in Hx. destruct Hx as (Hx & Hno).
    rewrite H1 in Hx. unfold systems in Hx. apply in_map_iff in Hx.
    destruct Hx as (e & He1 & He2). exact (Hno e He2 He1).
Qed.

Lemma engineRun_ownsScene (calls : list EngineCall) :
  engineOwnsScene (engineRun' calls).
Proof.
  apply (engineRun_ind engineOwnsScene).
  - repeat split; constructor.
  - intros s c. apply engineOwnsScene_call.
Qed.

(** X16.  In every state that calls of the interface reach from a new
    engine, the scene holds exactly the points objects of the listed
    emitters, in list order and each once: no call leaves an object of
    a removed emitter on the scene or lists an emitter that is not on
    it. *)
Theorem engine_owns_its_scene_objects (calls : list EngineCall) :
  engineOwnsScene (engineRun' calls).
Proof. apply engineRun_ownsScene. Qed.

(** X17.  [removeEmitter] on a reachable state takes the emitter out of
    the list and its object off the scene and leaves the other emitters
    listed; a second call with the same handle, a call with a handle
    that is not listed and a call with no handle change nothing. *)
Theorem removeEmitter_removes_once (calls : list EngineCall)
    (h : option nat) :
  let s := engineRun' calls in
  let s' := removeEmitter h s in
  removeEmitter h s' = s'
  /\ match h with
     | Some id => ~ In id (systems s') /\ ~ In id (scene s')
                  /\ (~ In id (systems s) -> s' = s)
     | None => s' = s
     end
  /\ Forall (fun e => Some (system e) = h \/ In e (particleSystems s'))
            (particleSystems s).
Proof.
  cbv zeta. pose proof (engineRun_ownsScene calls) as Hs.
  set (s := engineRun' calls) in *.
  destruct h as [id|];
    [|split; [reflexivity|split; [reflexivity|]];
      rewrite Forall_forall; intros e He; now right].
  pose proof (engineOwnsScene_removeEmitter (Some id) s Hs) as Hs'.
  assert (Hout : ~ In id (systems (removeEmitter (Some id) s))).
  { cbn [removeEmitter].
    destruct (indexOf id (particleSystems s)) as [i|] eqn:E.
    - destruct (indexOf_nth _ _ _ E) as (e & He & Hid).
      unfold systems. cbn [particleSystems]. rewrite map_splice1_system.
      apply NoDup_splice1_notin; [apply Hs|].
      rewrite <- Hid. now apply map_nth_error.
    - now apply indexOf_None. }
  split; [|split].
  - apply indexOf_None in Hout.
    generalize dependent (removeEmitter (Some id) s). intros s' _ Hout.
    cbn [removeEmitter]. now rewrite Hout.
  - split; [exact Hout|]. split.
    + destruct Hs' as (-> & _). exact Hout.
    + intros Hn. apply indexOf_None in Hn. cbn [removeEmitter].
      now rewrite Hn.
  - rewrite Forall_forall. intros e He. cbn [removeEmitter].
    destruct (indexOf id (particleSystems s)) as [i|] eqn:E; [|now right].
    destruct (indexOf_nth _ _ _ E) as (e0 & He0 & Hid0).
    cbn [particleSystems].
    destruct (In_splice1_or i e0 e _ He0 He) as [->|H]; [left|now right].
    now rewrite Hid0.
Qed.


(** **** What a pass does to each emitter *)

(** X13.  [update] is one pass over the list from the last emitter to
    the first in which every emitter is met exactly once: the in-place
    loop with its [splice] computes [sweep], so that a removal makes it
    skip no emitter. *)
Theorem update_meets_every_emitter_once (s : ParticleSystem.t) :
  update random s
  = let '(l, sc, d) := sweep random (particleSystems s) (scene s) (draws s) in
    mk l sc d (nextSystem s).
Proof. apply update_sweep. Qed.

(** Every emitter listed after a pass is an inactive emitter left as it
    was or an active one advanced by [updateParticles]. *)
Lemma sweep_In (l : list Emitter) (sc : list nat) (d : nat) (e' : Emitter) :
  In e' (fst (fst (sweep random l sc d))) ->
  exists e, In e l
            /\ ((active e = false /\ e' = e)
                \/ (active e = true
                    /\ exists d0, e' = fst (updateParticles random e d0))).
Proof.
  induction l as [|x l IH]; simpl; [contradiction|].
  destruct (sweep random l sc d) as [[l' sc1] d1]. cbn [fst] in IH.
  assert (Hrest : In e' l' ->
                  exists e, In e (x :: l)
                            /\ ((active e = false /\ e' = e)
                                \/ (active e = true
                                    /\ exists d0,
                                         e' = fst (updateParticles random e d0)))).
  { intros H. destruct (IH H) as (e & He & Hc). exists e. split; [now right|].
    exact Hc. }
  destruct (active x) eqn:Ea.
  - destruct (updateParticles random x d1) as [x' d2] eqn:Eu.
    destruct (oneShot x' && allDead x'); cbn [fst]; [exact Hrest|].
    intros [<-|H]; [|now apply Hrest].
    exists x. split; [now left|]. right. split; [exact Ea|].
    exists d1. now rewrite Eu.
  - cbn [fst]. intros [<-|H]; [|now apply Hrest].
    exists x. split; [now left|]. left. now split.
Qed.

(** An active emitter is advanced and stays listed unless the advance
    leaves it one-shot with all particles dead. *)
Lemma sweep_keeps (l : list Emitter) (sc : list nat) (d : nat) (e : Emitter) :
  In e l -> active e = true ->
  exists d0,
    oneShot (fst (updateParticles random e d0))
    && allDead (fst (updateParticles random e d0)) = true
    \/ In (fst (updateParticles random e d0)) (fst (fst (sweep random l sc d))).
Proof.
  induction l as [|x l IH]; simpl; [contradiction|].
  destruct (sweep random l sc d) as [[l' sc1] d1]. cbn [fst] in IH.
  intros [->|He] Ha.
  - rewrite Ha. exists d1.
    destruct (updateParticles random e d1) as [x' d2]. cbn [fst].
    destruct (oneShot x' && allDead x'); cbn [fst]; [now left|right; now left].
  - destruct (IH He Ha) as (d0 & H). exists d0.
    destruct H as [H|H]; [now left|right].
    destruct (active x); [|now right].
    destruct (updateParticles random x d1) as [x' d2].
    destruct (oneShot x' && allDead x'); cbn [fst]; [exact H|now right].
Qed.

Lemma uniform_age_step (st : Settings) (c : nat) (k : Z) (l : list Particle)
    (d : nat) :
  (k < lifetime st)%Z ->
  Forall (fun p => p_lifetime p = k) l ->
  Forall (fun p => p_lifetime p = (k + 1)%Z)
         (fst (updateParticleList random st true c l d)).
Proof.
  intros Hk. revert d. induction l as [|p l IH]; intros d H; simpl;
    [constructor|].
  inversion H as [|? ? Hp Hl]; subst.
  assert (Hp' : p_lifetime (fst (updateParticle random st true c p d))
                = (p_lifetime p + 1)%Z).
  { unfold updateParticle. cbn [negb andb].
    replace (p_lifetime p <? lifetime st)%Z with true
      by (symmetry; now apply Z.ltb_lt).
    reflexivity. }
  destruct (updateParticle random st true c p d) as [p' d1].
  specialize (IH d1 Hl).
  destruct (updateParticleList random st true c l d1) as [l' d2].
  cbn [fst] in *. now constructor.
Qed.

Lemma burning_step (st : Settings) (k : Z) (e : Emitter) (d : nat) :
  burning st k e -> (k < lifetime st)%Z ->
  burning st (k + 1) (fst (updateParticles random e d)).
Proof.
  intros (Ha & Ho & Hs & Hn & Hp) Hk.
  destruct (updateParticles_fields random e d) as (_ & Hs' & Ha' & Ho').
  unfold burning. rewrite Hs', Ha', Ho'.
  repeat (split; [assumption|]).
  unfold updateParticles. rewrite Ho, Hs.
  pose proof (uniform_age_step st
                ((emissionCounter e + 1) mod emissionRate e) k (particles e) d
                Hk Hp) as Hf.
  pose proof (length_updateParticleList st true
                ((emissionCounter e + 1) mod emissionRate e) (particles e) d)
    as Hl.
  destruct (updateParticleList random st true _ (particles e) d) as [l' d'].
  cbn [fst particles] in *. split; [|exact Hf].
  intros ->. destruct (particles e); [contradiction|discriminate].
Qed.

Lemma burning_dead (st : Settings) (k : Z) (e : Emitter) :
  burning st k e -> (lifetime st <= k)%Z -> allDead e = true.
Proof.
  intros (_ & _ & Hs & _ & Hp) Hk. unfold allDead. rewrite Hs.
  apply forallb_forall. rewrite Forall_forall in Hp. intros p Hin.
  unfold isDead. rewrite (Hp p Hin).
  apply negb_true_iff, Z.ltb_ge. exact Hk.
Qed.

Lemma burning_alive (st : Settings) (k : Z) (e : Emitter) :
  burning st k e -> (k < lifetime st)%Z -> allDead e = false.
Proof.
  intros (_ & _ & Hs & Hn & Hp) Hk. unfold allDead. rewrite Hs.
  destruct (particles e) as [|p l]; [contradiction|].
  pose proof (Forall_inv Hp) as Hp0. cbv beta in Hp0.
  cbn [forallb]. unfold isDead at 1. rewrite Hp0.
  replace (k <? lifetime st)%Z with true
    by (symmetry; now apply Z.ltb_lt).
  reflexivity.
Qed.

Lemma systems_update_In (s : ParticleSystem.t) (e' : Emitter) :
  In e' (particleSystems (update random s)) ->
  exists e, In e (particleSystems s) /\ system e' = system e
            /\ ((active e = false /\ e' = e)
                \/ (active e = true
                    /\ exists d0, e' = fst (updateParticles random e d0))).
Proof.
  rewrite update_sweep.
  pose proof (sweep_In (particleSystems s) (scene s) (draws s) e') as H.
  destruct (sweep random (particleSystems s) (scene s) (draws s))
    as [[l' sc'] d'].
  cbn [fst particleSystems] in *. intros Hin.
  destruct (H Hin) as (e & He & Hc). exists e. split; [exact He|].
  split; [|exact Hc].
  destruct Hc as [(_ & ->)|(_ & d0 & ->)]; [reflexivity|].
  apply updateParticles_fields.
Qed.

Lemma tracked_step (id : nat) (st : Settings) (k : Z) (s : ParticleSystem.t) :
  tracked id st k s -> (k + 1 < lifetime st)%Z ->
  tracked id st (k + 1) (update random s).
Proof.
  intros (Hin & Hall) Hk. split.
  - unfold systems in Hin. apply in_map_iff in Hin.
    destruct Hin as (e & Hid & He).
    pose proof (Hall e He Hid) as Hb.
    assert (Ha : active e = true) by apply Hb.
    pose proof (sweep_keeps (particleSystems s) (scene s) (draws s) e He Ha)
      as (d0 & Hc).
    pose proof (burning_step st k e d0 Hb ltac:(lia)) as Hb'.
    destruct Hc as [Hc|Hc].
    + apply andb_true_iff in Hc. destruct Hc as (_ & Hd).
      rewrite (burning_alive st (k + 1) _ Hb' Hk) in Hd. discriminate.
    + unfold systems. rewrite update_sweep.
      destruct (sweep random (particleSystems s) (scene s) (draws s))
        as [[l' sc'] d'].
      cbn [fst particleSystems] in *. apply in_map_iff.
      exists (fst (updateParticles random e d0)). split; [|exact Hc].
      rewrite <- Hid. apply updateParticles_fields.
  - intros e' He' Hid'.
    destruct (systems_update_In s e' He') as (e & He & Hsys & Hc).
    assert (Hb : burning st k e) by (apply Hall; [exact He|congruence]).
    destruct Hc as [(Ha & _)|(_ & d0 & ->)].
    + destruct Hb as (Ha' & _). congruence.
    + apply burning_step; [exact Hb|lia].
Qed.

Lemma tracked_last (id : nat) (st : Settings) (k : Z) (s : ParticleSystem.t) :
  tracked id st k s -> (k < lifetime st)%Z -> (lifetime st <= k + 1)%Z ->
  ~ In id (systems (update random s)).
Proof.
  intros (_ & Hall) Hk HL Hin. unfold systems in Hin.
  apply in_map_iff in Hin. destruct Hin as (e' & Hid' & He').
  destruct (systems_update_In s e' He') as (e & He & Hsys & Hc).
  assert (Hb : burning st k e) by (apply Hall; [exact He|congruence]).
  destruct Hc as [(Ha & _)|(_ & d0 & ->)].
  - destruct Hb as (Ha' & _). congruence.
  - pose proof (burning_step st k e d0 Hb Hk) as Hb'.
    pose proof (burning_dead st (k + 1) _ Hb' HL) as Hd.
    destruct Hb' as (Ha' & Ho' & _).
    rewrite (update_removes_dead random s _ He' Ha' Ho') in Hd. discriminate.
Qed.

Lemma update_adds_no_emitter (id : nat) (s : ParticleSystem.t) :
  ~ In id (systems s) -> ~ In id (systems (update random s)).
Proof.
  intros Hn Hin. apply Hn. unfold systems in *.
  apply in_map_iff in Hin. destruct Hin as (e' & Hid' & He').
  destruct (systems_update_In s e' He') as (e & He & Hsys & _).
  apply in_map_iff. exists e. split; [congruence|exact He].
Qed.

Lemma zero_age_newParticles (st : Settings) (dir : Vec3) (n d : nat) :
  Forall (fun p => p_lifetime p = 0%Z)
         (newParticles random normalize colorOf st dir n d).
Proof.
  revert d. induction n; intros d; simpl; constructor; auto.
Qed.

Lemma tracked_create (type : ParticleType) (p dir : Vec3) (sz : option Q)
    (c : nat) (rate : option nat) (s : ParticleSystem.t) :
  engineOwnsScene s ->
  let o := mkOptions sz (Some (S c)) (Some true) rate in
  tracked (fst (createEmitter' type p dir o s)) (mergeSettings type o) 0
    (snd (createEmitter' type p dir o s)).
Proof.
  intros Hs. cbv zeta.
  destruct (engineOwnsScene_create type p dir
              (mkOptions sz (Some (S c)) (Some true) rate) s Hs)
    as (_ & Hfresh).
  unfold createEmitter, tracked, systems in *.
  cbn [fst snd particleSystems o_oneShot o_count]. split.
  - rewrite map_app. apply in_or_app. right. now left.
  - intros e He Hid. apply in_app_or in He. destruct He as [He|[<-|[]]].
    + exfalso. apply Hfresh. apply in_map_iff. exists e. now split.
    + unfold burning. cbn [active oneShot settings particles].
      repeat (split; [reflexivity|]).
      split; [|apply zero_age_newParticles].
      cbn [mergeSettings count o_count newParticles]. discriminate.
Qed.

(** X18.  A one-shot emitter created with at least one particle on a
    reachable state lives exactly as many [update] calls as the
    lifetime of its profile: it is in the list and on the scene after
    every smaller number of calls, and in neither after that number of
    calls or more. *)
Theorem one_shot_emitter_lives_its_lifetime (calls : list EngineCall)
    (type : ParticleType) (p dir : Vec3) (sz : option Q) (c : nat)
    (rate : option nat) (k : nat) :
  let s := engineRun' calls in
  let o := mkOptions sz (Some (S c)) (Some true) rate in
  let id := fst (createEmitter' type p dir o s) in
  let sk := Nat.iter k (update random) (snd (createEmitter' type p dir o s)) in
  if (Z.of_nat k <? lifetime (particleTypes type))%Z
  then In id (systems sk) /\ In id (scene sk)
  else ~ In id (systems sk) /\ ~ In id (scene sk).
Proof.
  cbv zeta.
  set (o := mkOptions sz (Some (S c)) (Some true) rate).
  set (L := lifetime (particleTypes type)).
  pose proof (engineRun_ownsScene calls) as Hs.
  pose proof (tracked_create type p dir sz c rate _ Hs) as H0.
  cbv zeta in H0. fold o in H0.
  set (id := fst (createEmitter' type p dir o (engineRun' calls))) in *.
  set (s1 := snd (createEmitter' type p dir o (engineRun' calls))) in *.
  assert (Hst : lifetime (mergeSettings type o) = L) by reflexivity.
  assert (HL : (0 < L)%Z) by (unfold L; destruct type; reflexivity).
  assert (Hown : forall j, engineOwnsScene (Nat.iter j (update random) s1)).
  { induction j as [|j IH]; [now apply engineOwnsScene_create|].
    rewrite Nat.iter_succ. now apply engineOwnsScene_update. }
  assert (Hlive : forall j, (Z.of_nat j < L)%Z ->
                            tracked id (mergeSettings type o) (Z.of_nat j)
                              (Nat.iter j (update random) s1)).
  { induction j as [|j IH]; intros Hj; [exact H0|].
    rewrite Nat.iter_succ, Nat2Z.inj_succ. unfold Z.succ.
    apply tracked_step; [apply IH; lia|rewrite Hst; lia]. }
  assert (Hgone : forall j, (L <= Z.of_nat j)%Z ->
                            ~ In id (systems (Nat.iter j (update random) s1))).
  { induction j as [|j IH]; intros Hj; [simpl in Hj; lia|].
    rewrite Nat.iter_succ.
    destruct (Z_lt_le_dec (Z.of_nat j) L) as [Hlt|Hge].
    - apply (tracked_last id (mergeSettings type o) (Z.of_nat j));
        [now apply Hlive|rewrite Hst; lia|rewrite Hst; lia].
    - apply update_adds_no_emitter. now apply IH. }
  destruct (Hown k) as (Hsc & _). rewrite Hsc.
  destruct (Z.of_nat k <? L)%Z eqn:E.
  - apply Z.ltb_lt in E. destruct (Hlive k E) as (Hin & _). now split.
  - apply Z.ltb_ge in E. pose proof (Hgone k E). now split.
Qed.

End EngineInvariants.
